(** * Internships bot: change detection and notification dispatch

    A shallow embedding of [mainbot.py] and [fetch_latest_data.py]:
    the feed diff of [process_repo_updates], the message formatters, the
    per-channel failure tracking of [send_discord_message], the snapshot
    write paths and the overlap guard of [combined_scheduled_task].

    Conventions.  A listing is the Python dict decoded from the feed, kept
    as a finite map from field names to JSON values.  Python strings are
    modelled as byte strings; [str.lower] folds the ASCII letters only.
    JSON numbers are the integers.  A Python exception is an explicit
    [Raise] result. *)

From Stdlib Require Import ZArith Ascii String Lia.
From stdpp Require Import gmap strings list fin_maps pretty.

Set Warnings "-register-all,-clear-no-such-hyp".

(** ** JSON values and Python's view of them *)

Inductive json : Type :=
| JNull
| JBool (b : bool)
| JNum (n : Z)
| JStr (s : string)
| JList (items : list json)
| JObj (fields : list (string * json)).

(** One listing record of a feed: [dict] with string keys. *)
Abbreviation role := (gmap string json).

Inductive exn : Type := TypeError | AttributeError.

Inductive result (A : Type) : Type :=
| Ok (a : A)
| Raise (e : exn).
Arguments Ok {A} a.
Arguments Raise {A} e.

#[global] Instance result_ret : MRet result := λ A a, Ok a.
#[global] Instance result_bind : MBind result := λ A B f m,
  match m with Ok a => f a | Raise e => Raise e end.

(** [c.lower()] on one byte. *)
Definition lower_ascii (c : ascii) : ascii :=
  let n := N_of_ascii c in
  if ((65 <=? n) && (n <=? 90))%N then ascii_of_N (n + 32) else c.

(** [s.lower()]. *)
Fixpoint lower (s : string) : string :=
  match s with
  | EmptyString => EmptyString
  | String c rest => String (lower_ascii c) (lower rest)
  end.

(** [bool(value)] for a decoded JSON value. *)
Definition py_bool (v : json) : bool :=
  match v with
  | JNull => false
  | JBool b => b
  | JNum n => negb (n =? 0)%Z
  | JStr s => match s with EmptyString => false | _ => true end
  | JList items => match items with [] => false | _ => true end
  | JObj fields => match fields with [] => false | _ => true end
  end.

(** [_is_value_truthy]. *)
Definition _is_value_truthy (value : json) : bool :=
  match value with
  | JStr s => String.eqb (lower s) "true"
  | _ => py_bool value
  end.

(** Keys of a Python dict as far as decoded JSON can produce them.
    [True == 1] and [False == 0], so a Boolean identifier shares its key
    with the integer; lists and objects are unhashable. *)
Inductive pykey : Type :=
| KNone
| KStr (s : string)
| KInt (n : Z).

#[global] Instance pykey_eq_dec : EqDecision pykey.
Proof. solve_decision. Defined.

#[global] Instance pykey_countable : Countable pykey.
Proof.
  refine (inj_countable'
    (λ k, match k with
          | KNone => inl ()
          | KStr s => inr (inl s)
          | KInt n => inr (inr n)
          end)
    (λ x, match x with
          | inl _ => KNone
          | inr (inl s) => KStr s
          | inr (inr n) => KInt n
          end) _).
  by intros [].
Defined.

Definition dict_key (v : json) : result pykey :=
  match v with
  | JNull => Ok KNone
  | JBool b => Ok (KInt (if b then 1 else 0))
  | JNum n => Ok (KInt n)
  | JStr s => Ok (KStr s)
  | JList _ | JObj _ => Raise TypeError
  end.

Definition dict_key_opt (v : json) : option pykey :=
  match dict_key v with Ok k => Some k | Raise _ => None end.

(** [len(d) != 0], the truth value of a dict. *)
Definition dict_truthy (d : role) : bool := negb (Nat.eqb (size d) 0).

(** ** Feed diff: the first half of [process_repo_updates] *)

(** ['id' in role and role['id'] is not None], giving the identifier. *)
Definition role_id (r : role) : option json :=
  match r !! "id" with
  | Some JNull => None
  | o => o
  end.

(** [{role['id']: role for role in old_data if ...}]: later records
    overwrite earlier ones that have an equal key. *)
Fixpoint old_roles_dict_from (old_data : list role) (d : gmap pykey role)
  : result (gmap pykey role) :=
  match old_data with
  | [] => Ok d
  | r :: rest =>
      match role_id r with
      | None => old_roles_dict_from rest d
      | Some v => k ← dict_key v; old_roles_dict_from rest (<[k:=r]> d)
      end
  end.

Definition old_roles_dict (old_data : list role) : result (gmap pykey role) :=
  old_roles_dict_from old_data ∅.

Record transitions : Type := Transitions {
  new_roles : list role;
  deactivated_roles : list role;
  reactivated_roles : list role
}.

Definition no_transitions : transitions := Transitions [] [] [].

(** Body of the [for new_role in new_data] loop, for a record that has an
    identifier with key [k]. *)
Definition classify_role (d : gmap pykey role) (is_second_repo : bool)
    (k : pykey) (new_role : role) (acc : transitions) : transitions :=
  let old_role := d !! k in
  let new_role_is_active :=
    _is_value_truthy (default (JBool true) (new_role !! "active")) in
  let new_role_is_visible :=
    _is_value_truthy (default (JBool true) (new_role !! "is_visible")) in
  match old_role with
  | Some o =>
      if dict_truthy o then
        let old_role_is_active :=
          _is_value_truthy (default (JBool true) (o !! "active")) in
        if old_role_is_active && negb new_role_is_active then
          Transitions (new_roles acc) (deactivated_roles acc ++ [new_role])
                      (reactivated_roles acc)
        else if is_second_repo && negb old_role_is_active
                && new_role_is_active && new_role_is_visible then
          Transitions (new_roles acc) (deactivated_roles acc)
                      (reactivated_roles acc ++ [new_role])
        else acc
      else if new_role_is_visible && new_role_is_active then
        Transitions (new_roles acc ++ [new_role]) (deactivated_roles acc)
                    (reactivated_roles acc)
      else acc
  | None =>
      if new_role_is_visible && new_role_is_active then
        Transitions (new_roles acc ++ [new_role]) (deactivated_roles acc)
                    (reactivated_roles acc)
      else acc
  end.

Fixpoint classify_loop (d : gmap pykey role) (is_second_repo : bool)
    (new_data : list role) (acc : transitions) : result transitions :=
  match new_data with
  | [] => Ok acc
  | new_role :: rest =>
      match role_id new_role with
      | None => classify_loop d is_second_repo rest acc
      | Some v =>
          k ← dict_key v;
          classify_loop d is_second_repo rest
            (classify_role d is_second_repo k new_role acc)
      end
  end.

(** The three lists [process_repo_updates] has built when its first loop
    ends. *)
Definition diff_roles (new_data old_data : list role) (is_second_repo : bool)
  : result transitions :=
  d ← old_roles_dict old_data;
  classify_loop d is_second_repo new_data no_transitions.

(** What a diff hands on to dispatch: nothing at all when it raised. *)
Definition transitions_of (r : result transitions) : transitions :=
  match r with Ok t => t | Raise _ => no_transitions end.

(** ** Message formatting *)

Definition MAX_RETRIES : nat := 3.

Definition BIG_TECH_COMPANIES : list string := [
  "openai"; "anthropic"; "google"; "nvidia"; "bloomberg"; "snap";
  "meta"; "apple"; "amazon"; "microsoft"; "netflix"; "tesla"; "databricks";
  "figma"; "roblox";
  "square"; "block"; "stripe"; "airbnb"; "uber"; "lyft"; "doordash";
  "instacart"; "palantir";
  "snowflake"; "salesforce"; "oracle"; "sap"; "adobe"; "intel"; "amd";
  "qualcomm"; "texas instruments"; "cisco"; "dell"; "hp"; "atlassian"; "zoom";
  "workday"; "servicenow"; "twilio"; "shopify"; "spotify"; "pinterest";
  "twitter";
  "linkedin"; "github"; "robinhood"; "coinbase"; "jane street";
  "hudson river trading";
  "citadel"; "two sigma"; "jump trading"; "drw"; "akamai"; "cloudflare";
  "mongodb";
  "splunk"; "reddit"; "discord"; "tiktok"; "bytedance"; "waymo"; "heygen";
  "waabi"; "mistral"; "perplexity";
  "point72"; "optiver"; "imc trading"; "tencent"; "samsung"; "tower research";
  "rippling"; "cohere"; "talos trading";
  "kalshi"; "neo"; "capital one"; "datadog"; "ramp"; "notion"; "five rings";
  "epic games"; "riot games";
  "sony";
  "x"
].

Definition EMOJI_NEW : string := "✨".
Definition EMOJI_DEACTIVATED : string := "📉".
Definition EMOJI_REACTIVATED : string := "📈".
Definition EMOJI_SUMMER : string := "☀️".
Definition EMOJI_WINTER : string := "❄️".
Definition EMOJI_FALL : string := "🍂".
Definition EMOJI_UNKNOWN_TERM : string := "❓".

(** The line feed of the message templates. *)
Definition nl : string := String (ascii_of_N 10) EmptyString.

(** [pat in s] on strings. *)
Fixpoint contains (pat s : string) : bool :=
  String.prefix pat s ||
  match s with
  | EmptyString => false
  | String _ rest => contains pat rest
  end.

(** [c.isspace()] on one byte. *)
Definition is_space (c : ascii) : bool :=
  let n := N_of_ascii c in
  (((9 <=? n) && (n <=? 13)) || ((28 <=? n) && (n <=? 32)))%N.

(** [not s.strip()]. *)
Fixpoint is_blank (s : string) : bool :=
  match s with
  | EmptyString => true
  | String c rest => is_space c && is_blank rest
  end.

(** The items of a list handed to [str.join]: every one must be a [str]. *)
Fixpoint str_items (items : list json) : result (list string) :=
  match items with
  | [] => Ok []
  | JStr s :: rest => l ← str_items rest; Ok (s :: l)
  | _ :: _ => Raise TypeError
  end.

(** The two branches under [if raw_season:] (and under [elif raw_terms:]);
    the default ["Unknown"] stays when neither applies. *)
Definition term_field_string (raw : json) : result string :=
  match raw with
  | JList items =>
      if py_bool raw then l ← str_items items; Ok (String.concat ", " l)
      else Ok "Unknown"
  | JStr s => if negb (is_blank s) then Ok s else Ok "Unknown"
  | _ => Ok "Unknown"
  end.

(** [get_term_emoji_and_string]: the pair (emoji string, season string). *)
Definition get_term_emoji_and_string (role_data : role)
  : result (string * string) :=
  let raw_terms := default JNull (role_data !! "terms") in
  let raw_season := default JNull (role_data !! "season") in
  season_str ←
    (if py_bool raw_season then term_field_string raw_season
     else if py_bool raw_terms then term_field_string raw_terms
     else Ok "Unknown");
  if String.eqb season_str EmptyString || String.eqb season_str "Unknown" then
    Ok (EMOJI_UNKNOWN_TERM, "Unknown")
  else
    let season_lower := lower season_str in
    let collected_emojis :=
      ((if contains "summer" season_lower || contains "spring" season_lower
        then [EMOJI_SUMMER] else []) ++
       (if contains "winter" season_lower then [EMOJI_WINTER] else []) ++
       (if contains "fall" season_lower || contains "autumn" season_lower
        then [EMOJI_FALL] else []))%list in
    let final_emoji_str :=
      match collected_emojis with
      | [] => EMOJI_UNKNOWN_TERM
      | _ => String.concat EmptyString collected_emojis
      end in
    Ok (final_emoji_str, season_str).

(** The [for company in BIG_TECH_COMPANIES] loop shared by
    [format_message] and [format_reactivation_message]; [name_lower] is
    [company_name_str.lower()].  Returning [true] is the [break]. *)
Fixpoint matches_watchlist (companies : list string) (name_lower : string)
  : bool :=
  match companies with
  | [] => false
  | company :: rest =>
      if String.eqb (lower company) "x" then
        if String.prefix "x" name_lower then true
        else matches_watchlist rest name_lower
      else if contains (lower company) name_lower then true
      else matches_watchlist rest name_lower
  end.

(** [value.lower()], which only a [str] has. *)
Definition py_lower (value : json) : result string :=
  match value with
  | JStr s => Ok (lower s)
  | _ => Raise AttributeError
  end.

(** [f"<@&{ping_role_id}> "]. *)
Definition ping_token (ping_role_id : Z) : string :=
  "<@&" +:+ pretty ping_role_id +:+ "> ".

(** [if ping_role_id:] on the result of [guild_ping_roles.get(guild_id)]. *)
Definition configured_ping_role (guild_id : Z) (guild_ping_roles : gmap Z Z)
  : option Z :=
  match guild_ping_roles !! guild_id with
  | Some ping_role_id => if (ping_role_id =? 0)%Z then None else Some ping_role_id
  | None => None
  end.

(** The local [ping_str] of [format_message]. *)
Definition new_ping_str (company_name_str : json) (guild_id : Z)
    (guild_ping_roles : gmap Z Z) : result string :=
  match configured_ping_role guild_id guild_ping_roles with
  | Some ping_role_id =>
      name_lower ← py_lower company_name_str;
      if matches_watchlist BIG_TECH_COMPANIES name_lower
      then Ok (ping_token ping_role_id) else Ok EmptyString
  | None => Ok EmptyString
  end.

(** The local [ping_str] of [format_reactivation_message]. *)
Definition reactivation_ping_str (company_name_str : json) (term_str : string)
    (guild_id : Z) (guild_ping_roles : gmap Z Z) : result string :=
  match configured_ping_role guild_id guild_ping_roles with
  | Some ping_role_id =>
      let should_ping := contains "winter 2026" (lower term_str) in
      name_lower ← py_lower company_name_str;
      if should_ping || matches_watchlist BIG_TECH_COMPANIES name_lower
      then Ok (ping_token ping_role_id) else Ok EmptyString
  | None => Ok EmptyString
  end.

(** [', '.join(value)] for the [locations] field. *)
Definition join_locations (value : json) : result string :=
  match value with
  | JList items => l ← str_items items; Ok (String.concat ", " l)
  | JStr s =>
      Ok (String.concat ", " ((λ c, String c EmptyString) <$> list_ascii_of_string s))
  | JObj fields => Ok (String.concat ", " (fst <$> fields))
  | _ => Raise TypeError
  end.

(** The f-strings the formatters return, as functions of the strings they
    interpolate. *)
Definition review_details_text
    (company_name_str title_str term_emoji term_str url_str : string) : string :=
  EMOJI_NEW +:+ " **" +:+ company_name_str +:+ "** - " +:+ title_str +:+ nl
  +:+ "Term: " +:+ term_emoji +:+ " " +:+ term_str
  +:+ ". Review details: <" +:+ url_str +:+ ">".

Definition details_unavailable_text
    (company_name_str title_str term_emoji term_str : string) : string :=
  EMOJI_NEW +:+ " **" +:+ company_name_str +:+ "** - " +:+ title_str +:+ nl
  +:+ "Term: " +:+ term_emoji +:+ " " +:+ term_str
  +:+ ". More details unavailable.".

Definition new_internship_text
    (company_name_str ping_str title_str url_str location_str term_emoji
     term_str sponsorship_str posted : string) : string :=
  EMOJI_NEW +:+ " **" +:+ company_name_str
  +:+ "** just posted a new internship! " +:+ ping_str +:+ nl
  +:+ "[" +:+ title_str +:+ "](" +:+ url_str +:+ ")" +:+ nl
  +:+ "**Location(s):** " +:+ location_str +:+ nl
  +:+ "**Term:** " +:+ term_emoji +:+ " " +:+ term_str +:+ nl
  +:+ "**Sponsorship:** `" +:+ sponsorship_str +:+ "`" +:+ nl
  +:+ "**Posted:** " +:+ posted.

Definition no_longer_active_text
    (company_name_str title_str url_str term_emoji term_str deactivated : string)
  : string :=
  EMOJI_DEACTIVATED +:+ " **" +:+ company_name_str
  +:+ "** internship is no longer active." +:+ nl
  +:+ "[" +:+ title_str +:+ "](" +:+ url_str
  +:+ ") - Term: " +:+ term_emoji +:+ " " +:+ term_str +:+ nl
  +:+ "Deactivated: " +:+ deactivated.

Definition active_again_text
    (ping_str company_name_str title_str url_str term_emoji term_str
     reactivated : string) : string :=
  EMOJI_REACTIVATED +:+ " " +:+ ping_str +:+ "**"
  +:+ company_name_str +:+ "** internship is active again!" +:+ nl
  +:+ "[" +:+ title_str +:+ "](" +:+ url_str
  +:+ ") - Term: " +:+ term_emoji +:+ " " +:+ term_str +:+ nl
  +:+ "Reactivated: " +:+ reactivated.

(** [', '.join(role.get('locations', [])) if role.get('locations')
    else 'Not specified']. *)
Definition location_string (r : role) : result string :=
  if py_bool (default JNull (r !! "locations"))
  then join_locations (default (JList []) (r !! "locations"))
  else Ok "Not specified".

Section Formatting.

(** [str(value)] as an f-string interpolates a value that is not a
    [str], and [datetime.now().strftime('%b %d')]. *)
Variable py_repr : json → string.
Variable today : string.

Definition py_str (value : json) : string :=
  match value with
  | JStr s => s
  | _ => py_repr value
  end.

(** [url_str != '#']. *)
Definition differs_from_hash (url_str : json) : bool :=
  match url_str with
  | JStr s => negb (String.eqb s "#")
  | _ => true
  end.

Definition format_message (r : role) (guild_id : Z)
    (guild_ping_roles : gmap Z Z) : result string :=
  let company_name_str := default (JStr "N/A Company") (r !! "company_name") in
  let title_str := default (JStr "N/A Title") (r !! "title") in
  let url_str := default (JStr "#") (r !! "url") in
  location_str ← location_string r;
  let sponsorship_str := default (JStr "Not specified") (r !! "sponsorship") in
  '(term_emoji, term_str) ← get_term_emoji_and_string r;
  if String.eqb term_str "Unknown" && differs_from_hash url_str then
    Ok (review_details_text (py_str company_name_str) (py_str title_str)
          term_emoji term_str (py_str url_str))
  else if String.eqb term_str "Unknown" then
    Ok (details_unavailable_text (py_str company_name_str) (py_str title_str)
          term_emoji term_str)
  else
    ping_str ← new_ping_str company_name_str guild_id guild_ping_roles;
    Ok (new_internship_text (py_str company_name_str) ping_str
          (py_str title_str) (py_str url_str) location_str term_emoji
          term_str (py_str sponsorship_str) today).

Definition format_deactivation_message (r : role) : result string :=
  let company_name_str := default (JStr "N/A Company") (r !! "company_name") in
  let title_str := default (JStr "N/A Title") (r !! "title") in
  let url_str := default (JStr "#") (r !! "url") in
  '(term_emoji, term_str) ← get_term_emoji_and_string r;
  Ok (no_longer_active_text (py_str company_name_str) (py_str title_str)
        (py_str url_str) term_emoji term_str today).

Definition format_reactivation_message (r : role) (guild_id : Z)
    (guild_ping_roles : gmap Z Z) : result string :=
  let company_name_str := default (JStr "N/A Company") (r !! "company_name") in
  let title_str := default (JStr "N/A Title") (r !! "title") in
  let url_str := default (JStr "#") (r !! "url") in
  '(term_emoji, term_str) ← get_term_emoji_and_string r;
  ping_str ←
    reactivation_ping_str company_name_str term_str guild_id guild_ping_roles;
  Ok (active_again_text ping_str (py_str company_name_str) (py_str title_str)
        (py_str url_str) term_emoji term_str today).

End Formatting.

(** ** Channel failure tracking: [send_discord_message] *)

(** The globals [failed_channels] and [channel_failure_counts]. *)
Record tracker : Type := Tracker {
  failed_channels : gset string;
  channel_failure_counts : gmap string nat
}.

Definition fresh_tracker : tracker := Tracker ∅ ∅.

(** [f"{guild_id}:{channel_id}"]. *)
Definition channel_key (guild_id channel_id : Z) : string :=
  pretty guild_id +:+ ":" +:+ pretty channel_id.

(** What Discord answers to one send that is not skipped. *)
Inductive send_response : Type :=
| Sent            (* [channel.send] returned *)
| NotTextChannel  (* the channel is no [discord.TextChannel] *)
| NotFound        (* [discord.NotFound] *)
| Forbidden       (* [discord.Forbidden] *)
| OtherError.     (* any other [Exception] *)

(** [channel_failure_counts.get(channel_key, 0)]. *)
Definition failure_count (channel_key : string) (t : tracker) : nat :=
  default 0 (channel_failure_counts t !! channel_key).

(** The [finally] clause. *)
Definition finally_clause (channel_key : string) (t : tracker) : tracker :=
  if MAX_RETRIES <=? failure_count channel_key t
  then Tracker ({[channel_key]} ∪ failed_channels t) (channel_failure_counts t)
  else t.

(** The [try] statement of [send_discord_message]: what a send that got
    past the skip test records. *)
Definition send_attempt (resp : send_response) (channel_key : string)
    (t : tracker) : tracker :=
  finally_clause channel_key
    match resp with
    | NotTextChannel =>
        Tracker ({[channel_key]} ∪ failed_channels t)
                (<[channel_key := failure_count channel_key t + MAX_RETRIES]>
                   (channel_failure_counts t))
    | Sent =>
        Tracker (failed_channels t ∖ {[channel_key]})
                (delete channel_key (channel_failure_counts t))
    | NotFound | OtherError =>
        Tracker (failed_channels t)
                (<[channel_key := failure_count channel_key t + 1]>
                   (channel_failure_counts t))
    | Forbidden =>
        Tracker ({[channel_key]} ∪ failed_channels t) (channel_failure_counts t)
    end.

Definition send_discord_message (resp : send_response)
    (guild_id channel_id : Z) (t : tracker) : tracker :=
  let channel_key := channel_key guild_id channel_id in
  if decide (channel_key ∈ failed_channels t) then t
  else send_attempt resp channel_key t.

(** The test [channel_key in failed_channels] that gates every send. *)
Definition shouldSkip (channel_key : string) (t : tracker) : bool :=
  bool_decide (channel_key ∈ failed_channels t).

(** The three outcome classes of a send. *)
Inductive outcome : Type := Success | RetryableFailure | PermanentFailure.

Definition outcome_of (resp : send_response) : outcome :=
  match resp with
  | Sent => Success
  | NotFound | OtherError => RetryableFailure
  | Forbidden | NotTextChannel => PermanentFailure
  end.

(** A history of recorded sends, oldest first. *)
Definition record_all (history : list (string * send_response)) (t : tracker)
  : tracker :=
  foldl (λ t e, send_attempt e.2 e.1 t) t history.

(** ** Files *)

(** What [json.load] finds in a file: a decodable document, or not. *)
Inductive file_content : Type :=
| Json (data : list role)
| Undecodable.

(** What happens to [open(path, 'w')] followed by [json.dump]. *)
Inductive write_response : Type :=
| Written     (* the document is written *)
| OpenFails   (* [open] raises; the file is not touched *)
| DumpFails.  (* [open] has truncated the file, then the write raises *)

Definition write_file (resp : write_response) (path : string)
    (data : list role) (fs : gmap string file_content)
  : gmap string file_content :=
  match resp with
  | Written => <[path := Json data]> fs
  | OpenFails => fs
  | DumpFails => <[path := Undecodable]> fs
  end.

(** [os.rename(src, dst)] for an existing [src]. *)
Definition rename (src dst : string) (fs : gmap string file_content)
  : gmap string file_content :=
  match fs !! src with
  | Some c => <[dst := c]> (delete src fs)
  | None => fs
  end.

(** [save_json_data] of [fetch_latest_data.py]: the Boolean it returns
    and the files it leaves. *)
Definition save_json_data (resp : write_response) (data : list role)
    (file_path : string) (fs : gmap string file_content)
  : bool * gmap string file_content :=
  let backup_path := file_path +:+ ".backup" in
  let fs1 :=
    if decide (is_Some (fs !! file_path)) then rename file_path backup_path fs
    else fs in
  let fs2 := write_file resp file_path data fs1 in
  match resp with
  | Written => (true, fs2)
  | OpenFails | DumpFails =>
      (false,
       if decide (is_Some (fs2 !! backup_path))
       then rename backup_path file_path fs2 else fs2)
  end.

(** ** The event loop and [process_repo_updates]

    The asyncio loop is cooperative and has one thread; coroutines
    overlap at their [await]s.  A coroutine handed to [loop.create_task]
    is put in the queue of ready tasks and does not run a single statement
    before the coroutine that created it reaches an [await] that suspends
    it.  A started coroutine runs up to its next [await], stays suspended
    there, and is resumed by the loop at some later point, between which
    other coroutines run: a [send_discord_message] that has passed its
    skip test waits for Discord while other sends, and the cycle, go on.

    The model keeps the queue of ready tasks and the pool of suspended
    coroutines in the world.  The loop runs at the suspensions of the
    cycle (the reads of the configuration store and the fetch of a feed):
    it starts ready tasks, in the order of their creation, and resumes
    suspended coroutines, each for one stretch between two [await]s.  How
    many tasks it starts and which coroutines it resumes, in which order,
    is left to the surroundings. *)

Definition JSON_URL_1 : string :=
  "https://raw.githubusercontent.com/vanshb03/Summer2026-Internships/refs/heads/dev/.github/scripts/listings.json".
Definition JSON_URL_2 : string :=
  "https://raw.githubusercontent.com/SimplifyJobs/Summer2025-Internships/refs/heads/dev/.github/scripts/listings.json".
Definition PREVIOUS_DATA_FILE : string := "previous_data.json".
Definition PREVIOUS_DATA_FILE_2 : string := "previous_data_simplify.json".

(** A coroutine handed to [loop.create_task]:
    [send_discord_message(message, guild_id, channel_id)], or
    [send_messages_to_all_configured_channels(message, guild_ping_roles)]. *)
Inductive task : Type :=
| SendTask (message_content : string) (guild_id channel_id : Z)
| FanoutTask (message_content : string).

(** Where a [send_discord_message] that has not returned stands. *)
Inductive send_state : Type :=
| Scheduled  (* handed to [asyncio.gather]; no statement has run *)
| Awaiting   (* past the skip test; in [await client.fetch_channel] or
                [await channel.send] *)
| Sleeping.  (* [channel.send] has returned and the counters are reset; in
                [await asyncio.sleep(1)], the [finally] clause still to run *)

(** A coroutine that has not returned.  A send is either a task of its
    own ([gather] is [None]) or one of the sends a fan-out handed to
    [asyncio.gather]: then [gather] names the fan-out, by the time at
    which it issued its sends, and the place of the send among them. *)
Inductive coroutine : Type :=
| SendCoroutine (gather : option (nat * nat)) (message_content : string)
                (guild_id channel_id : Z) (state : send_state)
| FanoutReading (message_content : string)
    (* in [await get_all_channels_from_db()] *)
| FanoutGathering (issued : nat) (message_content : string).
    (* in [await asyncio.gather( *tasks)] *)

(** What [fetch_json_from_url] meets. *)
Inductive fetch_response : Type :=
| Fetched (data : list role)   (* status 200 and a JSON array *)
| HttpError (status : Z)
| BadJson
| NetworkError.

Inductive event : Type :=
| Suspended                    (* the cycle awaits; the loop runs *)
| TaskCreated (t : task)
| SendSkipped (message_content : string) (guild_id channel_id : Z)
| SendAttempted (message_content : string) (guild_id channel_id : Z)
                (resp : send_response)   (* Discord has answered *)
| FanoutIssued (message_content : string) (sends : list (Z * Z))
    (* a fan-out has read the channels; [sends] are the sends it issues *)
| ChildReturned (issued place : nat) (guild_id channel_id : Z)
    (* the send at [place] of the fan-out of time [issued] has returned *)
| FanoutReturned (message_content : string) (issued : nat)
| SnapshotWrite (path : string) (resp : write_response).

(** Everything outside the process, as a function of the time at which it
    is asked (the number of events so far): the configuration store,
    Discord, the disk, the feeds; what the loop does while the cycle is
    suspended at that time: how many of the ready tasks it starts
    ([started]), and which suspended coroutines, by their place in the
    pool, it resumes before the first start and after each
    ([resumed time 0], [resumed time 1], ...); and how an f-string prints
    a value that is not a [str], and the date stamp. *)
Record env : Type := Env {
  db_channels : nat → list (Z * Z);
  db_ping_roles : nat → gmap Z Z;
  discord : nat → Z → Z → send_response;
  disk : nat → string → write_response;
  feed : nat → string → fetch_response;
  started : nat → nat;
  resumed : nat → nat → list nat;
  repr : json → string;
  today : string
}.

Record world : Type := World {
  files : gmap string file_content;
  health : tracker;
  is_task_running : bool;
  ready : list task;           (* created by [create_task], not yet started *)
  suspended : list coroutine;  (* started, or scheduled by [gather]; in an
                                  [await] *)
  trace : list event           (* oldest first *)
}.

Definition now (w : world) : nat := length (trace w).

Definition log (e : event) (w : world) : world :=
  World (files w) (health w) (is_task_running w) (ready w) (suspended w)
        (trace w ++ [e]).

Definition set_health (t : tracker) (w : world) : world :=
  World (files w) t (is_task_running w) (ready w) (suspended w) (trace w).

Definition set_files (fs : gmap string file_content) (w : world) : world :=
  World fs (health w) (is_task_running w) (ready w) (suspended w) (trace w).

Definition set_running (b : bool) (w : world) : world :=
  World (files w) (health w) b (ready w) (suspended w) (trace w).

Definition set_ready (q : list task) (w : world) : world :=
  World (files w) (health w) (is_task_running w) q (suspended w) (trace w).

Definition set_suspended (pool : list coroutine) (w : world) : world :=
  World (files w) (health w) (is_task_running w) (ready w) pool (trace w).

(** The success branch of [send_discord_message] up to its sleep: the
    counter of the key is deleted and the key leaves [failed_channels]. *)
Definition reset_on_success (channel_key : string) (t : tracker) : tracker :=
  Tracker (failed_channels t ∖ {[channel_key]})
          (delete channel_key (channel_failure_counts t)).

(** A send returns: the fan-out that issued it, if any, is told. *)
Definition returned (gather : option (nat * nat)) (guild_id channel_id : Z)
    (w : world) : world :=
  match gather with
  | Some (issued, place) =>
      log (ChildReturned issued place guild_id channel_id) w
  | None => w
  end.

(** [send_discord_message] from its first statement to its first [await]:
    the skip test.  The coroutine returns at once for a skipped key, and
    is suspended, waiting for Discord, otherwise. *)
Definition send_gate (gather : option (nat * nat)) (message_content : string)
    (guild_id channel_id : Z) (w : world) : world * list coroutine :=
  if decide (channel_key guild_id channel_id ∈ failed_channels (health w))
  then (returned gather guild_id channel_id
          (log (SendSkipped message_content guild_id channel_id) w), [])
  else (w, [SendCoroutine gather message_content guild_id channel_id Awaiting]).

(** A send that [asyncio.gather] has scheduled and that is not over. *)
Definition is_child_of (issued : nat) (c : coroutine) : bool :=
  match c with
  | SendCoroutine (Some (gather, _)) _ _ _ _ => Nat.eqb gather issued
  | _ => false
  end.

(** One stretch of a suspended coroutine, from the [await] it is in to its
    next [await] or to its end: the world it leaves, and what takes its
    place in the pool.

    A send that waits for Discord gets the answer.  On [Sent] it resets the
    counters and sleeps; on every other answer it records the failure,
    runs its [finally] clause and returns.  A send that wakes from its
    sleep runs its [finally] clause and returns.

    A fan-out ([send_messages_to_all_configured_channels], called with
    [guild_ping_roles]) that has read the channels filters out the skipped
    ones and hands one send for each of the others to [asyncio.gather];
    with no channel, or none left, it returns.  A fan-out in [gather]
    returns once none of its sends is left. *)
Definition step_coroutine (E : env) (c : coroutine) (w : world)
  : world * list coroutine :=
  match c with
  | SendCoroutine gather message_content guild_id channel_id Scheduled =>
      send_gate gather message_content guild_id channel_id w
  | SendCoroutine gather message_content guild_id channel_id Awaiting =>
      let channel_key := channel_key guild_id channel_id in
      let resp := discord E (now w) guild_id channel_id in
      let w1 := log (SendAttempted message_content guild_id channel_id resp) w in
      match resp with
      | Sent =>
          (set_health (reset_on_success channel_key (health w)) w1,
           [SendCoroutine gather message_content guild_id channel_id Sleeping])
      | NotTextChannel | NotFound | Forbidden | OtherError =>
          (returned gather guild_id channel_id
             (set_health (send_attempt resp channel_key (health w)) w1), [])
      end
  | SendCoroutine gather message_content guild_id channel_id Sleeping =>
      (returned gather guild_id channel_id
         (set_health
            (finally_clause (channel_key guild_id channel_id) (health w)) w),
       [])
  | FanoutReading message_content =>
      let channel_configs := db_channels E (now w) in
      let active_channel_configs :=
        filter (λ gc, channel_key gc.1 gc.2 ∉ failed_channels (health w))
               channel_configs in
      let issued := now w in
      let w1 := log (FanoutIssued message_content active_channel_configs) w in
      match active_channel_configs with
      | [] => (log (FanoutReturned message_content issued) w1, [])
      | _ :: _ =>
          (w1,
           FanoutGathering issued message_content
           :: imap (λ place (gc : Z * Z),
                      SendCoroutine (Some (issued, place)) message_content
                                    gc.1 gc.2 Scheduled)
                   active_channel_configs)
      end
  | FanoutGathering issued message_content =>
      if existsb (is_child_of issued) (suspended w)
      then (w, [FanoutGathering issued message_content])
      else (log (FanoutReturned message_content issued) w, [])
  end.

(** The loop resumes the coroutine at place [i] of the pool, if there is
    one. *)
Definition resume (E : env) (i : nat) (w : world) : world :=
  match suspended w !! i with
  | Some c =>
      let '(w', cs) := step_coroutine E c w in
      set_suspended (take i (suspended w) ++ cs ++ drop (S i) (suspended w)) w'
  | None => w
  end.

Definition resume_all (E : env) (places : list nat) (w : world) : world :=
  foldl (λ w i, resume E i w) w places.

(** The loop starts a ready task: it runs to its first [await] and joins
    the pool, unless it has returned by then. *)
Definition start_task (E : env) (t : task) (w : world) : world :=
  match t with
  | SendTask message_content guild_id channel_id =>
      let '(w', cs) := send_gate None message_content guild_id channel_id w in
      set_suspended (suspended w ++ cs) w'
  | FanoutTask message_content =>
      set_suspended (suspended w ++ [FanoutReading message_content]) w
  end.

(** The cycle is suspended in an [await]: the loop takes the first
    [started E (now w)] ready tasks, in the order of their creation, and
    starts them; before the first and after each it resumes suspended
    coroutines. *)
Definition suspend (E : env) (w : world) : world :=
  let time := now w in
  let n := started E time in
  let w1 := log Suspended w in
  foldl (λ w kt, resume_all E (resumed E time (S kt.1)) (start_task E kt.2 w))
        (resume_all E (resumed E time 0) (set_ready (drop n (ready w1)) w1))
        (imap pair (take n (ready w1))).

(** [loop.create_task(...)]. *)
Definition create_task (t : task) (w : world) : world :=
  log (TaskCreated t) (set_ready (ready w ++ [t]) w).

(** State and exceptions of the cycle's coroutine. *)
Definition M (A : Type) : Type := world → result A * world.

#[global] Instance M_ret : MRet M := λ A a w, (Ok a, w).
#[global] Instance M_bind : MBind M := λ A B f m w,
  match m w with
  | (Ok a, w') => f a w'
  | (Raise e, w') => (Raise e, w')
  end.

Definition lift {A} (r : result A) : M A := λ w, (r, w).
Definition get_world : M world := λ w, (Ok w, w).
Definition update (f : world → world) : M unit := λ w, (Ok (), f w).

Fixpoint for_each {A} (body : A → M unit) (l : list A) : M unit :=
  match l with
  | [] => mret ()
  | x :: rest => body x ≫= λ _, for_each body rest
  end.

(** [await get_all_channels_from_db()]. *)
Definition await_channels (E : env) : M (list (Z * Z)) := λ w,
  (Ok (db_channels E (now w)), suspend E w).

(** [await get_all_guild_ping_roles()]. *)
Definition await_ping_roles (E : env) : M (gmap Z Z) := λ w,
  (Ok (db_ping_roles E (now w)), suspend E w).

(** What [fetch_json_from_url] returns: the decoded array, or the empty
    list in each of its failure branches. *)
Definition response_data (resp : fetch_response) : list role :=
  match resp with
  | Fetched data => data
  | HttpError _ | BadJson | NetworkError => []
  end.

(** [await fetch_json_from_url(url)]. *)
Definition fetch_json_from_url (E : env) (url : string) : M (list role) := λ w,
  (Ok (response_data (feed E (now w) url)), suspend E w).

(** The body shared by the loops over [new_roles] and [reactivated_roles]:
    one send task per configured channel that is not skipped. *)
Definition create_send_tasks (E : env)
    (format : role → Z → gmap Z Z → result string)
    (guild_ping_roles : gmap Z Z) (r : role) : M unit :=
  channel_configs ← await_channels E;
  for_each (λ gc : Z * Z,
    w ← get_world;
    if decide (channel_key gc.1 gc.2 ∈ failed_channels (health w)) then mret ()
    else
      message ← lift (format r gc.1 guild_ping_roles);
      update (create_task (SendTask message gc.1 gc.2)))
    channel_configs.

(** The body of the loop over [deactivated_roles]. *)
Definition create_fanout_task (E : env) (r : role) : M unit :=
  message ← lift (format_deactivation_message (repr E) (today E) r);
  update (create_task (FanoutTask message)).

(** The [try] around [open(previous_data_file, 'w')] and [json.dump]; the
    [IOError] is logged and swallowed. *)
Definition write_previous_data (E : env) (previous_data_file : string)
    (new_data : list role) : M unit := λ w,
  let resp := disk E (now w) previous_data_file in
  (Ok (),
   log (SnapshotWrite previous_data_file resp)
       (set_files (write_file resp previous_data_file new_data (files w)) w)).

(** The three dispatch loops of [process_repo_updates]. *)
Definition create_all_tasks (E : env) (is_second_repo : bool)
    (guild_ping_roles : gmap Z Z) (t : transitions) : M unit :=
  for_each
    (create_send_tasks E (format_message (repr E) (today E)) guild_ping_roles)
    (new_roles t) ≫= λ _,
  for_each (create_fanout_task E) (deactivated_roles t) ≫= λ _,
  if is_second_repo then
    for_each
      (create_send_tasks E (format_reactivation_message (repr E) (today E))
         guild_ping_roles)
      (reactivated_roles t)
  else mret ().

Definition process_repo_updates (E : env) (new_data old_data : list role)
    (previous_data_file : string) (is_second_repo : bool) : M unit :=
  old_roles_dict ← lift (old_roles_dict old_data);
  guild_ping_roles ← await_ping_roles E;
  t ← lift (classify_loop old_roles_dict is_second_repo new_data no_transitions);
  create_all_tasks E is_second_repo guild_ping_roles t ≫= λ _,
  write_previous_data E previous_data_file new_data.

(** ** The poll cycle: [combined_scheduled_task] *)

(** [os.path.exists] and [json.load]; a file that is missing or does not
    decode starts the feed afresh. *)
Definition load_previous_data (previous_data_file : string) (w : world)
  : list role :=
  match files w !! previous_data_file with
  | Some (Json data) => data
  | Some Undecodable | None => []
  end.

(** One feed of the cycle: the fetch, the test [new_data != []], and the
    call of [process_repo_updates]. *)
Definition check_repo (E : env) (url previous_data_file : string)
    (is_second_repo : bool) : M unit :=
  new_data ← fetch_json_from_url E url;
  match new_data with
  | [] => mret ()
  | _ :: _ =>
      w ← get_world;
      process_repo_updates E new_data (load_previous_data previous_data_file w)
                           previous_data_file is_second_repo
  end.

(** The [try] body of [combined_scheduled_task]. *)
Definition cycle_body (E : env) : M unit :=
  check_repo E JSON_URL_1 PREVIOUS_DATA_FILE false ≫= λ _,
  check_repo E JSON_URL_2 PREVIOUS_DATA_FILE_2 true.

Definition combined_scheduled_task (E : env) (w : world) : world :=
  if is_task_running w then w
  else
    match cycle_body E (set_running true w) with
    | (Ok _, w') => set_running false w'
    | (Raise _, w') => set_running false (set_running false w')
    end.

(** ** The overlap guard, with the cycle body left abstract

    A cycle spans many suspensions of the loop, during which ticks keep
    arriving; the guard protocol is therefore stated on its own, over the
    flag, the cycle tasks that [try_start_scheduled_task] has created and
    that have not begun, and the cycles that are inside their [try]. *)
Module Guard.

Record state : Type := State {
  task_running : bool;
  created : nat;
  cycles : nat
}.

Definition initial : state := State false 0 0.

(** How the [try] body of a cycle ends. *)
Inductive ending : Type :=
| Returned
| RaisedException       (* caught by [except Exception] *)
| RaisedBaseException.  (* passes [except Exception], e.g. a cancellation *)

(** A tick of the scheduler: [try_start_scheduled_task]. *)
Definition try_start_scheduled_task (s : state) : state :=
  if negb (task_running s)
  then State (task_running s) (S (created s)) (cycles s)
  else s.

(** A created task begins: the test of the flag and, when it is clear,
    the assignment that sets it; no [await] lies between the two. *)
Definition begin (s : state) : state :=
  if task_running s
  then State (task_running s) (pred (created s)) (cycles s)
  else State true (pred (created s)) (S (cycles s)).

(** A cycle leaves its [try] statement. *)
Definition finish (e : ending) (s : state) : state :=
  let after_except :=
    match e with
    | RaisedException => State false (created s) (cycles s)
    | Returned | RaisedBaseException => s
    end in
  State false (created after_except) (pred (cycles after_except)).

Inductive step : state → state → Prop :=
| step_tick s : step s (try_start_scheduled_task s)
| step_begin s : 0 < created s → step s (begin s)
| step_finish e s : 0 < cycles s → step s (finish e s).

Definition reachable (s : state) : Prop := rtc step initial s.

End Guard.

(** ** Predicates used to state the properties *)

(** The identifiers of a snapshot are hashable and pairwise different as
    dictionary keys. *)
Definition unique_ids (snapshot : list role) : Prop :=
  ∃ keys, mapM dict_key_opt (omap role_id snapshot) = Some keys ∧ NoDup keys.

(** The mention rule in the words of the specification: an entry of the
    watch-list matches a company name by case-insensitive containment,
    the wildcard entry ["x"] by case-insensitive prefix only. *)
Definition watch_list_entry_matches (entry company_name : string) : bool :=
  if String.eqb entry "x"
  then String.prefix (lower entry) (lower company_name)
  else contains (lower entry) (lower company_name).

Definition on_watch_list (company_name : string) : bool :=
  existsb (λ entry, watch_list_entry_matches entry company_name)
          BIG_TECH_COMPANIES.

Inductive event_kind : Type := New | Deactivated | Reactivated.

Definition shouldMention (kind : event_kind) (company_name term_str : string)
  : bool :=
  match kind with
  | New => on_watch_list company_name
  | Reactivated =>
      contains "winter 2026" (lower term_str) || on_watch_list company_name
  | Deactivated => false
  end.

(** The byte [c] occurs in [s]. *)
Fixpoint occurs (c : ascii) (s : string) : bool :=
  match s with
  | EmptyString => false
  | String c' rest => Ascii.eqb c c' || occurs c rest
  end.

(** The events by which the processing of a feed shows: a task handed to
    the loop, and the write of the snapshot. *)
Definition is_dispatch_or_write (e : event) : bool :=
  match e with
  | TaskCreated _ | SnapshotWrite _ _ => true
  | Suspended | SendSkipped _ _ _ | SendAttempted _ _ _ _ | FanoutIssued _ _
  | ChildReturned _ _ _ _ | FanoutReturned _ _ => false
  end.

(** [w'] comes from [w] by steps of the loop: the files, the flag and the
    queue are the same, and the events added are neither task creations
    nor snapshot writes nor suspensions of the cycle. *)
Record task_progress (w w' : world) : Prop := TaskProgress {
  tp_files : files w' = files w;
  tp_running : is_task_running w' = is_task_running w;
  tp_ready : ready w' = ready w;
  tp_trace : ∃ evs, trace w' = trace w ++ evs
                    ∧ Forall (λ e, is_dispatch_or_write e = false
                                   ∧ e ≠ Suspended) evs
}.

(** ** Sample surroundings for the examples *)

(** One guild with one channel and no ping role; Discord accepts every
    send.  The feeds, the disk and the number of tasks the loop starts are
    given per example; after each task it starts, the loop resumes the
    oldest suspended coroutine twice. *)
Definition sample_env (feed : nat → string → fetch_response)
    (disk : nat → string → write_response) (started : nat → nat) : env :=
  Env (λ _, [(10, 20)%Z]) (λ _, ∅) (λ _ _ _, Sent) disk feed started
      (λ _ _, [0; 0]) (λ _, EmptyString) "Nov 04".

(** The loop starts every ready task at each suspension. *)
Definition eager : nat → nat := λ _, 100.

Definition idle_world (fs : gmap string file_content) : world :=
  World fs fresh_tracker false [] [] [].

Definition sample_role : role :=
  {["id" := JNum 1; "company_name" := JStr "Initech";
    "title" := JStr "Intern"; "url" := JStr "https://example.org/1";
    "season" := JStr "Summer 2026"]}.

(** What [format_message] makes of [sample_role] for a guild without a
    ping role. *)
Definition sample_message : string :=
  new_internship_text "Initech" EmptyString "Intern" "https://example.org/1"
    "Not specified" EMOJI_SUMMER "Summer 2026" "Not specified" "Nov 04".

(** ** Runs of the cycle and of the loop *)

(** Every run of [m] takes a world to one that [R] relates to it. *)
Definition steps_within {A} (R : world → world → Prop) (m : M A) : Prop :=
  ∀ w, R w (m w).2.

(** From [w] to [w'] the trace has grown by events that satisfy [P]. *)
Definition logs_only (P : event → Prop) (w w' : world) : Prop :=
  ∃ evs, trace w' = trace w ++ evs ∧ Forall P evs.

(** The worlds the bot reaches from a start with nothing pending: one
    cycle after the other, the loop running in between. *)
Inductive reachable (E : env) : world → Prop :=
| reachable_start fs : reachable E (idle_world fs)
| reachable_cycle w : reachable E w → reachable E (combined_scheduled_task E w)
| reachable_idle w : reachable E w → reachable E (suspend E w).

(** The structured join, on a trace: where a fan-out returns, it has
    issued its sends before, and each of them, place by place, has
    returned in between. *)
Definition joined (tr : list event) : Prop :=
  ∀ k message_content issued,
    tr !! k = Some (FanoutReturned message_content issued) →
    issued < k
    ∧ ∃ sends, tr !! issued = Some (FanoutIssued message_content sends)
        ∧ ∀ place (gc : Z * Z), sends !! place = Some gc →
            ∃ i, issued < i < k
                 ∧ tr !! i = Some (ChildReturned issued place gc.1 gc.2).

(** Every fan-out that waits in [gather] has issued its sends, and each of
    them is in the pool or has returned. *)
Definition pool_ok (w : world) : Prop :=
  ∀ issued message_content,
    FanoutGathering issued message_content ∈ suspended w →
    ∃ sends, trace w !! issued = Some (FanoutIssued message_content sends)
      ∧ ∀ place (gc : Z * Z), sends !! place = Some gc →
          (∃ m state,
             SendCoroutine (Some (issued, place)) m gc.1 gc.2 state
             ∈ suspended w)
          ∨ ∃ i, issued < i
                 ∧ trace w !! i
                   = Some (ChildReturned issued place gc.1 gc.2).

(** The steps of [process_repo_updates] before the write of the snapshot:
    the index, the read of the ping roles, the diff and the three dispatch
    loops. *)
Definition dispatch_phase (E : env) (new_data old_data : list role)
    (is_second_repo : bool) : M unit :=
  old_roles_dict ← lift (old_roles_dict old_data);
  guild_ping_roles ← await_ping_roles E;
  t ← lift (classify_loop old_roles_dict is_second_repo new_data no_transitions);
  create_all_tasks E is_second_repo guild_ping_roles t.

(** The invariant of the loop behind the join. *)
Definition join_invariant (w : world) : Prop :=
  joined (trace w) ∧ pool_ok w.

(** [I] is kept from [w] to [w']. *)
Definition keeps (I : world → Prop) (w w' : world) : Prop := I w → I w'.

(** The events after the last suspension of the cycle. *)
Definition since_last_suspension (evs : list event) : list event :=
  foldl (λ acc e, match e with Suspended => [] | _ => acc ++ [e] end) [] evs.

(** Since [w0] the trace has only grown, and every task created after
    the last suspension since is still in the queue. *)
Definition still_queued (w0 w : world) : Prop :=
  ∃ evs, trace w = trace w0 ++ evs
    ∧ ∀ t, TaskCreated t ∈ since_last_suspension evs → t ∈ ready w.

(** The world after the rounds of the loop over [new_roles] (or
    [reactivated_roles]) for the listings [earlier], and after the loop
    over [deactivated_roles]. *)
Definition after_rounds (E : env) (format : role → Z → gmap Z Z → result string)
    (guild_ping_roles : gmap Z Z) (earlier : list role) (w : world) : world :=
  (for_each (create_send_tasks E format guild_ping_roles) earlier w).2.

Definition after_fanouts (E : env) (roles : list role) (w : world) : world :=
  (for_each (create_fanout_task E) roles w).2.

(** What the round of the listing [r] that begins in [w0] has done by the
    time the trace is [tr]: the channels are read at [now w0], the cycle is
    suspended for the read, and for every channel read whose key is not in
    [failed_channels] when the cycle goes on, the send task has been
    created since. *)
Definition round_dispatches (E : env)
    (format : role → Z → gmap Z Z → result string)
    (guild_ping_roles : gmap Z Z) (r : role) (w0 : world) (tr : list event)
  : Prop :=
  ∀ gc : Z * Z,
    gc ∈ db_channels E (now w0) →
    channel_key gc.1 gc.2 ∉ failed_channels (health (suspend E w0)) →
    ∃ message i,
      format r gc.1 guild_ping_roles = Ok message
      ∧ now (suspend E w0) ≤ i
      ∧ tr !! i = Some (TaskCreated (SendTask message gc.1 gc.2)).

(** ** The diff, record by record

    The conditions under which the loop of [process_repo_updates] appends
    a record to one of its three lists, as tests on the record and on the
    index of the old snapshot. *)

(** [_is_value_truthy(role.get('active', True))]. *)
Definition is_active (r : role) : bool :=
  _is_value_truthy (default (JBool true) (r !! "active")).

(** [_is_value_truthy(role.get('is_visible', True))]. *)
Definition is_visible (r : role) : bool :=
  _is_value_truthy (default (JBool true) (r !! "is_visible")).

(** ['id' in role and role['id'] is not None]. *)
Definition has_id (r : role) : bool :=
  match role_id r with Some _ => true | None => false end.

(** The identifier can be a dictionary key. *)
Definition hashable_id (r : role) : bool :=
  match role_id r with
  | Some (JList _) | Some (JObj _) => false
  | _ => true
  end.

(** [old_roles_dict.get(new_role['id'])] when it is truthy. *)
Definition old_role_of (d : gmap pykey role) (r : role) : option role :=
  match role_id r with
  | Some v =>
      match dict_key v with
      | Ok k =>
          match d !! k with
          | Some o => if dict_truthy o then Some o else None
          | None => None
          end
      | Raise _ => None
      end
  | None => None
  end.

Definition is_new (d : gmap pykey role) (r : role) : bool :=
  has_id r
  && match old_role_of d r with Some _ => false | None => true end
  && is_visible r && is_active r.

Definition is_deactivated (d : gmap pykey role) (r : role) : bool :=
  match old_role_of d r with
  | Some o => is_active o && negb (is_active r)
  | None => false
  end.

Definition is_reactivated (d : gmap pykey role) (is_second_repo : bool)
    (r : role) : bool :=
  match old_role_of d r with
  | Some o => is_second_repo && negb (is_active o) && is_active r && is_visible r
  | None => false
  end.

(** Two records carry identifiers that are the same dictionary key. *)
Definition same_key (r o : role) : Prop :=
  ∃ v v' k, role_id r = Some v ∧ role_id o = Some v'
            ∧ dict_key v = Ok k ∧ dict_key v' = Ok k.

(** ** A session of sends *)

(** The sends of a session, oldest first, each with what Discord answers
    if the send is attempted. *)
Definition send_all (sends : list (send_response * (Z * Z))) (t : tracker)
  : tracker :=
  foldl (λ t s, send_discord_message s.1 s.2.1 s.2.2 t) t sends.

(** Every run of [m] leaves every file as it was. *)
Definition keeps_files {A} (m : M A) : Prop :=
  ∀ w, files (m w).2 = files w.

(** ** The configuration store: the table [guild_configs]

    One row per guild, keyed by [guild_id]; the two other columns are
    nullable.  The session always commits. *)
Module Store.

Record GuildConfig : Type := Row {
  channel_id : option Z;
  ping_role_id : option Z
}.

Abbreviation table := (gmap Z GuildConfig).

(** [value if row and value else None] for a nullable integer column. *)
Definition truthy_column (value : option Z) : option Z :=
  match value with
  | Some n => if (n =? 0)%Z then None else Some n
  | None => None
  end.

Definition set_guild_channel (guild_id : Z) (channel : option Z) (db : table)
  : table :=
  match db !! guild_id with
  | Some guild_config =>
      <[guild_id := Row channel (ping_role_id guild_config)]> db
  | None => <[guild_id := Row channel None]> db
  end.

(** The rows whose [channel_id] is not null, as pairs. *)
Definition get_all_channels_from_db (db : table) : list (Z * Z) :=
  omap (λ row : Z * GuildConfig, c ← channel_id row.2; Some (row.1, c))
       (map_to_list db).

Definition get_guild_channel (guild_id : Z) (db : table) : option Z :=
  match db !! guild_id with
  | Some row => truthy_column (channel_id row)
  | None => None
  end.

Definition set_guild_ping_role (guild_id : Z) (role_id : option Z) (db : table)
  : table :=
  match db !! guild_id with
  | Some guild_config =>
      <[guild_id := Row (channel_id guild_config) role_id]> db
  | None => <[guild_id := Row None role_id]> db
  end.

Definition get_guild_ping_role (guild_id : Z) (db : table) : option Z :=
  match db !! guild_id with
  | Some row => truthy_column (ping_role_id row)
  | None => None
  end.

(** The rows whose [ping_role_id] is not null, as a dictionary. *)
Definition get_all_guild_ping_roles (db : table) : gmap Z Z :=
  omap ping_role_id db.

(** What a slash command answers. *)
Inductive reply : Type :=
| ChannelSet (channel : Z)
| NoChannelConfigured
| ChannelRemoved
| PingRoleSet (role_id : Z)
| PingRoleCleared.

(** [/set_channel]: with a channel it is stored; without one the stored
    channel is removed if [get_guild_channel] reports one. *)
Definition set_channel_cmd (guild_id : Z) (channel : option Z) (db : table)
  : table * reply :=
  match channel with
  | Some c => (set_guild_channel guild_id (Some c) db, ChannelSet c)
  | None =>
      match get_guild_channel guild_id db with
      | None => (db, NoChannelConfigured)
      | Some _ => (set_guild_channel guild_id None db, ChannelRemoved)
      end
  end.

(** [/set_ping_role]. *)
Definition set_ping_role_cmd (guild_id : Z) (role : option Z) (db : table)
  : table * reply :=
  match role with
  | Some role_id => (set_guild_ping_role guild_id (Some role_id) db,
                     PingRoleSet role_id)
  | None => (set_guild_ping_role guild_id None db, PingRoleCleared)
  end.

End Store.

(** ** The fetch script: [update_data_files] *)

Definition JSON_URL_3 : string :=
  "https://raw.githubusercontent.com/SimplifyJobs/Summer2026-Internships/refs/heads/dev/.github/scripts/listings.json".
Definition PREVIOUS_DATA_FILE_3 : string := "previous_data_simplify2.json".

(** One source: the fetch, the test [if data:], and the save. *)
Definition update_source (feed : string → fetch_response)
    (disk : string → write_response) (url file_path : string)
    (fs : gmap string file_content) : bool * gmap string file_content :=
  match response_data (feed url) with
  | [] => (false, fs)
  | data => save_json_data (disk file_path) data file_path fs
  end.

(** The Boolean [update_data_files] returns and the files it leaves. *)
Definition update_data_files (feed : string → fetch_response)
    (disk : string → write_response) (fs : gmap string file_content)
  : bool * gmap string file_content :=
  let '(success1, fs1) :=
    update_source feed disk JSON_URL_1 PREVIOUS_DATA_FILE fs in
  let '(success2, fs2) :=
    update_source feed disk JSON_URL_2 PREVIOUS_DATA_FILE_2 fs1 in
  let '(success3, fs3) :=
    update_source feed disk JSON_URL_3 PREVIOUS_DATA_FILE_3 fs2 in
  (success1 && success2 && success3, fs3).


(** * Properties *)

(** ** The feed diff *)

Lemma role_id_truthy (r : role) v : role_id r = Some v → dict_truthy r = true.
Proof.
  unfold role_id, dict_truthy. intros H.
  destruct (size r) eqn:Hs; [|done].
  apply map_size_empty_iff in Hs. subst r.
  by rewrite lookup_empty in H.
Qed.

Lemma role_id_singleton v : v ≠ JNull → role_id {["id" := v]} = Some v.
Proof.
  intros Hv. unfold role_id. rewrite lookup_singleton_eq. by destruct v.
Qed.

Lemma classify_role_reactivated d k r acc :
  reactivated_roles (classify_role d false k r acc) = reactivated_roles acc.
Proof.
  unfold classify_role. cbn [andb].
  repeat (case_match; cbn [reactivated_roles]); done.
Qed.

Lemma classify_loop_reactivated d new_data : ∀ acc t,
  classify_loop d false new_data acc = Ok t →
  reactivated_roles t = reactivated_roles acc.
Proof.
  induction new_data as [|r rest IH]; intros acc t; cbn [classify_loop].
  - by intros [= <-].
  - destruct (role_id r) as [v|]; [|by apply IH].
    destruct (dict_key v) as [k|e]; cbn; [|done].
    intros H. apply IH in H. by rewrite classify_role_reactivated in H.
Qed.

(** The index built from a snapshot whose identifiers are hashable.  Keys
    outside the snapshot keep what the accumulator held; when the keys are
    pairwise different every record is found under its own key. *)
Lemma old_roles_dict_from_lookup (snapshot : list role) : ∀ d0 keys,
  mapM dict_key_opt (omap role_id snapshot) = Some keys →
  ∃ d, old_roles_dict_from snapshot d0 = Ok d
       ∧ (∀ k, k ∉ keys → d !! k = d0 !! k)
       ∧ (NoDup keys → ∀ r v k, r ∈ snapshot → role_id r = Some v →
            dict_key v = Ok k → d !! k = Some r).
Proof.
  induction snapshot as [|r rest IH]; intros d0 keys; cbn [omap list_omap old_roles_dict_from].
  - intros [= <-]. exists d0. split; [done|]. split; [done|].
    intros _ r v k Hr. by apply not_elem_of_nil in Hr.
  - destruct (role_id r) as [v|] eqn:Hid.
    + rewrite mapM_Some. intros Hall.
      apply Forall2_cons_inv_l in Hall as (k & keys' & Hk & Hrest & ->).
      apply mapM_Some in Hrest.
      unfold dict_key_opt in Hk. destruct (dict_key v) as [k'|] eqn:Hkey; [|done].
      injection Hk as ->. cbn.
      destruct (IH (<[k:=r]> d0) keys' Hrest) as (d & Hd & Hout & Hin).
      exists d. split; [done|]. split.
      * intros k' Hk'. apply not_elem_of_cons in Hk' as [Hne Hk'].
        rewrite Hout by done. by rewrite lookup_insert_ne.
      * intros Hnd r' v' k' Hr' Hid' Hkey'.
        apply NoDup_cons in Hnd as [Hfresh Hnd].
        apply elem_of_cons in Hr' as [->|Hr'].
        -- rewrite Hid in Hid'. injection Hid' as <-.
           rewrite Hkey in Hkey'. injection Hkey' as <-.
           rewrite Hout by done. by rewrite lookup_insert_eq.
        -- by apply (Hin Hnd r' v' k').
    + intros Hrest. destruct (IH d0 keys Hrest) as (d & Hd & Hout & Hin).
      exists d. split; [done|]. split; [done|].
      intros Hnd r' v' k' Hr' Hid' Hkey'.
      apply elem_of_cons in Hr' as [->|Hr']; [congruence|].
      by apply (Hin Hnd r' v' k').
Qed.

Lemma classify_role_same d b k (r : role) v acc :
  role_id r = Some v → d !! k = Some r → classify_role d b k r acc = acc.
Proof.
  intros Hid Hk. unfold classify_role. rewrite Hk.
  rewrite (role_id_truthy _ _ Hid).
  destruct (_is_value_truthy (default (JBool true) (r !! "active")));
    destruct b; cbn; done.
Qed.

Lemma classify_loop_same d b (new_data : list role) : ∀ acc,
  (∀ r v, r ∈ new_data → role_id r = Some v →
     ∃ k, dict_key v = Ok k ∧ d !! k = Some r) →
  classify_loop d b new_data acc = Ok acc.
Proof.
  induction new_data as [|r rest IH]; intros acc Hall; cbn [classify_loop]; [done|].
  destruct (role_id r) as [v|] eqn:Hid.
  - destruct (Hall r v) as (k & -> & Hk); [by left|done|]. cbn.
    rewrite (classify_role_same _ _ _ _ _ _ Hid Hk).
    apply IH. intros r' v' Hr'. apply Hall. by right.
  - apply IH. intros r' v' Hr'. apply Hall. by right.
Qed.

Lemma mapM_dict_key_hashable (snapshot : list role) : ∀ keys r v,
  mapM dict_key_opt (omap role_id snapshot) = Some keys →
  r ∈ snapshot → role_id r = Some v → ∃ k, dict_key v = Ok k.
Proof.
  induction snapshot as [|r0 rest IH]; intros keys r v Hm Hr Hid.
  - by apply not_elem_of_nil in Hr.
  - cbn [omap list_omap] in Hm.
    destruct (role_id r0) as [v0|] eqn:Hid0.
    + apply mapM_Some, Forall2_cons_inv_l in Hm as (k & keys' & Hk & Hrest & ->).
      apply elem_of_cons in Hr as [->|Hr].
      * rewrite Hid0 in Hid. injection Hid as <-.
        unfold dict_key_opt in Hk. destruct (dict_key v0); [eauto|done].
      * apply mapM_Some in Hrest. eauto.
    + apply elem_of_cons in Hr as [->|Hr]; [congruence|eauto].
Qed.

(** C5: with [is_second_repo] false (the feed does not support
    reactivation) the diff of any two snapshots yields no Reactivated
    record, whatever happened to the active flags. *)
Theorem reactivation_gated (new_data old_data : list role) :
  reactivated_roles (transitions_of (diff_roles new_data old_data false)) = [].
Proof.
  unfold diff_roles. destruct (old_roles_dict old_data) as [d|e]; cbn; [|done].
  destruct (classify_loop d false new_data no_transitions) as [t|e] eqn:H; cbn; [|done].
  by apply classify_loop_reactivated in H.
Qed.

(** C7: a snapshot whose identifiers are pairwise different, diffed
    against itself, yields no New, no Deactivated and no Reactivated
    record, for either value of [is_second_repo]. *)
Theorem diff_self_empty (snapshot : list role) (is_second_repo : bool) :
  unique_ids snapshot →
  diff_roles snapshot snapshot is_second_repo = Ok no_transitions.
Proof.
  intros (keys & Hkeys & Hnd). unfold diff_roles, old_roles_dict.
  destruct (old_roles_dict_from_lookup snapshot ∅ keys Hkeys) as (d & -> & _ & Hin).
  cbn. apply classify_loop_same. intros r v Hr Hid.
  destruct (mapM_dict_key_hashable _ _ _ _ Hkeys Hr Hid) as [k Hk].
  exists k. split; [done|]. by apply (Hin Hnd r v k).
Qed.

Lemma diff_self_empty_witness :
  let snapshot : list role :=
    [ {["id" := JNum 1; "active" := JBool true]};
      {["id" := JStr "a"; "active" := JStr "false"]} ] in
  diff_roles snapshot snapshot true = Ok no_transitions.
Proof.
  intros snapshot. apply diff_self_empty.
  exists [KInt 1; KStr "a"]. split; [reflexivity|].
  apply NoDup_cons. split; [|apply NoDup_singleton].
  intros H. apply list_elem_of_singleton in H. discriminate H.
Defined.

(** Without pairwise different identifiers the self-diff is not empty: the
    index keeps the last record of a key, and an earlier one is compared
    with it. *)
Example diff_self_duplicate_id :
  let snapshot : list role :=
    [ {["id" := JNum 1; "active" := JBool false]};
      {["id" := JNum 1; "active" := JBool true]} ] in
  deactivated_roles (transitions_of (diff_roles snapshot snapshot false))
  = [ {["id" := JNum 1; "active" := JBool false]} ].
Proof. vm_compute. reflexivity. Qed.

(** C7 fails without its precondition.  With an identifier that occurs
    twice the self-diff has a Deactivated record; so it has with the
    identifiers [true] and [1], which are one dictionary key; and with an
    identifier that is a list it raises and yields no lists at all. *)
Lemma diff_self_not_empty :
  diff_roles [ {["id" := JNum 1; "active" := JBool false]};
               {["id" := JNum 1; "active" := JBool true]} ]
             [ {["id" := JNum 1; "active" := JBool false]};
               {["id" := JNum 1; "active" := JBool true]} ] false
  = Ok (Transitions [] [ {["id" := JNum 1; "active" := JBool false]} ] [])
  ∧ diff_roles [ {["id" := JBool true; "active" := JBool false]};
                 {["id" := JNum 1; "active" := JBool true]} ]
               [ {["id" := JBool true; "active" := JBool false]};
                 {["id" := JNum 1; "active" := JBool true]} ] true
    = Ok (Transitions [] [ {["id" := JBool true; "active" := JBool false]} ] [])
  ∧ diff_roles [ {["id" := JList []]} ] [ {["id" := JList []]} ] false
    = Raise TypeError.
Proof. vm_compute. done. Qed.

(** The gate of C5 at work: the same pair of snapshots is a reactivation
    for the second feed and nothing for the first. *)
Example reactivation_gate_example :
  let old_data : list role := [ {["id" := JNum 7; "active" := JBool false]} ] in
  let new_data : list role :=
    [ {["id" := JNum 7; "active" := JBool true; "is_visible" := JBool true]} ] in
  diff_roles new_data old_data true = Ok (Transitions [] [] new_data)
  ∧ diff_roles new_data old_data false = Ok no_transitions.
Proof. split; vm_compute; reflexivity. Qed.

(** Scenarios A and B of the specification. *)
Example scenario_deactivated :
  let old_data : list role := [ {["id" := JNum 1; "active" := JBool true]} ] in
  let new_data : list role := [ {["id" := JNum 1; "active" := JBool false]} ] in
  diff_roles new_data old_data false = Ok (Transitions [] new_data []).
Proof. vm_compute. reflexivity. Qed.

Example scenario_new :
  let new_data : list role :=
    [ {["id" := JNum 2; "active" := JBool true; "is_visible" := JBool true]} ] in
  diff_roles new_data [] false = Ok (Transitions new_data [] []).
Proof. vm_compute. reflexivity. Qed.

(** C10: an absent [active] or [is_visible] field counts as true.  A
    record that carries nothing but an identifier the index does not hold
    is New; and a stored record without an [active] field is taken as
    active, so that a new record of the same identifier whose [active] is
    not truthy is Deactivated. *)
Theorem absent_flags_default_true (is_second_repo : bool) :
  (∀ (old_data : list role) d v k,
     old_roles_dict old_data = Ok d → v ≠ JNull → dict_key v = Ok k →
     d !! k = None →
     diff_roles [ {["id" := v]} ] old_data is_second_repo
     = Ok (Transitions [ {["id" := v]} ] [] []))
  ∧ (∀ (o n : role) v v' k,
     role_id o = Some v → dict_key v = Ok k → o !! "active" = None →
     role_id n = Some v' → dict_key v' = Ok k →
     _is_value_truthy (default (JBool true) (n !! "active")) = false →
     diff_roles [n] [o] is_second_repo = Ok (Transitions [] [n] [])).
Proof.
  split.
  - intros old_data d v k Hd Hv Hk Hnone. unfold diff_roles. rewrite Hd. cbn.
    rewrite (role_id_singleton v Hv), Hk. cbn.
    unfold classify_role. rewrite Hnone.
    rewrite !lookup_singleton_ne by done. reflexivity.
  - intros o n v v' k Ho Hk Hact Hn Hk' Hfalse.
    unfold diff_roles, old_roles_dict. cbn. rewrite Ho, Hk. cbn.
    rewrite Hn, Hk'. cbn. unfold classify_role.
    rewrite lookup_insert_eq, (role_id_truthy _ _ Ho), Hact, Hfalse.
    reflexivity.
Qed.

Lemma absent_flags_default_true_witness :
  diff_roles [ {["id" := JStr "a1"]} ] [ {["id" := JStr "b2"]} ] false
  = Ok (Transitions [ {["id" := JStr "a1"]} ] [] [])
  ∧ diff_roles [ {["id" := JNum 5; "active" := JStr "no"]} ]
               [ {["id" := JNum 5]} ] false
    = Ok (Transitions [] [ {["id" := JNum 5; "active" := JStr "no"]} ] []).
Proof.
  split.
  - apply (proj1 (absent_flags_default_true false)
             [ {["id" := JStr "b2"]} ] {[KStr "b2" := {["id" := JStr "b2"]}]}
             (JStr "a1") (KStr "a1")); [reflexivity|discriminate|reflexivity|reflexivity].
  - apply (proj2 (absent_flags_default_true false)
             {["id" := JNum 5]} {["id" := JNum 5; "active" := JStr "no"]}
             (JNum 5) (JNum 5) (KInt 5)); reflexivity.
Defined.

(** ** Term resolution and the mention rule *)

(** C8, as the code has it: a record with neither [season] nor [terms]
    resolves to ["Unknown"] and the unknown-term marker; a record whose
    [season] is the list Fall, Winter resolves to ["Fall, Winter"] with
    the winter marker first and the fall marker second (markers come in
    the fixed order summer, winter, fall). *)
Theorem term_resolution (r : role) :
  (r !! "season" = None → r !! "terms" = None →
   get_term_emoji_and_string r = Ok (EMOJI_UNKNOWN_TERM, "Unknown"))
  ∧ (r !! "season" = Some (JList [JStr "Fall"; JStr "Winter"]) →
     get_term_emoji_and_string r
     = Ok (EMOJI_WINTER +:+ EMOJI_FALL, "Fall, Winter")).
Proof.
  split.
  - intros Hs Ht. unfold get_term_emoji_and_string. rewrite Hs, Ht. reflexivity.
  - intros Hs. unfold get_term_emoji_and_string. rewrite Hs. reflexivity.
Qed.

Lemma term_resolution_witness :
  get_term_emoji_and_string {["id" := JNum 1]}
  = Ok (EMOJI_UNKNOWN_TERM, "Unknown")
  ∧ get_term_emoji_and_string
      {["id" := JNum 1; "season" := JList [JStr "Fall"; JStr "Winter"]]}
    = Ok (EMOJI_WINTER +:+ EMOJI_FALL, "Fall, Winter").
Proof.
  split.
  - apply (proj1 (term_resolution {["id" := JNum 1]})); reflexivity.
  - apply (proj2 (term_resolution
      {["id" := JNum 1; "season" := JList [JStr "Fall"; JStr "Winter"]]}));
      reflexivity.
Defined.

(** The order the claim gives, fall before winter, is not what the record
    resolves to. *)
Lemma term_resolution_fall_winter_order :
  get_term_emoji_and_string
    {["season" := JList [JStr "Fall"; JStr "Winter"]]}
  ≠ Ok (EMOJI_FALL +:+ EMOJI_WINTER, "Fall, Winter").
Proof. vm_compute. discriminate. Qed.

Lemma matches_watchlist_existsb (companies : list string) name_lower :
  matches_watchlist companies name_lower
  = existsb (λ company,
      if String.eqb (lower company) "x" then String.prefix "x" name_lower
      else contains (lower company) name_lower) companies.
Proof.
  induction companies as [|company rest IH]; cbn [matches_watchlist existsb]; [done|].
  rewrite IH. by repeat case_match.
Qed.

(** On a list whose only entry that lowers to ["x"] is ["x"] itself, the
    loop of the formatters computes the rule of the specification. *)
Lemma matches_watchlist_spec (companies : list string) company_name :
  forallb (λ entry, Bool.eqb (String.eqb (lower entry) "x") (String.eqb entry "x"))
          companies = true →
  matches_watchlist companies (lower company_name)
  = existsb (λ entry, watch_list_entry_matches entry company_name) companies.
Proof.
  rewrite matches_watchlist_existsb.
  induction companies as [|entry rest IH]; cbn [forallb existsb]; [done|].
  intros [Hx Hrest]%andb_true_iff. rewrite (IH Hrest). f_equal.
  apply Bool.eqb_prop in Hx. unfold watch_list_entry_matches. rewrite Hx.
  destruct (String.eqb entry "x") eqn:He; [|done].
  apply String.eqb_eq in He. by subst entry.
Qed.

Lemma matches_watchlist_on_watch_list company_name :
  matches_watchlist BIG_TECH_COMPANIES (lower company_name)
  = on_watch_list company_name.
Proof. apply matches_watchlist_spec. vm_compute. reflexivity. Qed.

(** The [break]: the loop stops at the first entry that matches. *)
Lemma matches_watchlist_first company rest name_lower :
  (if String.eqb (lower company) "x" then String.prefix "x" name_lower
   else contains (lower company) name_lower) = true →
  matches_watchlist (company :: rest) name_lower = true.
Proof. cbn [matches_watchlist]. by repeat case_match. Qed.

Lemma occurs_append c (a b : string) :
  occurs c (a +:+ b) = occurs c a || occurs c b.
Proof.
  induction a as [|c' a IH]; simpl; [done|]. by rewrite IH, orb_assoc.
Qed.

Lemma term_emoji_no_at (r : role) term_emoji term_str :
  get_term_emoji_and_string r = Ok (term_emoji, term_str) →
  occurs "@" term_emoji = false.
Proof.
  unfold get_term_emoji_and_string.
  destruct (if py_bool _ then _ else _) as [season_str|e]; cbn; [|done].
  destruct (String.eqb season_str EmptyString || String.eqb season_str "Unknown");
    [by intros [= <- <-]|].
  destruct (contains "summer" _ || contains "spring" _);
    destruct (contains "winter" _);
    destruct (contains "fall" _ || contains "autumn" _);
    intros [= <- <-]; reflexivity.
Qed.

Lemma new_ping_str_spec company guild_id ping_role_id
    (guild_ping_roles : gmap Z Z) :
  configured_ping_role guild_id guild_ping_roles = Some ping_role_id →
  new_ping_str (JStr company) guild_id guild_ping_roles
  = Ok (if on_watch_list company then ping_token ping_role_id else EmptyString).
Proof.
  intros Hping. unfold new_ping_str. rewrite Hping. unfold py_lower.
  cbn [mbind result_bind]. rewrite matches_watchlist_on_watch_list.
  by destruct (on_watch_list company).
Qed.

Lemma reactivation_ping_str_spec company term_str guild_id ping_role_id
    (guild_ping_roles : gmap Z Z) :
  configured_ping_role guild_id guild_ping_roles = Some ping_role_id →
  reactivation_ping_str (JStr company) term_str guild_id guild_ping_roles
  = Ok (if contains "winter 2026" (lower term_str) || on_watch_list company
        then ping_token ping_role_id else EmptyString).
Proof.
  intros Hping. unfold reactivation_ping_str. rewrite Hping. unfold py_lower.
  cbn [mbind result_bind]. rewrite matches_watchlist_on_watch_list.
  by destruct (contains "winter 2026" (lower term_str) || on_watch_list company).
Qed.

(** C9: the mention rule.  For a listing whose company name is a string,
    formatted for a guild that has a ping role configured:
    - a New listing (full template, term resolved) carries the ping token
      exactly when the company is on the watch-list, by case-insensitive
      containment, the entry ["x"] by case-insensitive prefix only;
    - a Reactivated listing carries it exactly when the term string
      contains ["winter 2026"] or the company is on the watch-list;
    - the loop stops at the first entry that matches;
    - a Deactivated listing is formatted without any ping string: its
      text has no ["@"] unless one of the interpolated fields has, while
      each ping token has one. *)
Theorem mention_policy (py_repr : json → string) (today : string) (r : role)
    (guild_id ping_role_id : Z) (guild_ping_roles : gmap Z Z)
    (company term_emoji term_str location_str : string) :
  r !! "company_name" = Some (JStr company) →
  get_term_emoji_and_string r = Ok (term_emoji, term_str) →
  location_string r = Ok location_str →
  configured_ping_role guild_id guild_ping_roles = Some ping_role_id →
  let title := py_str py_repr (default (JStr "N/A Title") (r !! "title")) in
  let url := py_str py_repr (default (JStr "#") (r !! "url")) in
  let sponsorship :=
    py_str py_repr (default (JStr "Not specified") (r !! "sponsorship")) in
  let token kind :=
    if shouldMention kind company term_str then ping_token ping_role_id else EmptyString in
  (term_str ≠ "Unknown" →
   format_message py_repr today r guild_id guild_ping_roles
   = Ok (new_internship_text company (token New) title url location_str
           term_emoji term_str sponsorship today))
  ∧ format_reactivation_message py_repr today r guild_id guild_ping_roles
    = Ok (active_again_text (token Reactivated) company title url term_emoji
            term_str today)
  ∧ (∀ entry rest,
       watch_list_entry_matches entry company = true →
       String.eqb (lower entry) "x" = String.eqb entry "x" →
       matches_watchlist (entry :: rest) (lower company) = true)
  ∧ format_deactivation_message py_repr today r
    = Ok (no_longer_active_text company title url term_emoji term_str today)
  ∧ (occurs "@" company = false → occurs "@" title = false →
     occurs "@" url = false → occurs "@" term_str = false →
     occurs "@" today = false →
     occurs "@" (no_longer_active_text company title url term_emoji term_str
                   today) = false)
  ∧ occurs "@" (ping_token ping_role_id) = true.
Proof.
  intros Hc Hterm Hloc Hping title url sponsorship token.
  split; [|split; [|split; [|split; [|split]]]].
  - intros Hknown. unfold format_message. rewrite Hloc, Hterm, Hc.
    cbn -[new_ping_str String.eqb].
    destruct (String.eqb term_str "Unknown") eqn:He;
      [by apply String.eqb_eq in He|].
    cbn -[new_ping_str].
    by rewrite (new_ping_str_spec _ _ _ _ Hping).
  - unfold format_reactivation_message. rewrite Hterm, Hc.
    cbn -[reactivation_ping_str].
    by rewrite (reactivation_ping_str_spec _ _ _ _ _ Hping).
  - intros entry rest Hm Hx. apply matches_watchlist_first.
    unfold watch_list_entry_matches in Hm. rewrite Hx.
    destruct (String.eqb entry "x") eqn:He; [|done].
    apply String.eqb_eq in He. by subst entry.
  - unfold format_deactivation_message. by rewrite Hterm, Hc.
  - intros H1 H2 H3 H4 H5. unfold no_longer_active_text.
    rewrite !occurs_append, H1, H2, H3, H4, H5,
      (term_emoji_no_at _ _ _ Hterm).
    reflexivity.
  - reflexivity.
Qed.

Lemma mention_policy_witness :
  let r : role :=
    {["id" := JNum 3; "company_name" := JStr "Google DeepMind";
      "title" := JStr "Research Intern"; "url" := JStr "https://example.org/3";
      "season" := JStr "Winter 2026"]} in
  format_message (λ _, EmptyString) "Nov 04" r 1 {[1%Z := 99%Z]}
  = Ok (new_internship_text "Google DeepMind" (ping_token 99) "Research Intern"
          "https://example.org/3" "Not specified" EMOJI_WINTER "Winter 2026"
          "Not specified" "Nov 04").
Proof.
  intros r.
  refine (proj1 (mention_policy (λ _, EmptyString) "Nov 04" r 1 99 {[1%Z := 99%Z]}
                   "Google DeepMind" EMOJI_WINTER "Winter 2026" "Not specified"
                   _ _ _ _) _);
    [vm_compute; reflexivity .. | discriminate].
Defined.

(** A New listing whose term is unresolved gets one of the two reduced
    templates, which have no ping string: its text does not depend on the
    ping roles. *)
Lemma format_message_unknown_term (py_repr : json → string) (today : string)
    (r : role) (guild_id : Z) (guild_ping_roles : gmap Z Z) term_emoji :
  get_term_emoji_and_string r = Ok (term_emoji, "Unknown") →
  format_message py_repr today r guild_id guild_ping_roles
  = format_message py_repr today r guild_id ∅.
Proof.
  intros Hterm. unfold format_message. rewrite Hterm.
  destruct (location_string r); cbn -[new_ping_str]; [|done]. by case_match.
Qed.

(** Without a configured ping role neither formatter mentions. *)
Lemma no_ping_role_no_ping (company_name_str : json) term_str guild_id
    (guild_ping_roles : gmap Z Z) :
  configured_ping_role guild_id guild_ping_roles = None →
  new_ping_str company_name_str guild_id guild_ping_roles = Ok EmptyString
  ∧ reactivation_ping_str company_name_str term_str guild_id guild_ping_roles
    = Ok EmptyString.
Proof.
  intros H. unfold new_ping_str, reactivation_ping_str. by rewrite H.
Qed.

(** ** The circuit breaker *)

Lemma shouldSkip_true key t : shouldSkip key t = true ↔ key ∈ failed_channels t.
Proof. unfold shouldSkip. apply bool_decide_eq_true. Qed.

Lemma failure_count_finally key key' t :
  failure_count key (finally_clause key' t) = failure_count key t.
Proof. unfold finally_clause. by case_match. Qed.

Lemma failed_finally key key' t :
  key ∈ failed_channels (finally_clause key' t)
  ↔ key ∈ failed_channels t ∨ (key = key' ∧ MAX_RETRIES ≤ failure_count key' t).
Proof.
  unfold finally_clause.
  destruct (MAX_RETRIES <=? failure_count key' t) eqn:Hle; cbn.
  - apply Nat.leb_le in Hle. set_solver.
  - apply Nat.leb_gt in Hle. split; [tauto|]. intros [?|[_ ?]]; [done|lia].
Qed.

(** A send to another channel leaves the skip status and the counter of
    [key] as they were. *)
Lemma send_attempt_other resp key key' t :
  key ≠ key' →
  (key ∈ failed_channels (send_attempt resp key' t) ↔ key ∈ failed_channels t)
  ∧ failure_count key (send_attempt resp key' t) = failure_count key t.
Proof.
  intros Hne. unfold send_attempt. rewrite failed_finally, failure_count_finally.
  split.
  - destruct resp; cbn; set_solver.
  - unfold failure_count. destruct resp; cbn;
      by rewrite ?lookup_insert_ne, ?lookup_delete_ne by done.
Qed.

Lemma failure_count_insert key n failed counts :
  failure_count key (Tracker failed (<[key := n]> counts)) = n.
Proof. unfold failure_count. cbn. by rewrite lookup_insert_eq. Qed.

Lemma send_attempt_retryable resp key t :
  outcome_of resp = RetryableFailure →
  failure_count key (send_attempt resp key t) = S (failure_count key t)
  ∧ (key ∈ failed_channels (send_attempt resp key t)
     ↔ key ∈ failed_channels t ∨ MAX_RETRIES ≤ S (failure_count key t)).
Proof.
  intros Hr. unfold send_attempt. rewrite failed_finally, failure_count_finally.
  destruct resp; try discriminate Hr;
    rewrite failure_count_insert, Nat.add_1_r; cbn [failed_channels];
    (split; [done|tauto]).
Qed.

Lemma send_attempt_permanent resp key t :
  outcome_of resp = PermanentFailure →
  key ∈ failed_channels (send_attempt resp key t).
Proof.
  intros Hr. unfold send_attempt. rewrite failed_finally.
  destruct resp; try discriminate Hr; cbn; set_solver.
Qed.

Lemma send_attempt_success key t :
  failure_count key (send_attempt Sent key t) = 0
  ∧ key ∉ failed_channels (send_attempt Sent key t).
Proof.
  unfold send_attempt.
  assert (failure_count key
            (Tracker (failed_channels t ∖ {[key]})
                     (delete key (channel_failure_counts t))) = 0) as H0.
  { unfold failure_count. cbn. by rewrite lookup_delete_eq. }
  rewrite failed_finally, failure_count_finally, H0. split; [done|].
  unfold MAX_RETRIES. cbn. set_solver by lia.
Qed.

(** Once skipped, a channel stays skipped under every recorded response
    but [Sent]. *)
Lemma send_attempt_keeps_skip resp key key' t :
  key ∈ failed_channels t → (key' = key → resp ≠ Sent) →
  key ∈ failed_channels (send_attempt resp key' t).
Proof.
  intros Hin Hresp. unfold send_attempt. rewrite failed_finally. left.
  destruct resp; cbn; set_solver.
Qed.

Lemma record_all_keeps_skip key history : ∀ t,
  key ∈ failed_channels t →
  Forall (λ e, e.1 = key → outcome_of e.2 ≠ Success) history →
  key ∈ failed_channels (record_all history t).
Proof.
  induction history as [|[key' resp] rest IH]; intros t Hin Hall; [done|].
  apply Forall_cons in Hall as [Hhd Hrest]. cbn in *.
  apply IH; [|done]. apply send_attempt_keeps_skip; [done|].
  intros -> ->. by apply Hhd.
Qed.

(** What [key] sees of a history is what it sees of its own events. *)
Lemma record_all_filter key history : ∀ t t',
  (key ∈ failed_channels t ↔ key ∈ failed_channels t') →
  failure_count key t = failure_count key t' →
  (key ∈ failed_channels (record_all history t)
   ↔ key ∈ failed_channels (record_all (filter (λ e, e.1 = key) history) t'))
  ∧ failure_count key (record_all history t)
    = failure_count key (record_all (filter (λ e, e.1 = key) history) t').
Proof.
  induction history as [|[key' resp] rest IH]; intros t t' Hf Hc; [done|].
  cbn [record_all foldl]. rewrite filter_cons. cbn [fst snd].
  destruct (decide (key' = key)) as [->|Hne].
  - cbn [record_all foldl fst snd]. apply IH.
    + unfold send_attempt. rewrite !failed_finally.
      assert (∀ t0, failure_count key
        match resp with
        | Sent => Tracker (failed_channels t0 ∖ {[key]})
                    (delete key (channel_failure_counts t0))
        | NotTextChannel => Tracker ({[key]} ∪ failed_channels t0)
            (<[key := failure_count key t0 + MAX_RETRIES]> (channel_failure_counts t0))
        | Forbidden => Tracker ({[key]} ∪ failed_channels t0) (channel_failure_counts t0)
        | _ => Tracker (failed_channels t0)
            (<[key := failure_count key t0 + 1]> (channel_failure_counts t0))
        end
        = match resp with
          | Sent => 0
          | NotTextChannel => failure_count key t0 + MAX_RETRIES
          | Forbidden => failure_count key t0
          | _ => failure_count key t0 + 1
          end) as Hcount.
      { intros t0. destruct resp; unfold failure_count; cbn;
          by rewrite ?lookup_insert_eq, ?lookup_delete_eq. }
      rewrite !Hcount, Hc. destruct resp; cbn; set_solver.
    + unfold send_attempt. rewrite !failure_count_finally.
      destruct resp; unfold failure_count in *; cbn;
        rewrite ?lookup_insert_eq, ?lookup_delete_eq; cbn; congruence.
  - destruct (send_attempt_other resp key key' t (not_eq_sym Hne)) as [Hf' Hc'].
    apply IH; [by rewrite Hf'|by rewrite Hc'].
Qed.

(** C3: the circuit breaker.  Three retryable failures recorded for a
    channel key in a row, whatever is recorded for other keys in between,
    put the key in the skip set; a skipped key stays skipped as long as no
    success is recorded for it; a success clears the counter and takes the
    key out of the skip set; one permanent failure (no permission, or not a
    text channel) puts the key in the skip set whatever the counter was;
    and a send for a skipped key returns without doing anything. *)
Theorem circuit_breaker (key : string) (t : tracker) :
  (∀ history r1 r2 r3,
     filter (λ e, e.1 = key) history = [(key, r1); (key, r2); (key, r3)] →
     outcome_of r1 = RetryableFailure → outcome_of r2 = RetryableFailure →
     outcome_of r3 = RetryableFailure →
     shouldSkip key (record_all history t) = true)
  ∧ (∀ history,
       shouldSkip key t = true →
       Forall (λ e, e.1 = key → outcome_of e.2 ≠ Success) history →
       shouldSkip key (record_all history t) = true)
  ∧ (failure_count key (send_attempt Sent key t) = 0
     ∧ shouldSkip key (send_attempt Sent key t) = false)
  ∧ (∀ resp, outcome_of resp = PermanentFailure →
       shouldSkip key (send_attempt resp key t) = true)
  ∧ (∀ resp guild_id channel_id,
       shouldSkip (channel_key guild_id channel_id) t = true →
       send_discord_message resp guild_id channel_id t = t).
Proof.
  split; [|split; [|split; [|split]]].
  - intros history r1 r2 r3 Hfilter H1 H2 H3. apply shouldSkip_true.
    destruct (record_all_filter key history t t) as [-> _]; [done..|].
    rewrite Hfilter. cbn [record_all foldl fst snd].
    destruct (send_attempt_retryable r1 key t H1) as [Hc1 _].
    destruct (send_attempt_retryable r2 key (send_attempt r1 key t) H2)
      as [Hc2 _].
    apply (send_attempt_retryable r3 key
             (send_attempt r2 key (send_attempt r1 key t)) H3).
    right. rewrite Hc2, Hc1. unfold MAX_RETRIES. lia.
  - intros history Hskip Hall. apply shouldSkip_true.
    apply record_all_keeps_skip; [by apply shouldSkip_true|done].
  - destruct (send_attempt_success key t) as [H0 Hout]. split; [done|].
    apply bool_decide_eq_false. done.
  - intros resp Hr. apply shouldSkip_true. by apply send_attempt_permanent.
  - intros resp guild_id channel_id Hskip. apply shouldSkip_true in Hskip.
    unfold send_discord_message. by rewrite decide_True.
Qed.

Lemma circuit_breaker_witness :
  shouldSkip "1:2"
    (record_all [("1:2", NotFound); ("3:4", Sent); ("1:2", OtherError);
                 ("3:4", Forbidden); ("1:2", NotFound)] fresh_tracker) = true.
Proof.
  apply (proj1 (circuit_breaker "1:2" fresh_tracker) _ NotFound OtherError NotFound);
    reflexivity.
Defined.

(** Scenario D of the specification: channel X fails with a retryable
    error in three cycles while channel Y succeeds; from then on a send to
    X returns without an attempt and Y is unaffected. *)
Example scenario_failing_channel :
  let t := send_discord_message NotFound 1 11
             (send_discord_message Sent 2 22
                (send_discord_message OtherError 1 11
                   (send_discord_message Sent 2 22
                      (send_discord_message NotFound 1 11
                         (send_discord_message Sent 2 22 fresh_tracker))))) in
  shouldSkip (channel_key 1 11) t = true
  ∧ shouldSkip (channel_key 2 22) t = false
  ∧ send_discord_message Sent 1 11 t = t.
Proof. vm_compute. done. Qed.

(** ** The overlap guard *)

Lemma guard_invariant s :
  Guard.reachable s →
  Guard.cycles s = if Guard.task_running s then 1 else 0.
Proof.
  unfold Guard.reachable. revert s.
  apply (rtc_ind_r (λ s, Guard.cycles s = if Guard.task_running s then 1 else 0));
    [done|].
  intros s s' _ Hstep IH.
  destruct Hstep as [s|s Hcreated|e s Hcycles];
    destruct s as [flag created cycles]; cbn in *.
  - unfold Guard.try_start_scheduled_task. by destruct flag.
  - unfold Guard.begin. destruct flag; cbn; lia.
  - unfold Guard.finish. destruct flag, e; cbn; lia.
Qed.

(** C4: the overlap guard.  In every reachable state at most one cycle is
    inside its [try], and one is exactly when the flag is set; a tick
    that finds the flag set changes nothing (no task is created for it);
    the flag is clear when a cycle leaves its [try], however it ends, and
    the next tick then creates a task that begins a cycle; the cycle of the
    full model leaves the flag clear whatever its body returned or raised,
    and returns at once when it finds the flag set. *)
Theorem cycle_guard :
  (∀ s, Guard.reachable s →
     Guard.cycles s ≤ 1
     ∧ (Guard.task_running s = true ↔ Guard.cycles s = 1))
  ∧ (∀ s, Guard.task_running s = true →
       Guard.try_start_scheduled_task s = s)
  ∧ (∀ e s, Guard.task_running (Guard.finish e s) = false)
  ∧ (∀ e s, Guard.reachable s → 0 < Guard.cycles s →
       let s' := Guard.begin
                   (Guard.try_start_scheduled_task (Guard.finish e s)) in
       Guard.task_running s' = true ∧ Guard.cycles s' = 1)
  ∧ (∀ E w, is_task_running w = false →
       is_task_running (combined_scheduled_task E w) = false)
  ∧ (∀ E w, is_task_running w = true → combined_scheduled_task E w = w).
Proof.
  split; [|split; [|split; [|split; [|split]]]].
  - intros s Hs. rewrite (guard_invariant s Hs).
    destruct (Guard.task_running s); split; (lia || done).
  - intros s Hs. unfold Guard.try_start_scheduled_task. by rewrite Hs.
  - by intros [] s.
  - intros e s Hs Hpos. pose proof (guard_invariant s Hs) as Hinv.
    destruct (Guard.task_running s) eqn:Hflag; [|lia].
    unfold Guard.begin, Guard.try_start_scheduled_task, Guard.finish.
    destruct e; cbn; rewrite Hinv; done.
  - intros E w Hw. unfold combined_scheduled_task. rewrite Hw.
    by destruct (cycle_body E (set_running true w)) as [[|] w'].
  - intros E w Hw. unfold combined_scheduled_task. by rewrite Hw.
Qed.

Lemma cycle_guard_witness :
  let s := Guard.begin (Guard.try_start_scheduled_task Guard.initial) in
  Guard.cycles s ≤ 1 ∧ (Guard.task_running s = true ↔ Guard.cycles s = 1).
Proof.
  intros s. apply (proj1 cycle_guard s).
  eapply rtc_l; [apply Guard.step_tick|].
  eapply rtc_l; [apply Guard.step_begin; cbn; lia|].
  apply rtc_refl.
Defined.

(** A second tick between the creation of a cycle task and its first
    statement creates a second task; the one that begins second finds the
    flag set and returns, so still one cycle runs. *)
Example two_created_one_cycle :
  let s := Guard.begin (Guard.begin
             (Guard.try_start_scheduled_task
                (Guard.try_start_scheduled_task Guard.initial))) in
  Guard.created s = 0 ∧ Guard.cycles s = 1.
Proof. done. Qed.

(** ** Tasks run by the loop *)

Lemma task_progress_refl w : task_progress w w.
Proof. split; try done. exists []. by rewrite app_nil_r. Qed.

Lemma task_progress_trans w1 w2 w3 :
  task_progress w1 w2 → task_progress w2 w3 → task_progress w1 w3.
Proof.
  intros [Hf1 Hr1 Hq1 (evs1 & Ht1 & Ha1)] [Hf2 Hr2 Hq2 (evs2 & Ht2 & Ha2)].
  split; try congruence.
  exists (evs1 ++ evs2). split.
  - by rewrite Ht2, Ht1, app_assoc.
  - by apply Forall_app.
Qed.

Lemma task_progress_log e w :
  is_dispatch_or_write e = false → e ≠ Suspended → task_progress w (log e w).
Proof. intros He Hs. split; try done. exists [e]. split; [done|]. by constructor. Qed.

Lemma task_progress_set_health t w : task_progress w (set_health t w).
Proof. split; try done. exists []. by rewrite app_nil_r. Qed.

Lemma task_progress_set_suspended pool w w' :
  task_progress w w' → task_progress w (set_suspended pool w').
Proof. intros [Hf Hr Hq Ht]. by split. Qed.

Lemma returned_progress gather guild_id channel_id w :
  task_progress w (returned gather guild_id channel_id w).
Proof.
  destruct gather as [[issued place]|]; [|apply task_progress_refl].
  by apply task_progress_log.
Qed.

Lemma send_gate_progress gather message_content guild_id channel_id w :
  task_progress w (send_gate gather message_content guild_id channel_id w).1.
Proof.
  unfold send_gate. case_decide; cbn [fst]; [|apply task_progress_refl].
  eapply task_progress_trans; [|apply returned_progress].
  by apply task_progress_log.
Qed.

Lemma step_coroutine_progress E c w :
  task_progress w (step_coroutine E c w).1.
Proof.
  destruct c as [gather m g ch [| |]|m|issued m]; cbn [step_coroutine].
  - apply send_gate_progress.
  - destruct (discord E (now w) g ch); cbn [fst];
      try (eapply task_progress_trans; [|apply returned_progress]);
      (eapply task_progress_trans; [|apply task_progress_set_health]);
      by apply task_progress_log.
  - cbn [fst]. eapply task_progress_trans; [|apply returned_progress].
    apply task_progress_set_health.
  - destruct (filter _ _); cbn [fst].
    + eapply task_progress_trans; [|by apply task_progress_log].
      by apply task_progress_log.
    + by apply task_progress_log.
  - case_match; cbn [fst]; [apply task_progress_refl|].
    by apply task_progress_log.
Qed.

Lemma resume_progress E i w : task_progress w (resume E i w).
Proof.
  unfold resume. destruct (suspended w !! i) as [c|]; [|apply task_progress_refl].
  pose proof (step_coroutine_progress E c w) as Hstep.
  destruct (step_coroutine E c w) as [w' cs].
  by apply task_progress_set_suspended.
Qed.

Lemma foldl_task_progress {A} (f : world → A → world) (l : list A) :
  (∀ w x, task_progress w (f w x)) → ∀ w, task_progress w (foldl f w l).
Proof.
  intros Hf. induction l as [|x l IH]; intros w; cbn.
  - apply task_progress_refl.
  - eapply task_progress_trans; [apply Hf|apply IH].
Qed.

Lemma resume_all_progress E places w : task_progress w (resume_all E places w).
Proof.
  apply (foldl_task_progress (λ w i, resume E i w)). intros. apply resume_progress.
Qed.

Lemma start_task_progress E t w : task_progress w (start_task E t w).
Proof.
  destruct t as [m g c|m]; cbn [start_task].
  - pose proof (send_gate_progress None m g c w) as Hgate.
    destruct (send_gate None m g c w) as [w' cs].
    by apply task_progress_set_suspended.
  - apply task_progress_set_suspended, task_progress_refl.
Qed.

(** A suspension of the cycle adds the [Suspended] mark, takes the tasks it
    starts off the queue, and otherwise is the progress of the loop. *)
Lemma suspend_spec E w :
  files (suspend E w) = files w
  ∧ is_task_running (suspend E w) = is_task_running w
  ∧ ready (suspend E w) = drop (started E (now w)) (ready w)
  ∧ ∃ evs, trace (suspend E w) = trace w ++ Suspended :: evs
           ∧ Forall (λ e, is_dispatch_or_write e = false ∧ e ≠ Suspended) evs.
Proof.
  unfold suspend.
  set (w0 := set_ready (drop (started E (now w)) (ready (log Suspended w)))
                       (log Suspended w)).
  assert (task_progress w0
            (foldl (λ w1 kt, resume_all E (resumed E (now w) (S kt.1))
                               (start_task E kt.2 w1))
                   (resume_all E (resumed E (now w) 0) w0)
                   (imap pair (take (started E (now w)) (ready (log Suspended w))))))
    as [Hf Hr Hq (evs & Ht & Ha)].
  { eapply task_progress_trans; [apply resume_all_progress|].
    apply (foldl_task_progress
             (λ w1 kt, resume_all E (resumed E (now w) (S kt.1))
                         (start_task E kt.2 w1))).
    intros w1 kt. eapply task_progress_trans;
      [apply start_task_progress|apply resume_all_progress]. }
  cbn in *. repeat split; try done.
  exists evs. split; [|done]. by rewrite Ht, <- app_assoc.
Qed.

Lemma suspend_trace E w :
  ∃ evs, trace (suspend E w) = trace w ++ evs
         ∧ Forall (λ e, is_dispatch_or_write e = false) evs.
Proof.
  destruct (suspend_spec E w) as (_ & _ & _ & evs & Ht & Ha).
  exists (Suspended :: evs). split; [done|]. constructor; [done|].
  eapply Forall_impl; [done|]. by intros e [He _].
Qed.

(** ** Feeds that return nothing *)

Lemma check_repo_empty E url previous_data_file is_second_repo w :
  response_data (feed E (now w) url) = [] →
  check_repo E url previous_data_file is_second_repo w = (Ok (), suspend E w).
Proof.
  intros Hempty. unfold check_repo, fetch_json_from_url, mbind, M_bind.
  by rewrite Hempty.
Qed.

(** C6: a feed whose fetch gives the empty list, or fails, is skipped for
    the cycle.  Its step is the wait for the fetch and nothing more: no
    diff is run, every file is as it was, no task is created and no
    snapshot is written; all that happens meanwhile is that the loop may
    run tasks created earlier.  A cycle in which both feeds give nothing
    leaves every file as it was and creates no task. *)
Theorem empty_fetch_skips_feed (E : env) :
  (∀ url previous_data_file is_second_repo w,
     response_data (feed E (now w) url) = [] →
     let w' := (check_repo E url previous_data_file is_second_repo w).2 in
     check_repo E url previous_data_file is_second_repo w = (Ok (), suspend E w)
     ∧ files w' = files w
     ∧ ready w' = drop (started E (now w)) (ready w)
     ∧ ∃ evs, trace w' = trace w ++ evs
              ∧ Forall (λ e, is_dispatch_or_write e = false) evs)
  ∧ (∀ w,
       (∀ time url, response_data (feed E time url) = []) →
       let w' := combined_scheduled_task E w in
       files w' = files w
       ∧ ∃ evs, trace w' = trace w ++ evs
                ∧ Forall (λ e, is_dispatch_or_write e = false) evs).
Proof.
  split.
  - intros url previous_data_file is_second_repo w Hempty.
    rewrite (check_repo_empty _ _ _ _ _ Hempty). cbn -[suspend].
    destruct (suspend_spec E w) as (Hf & _ & Hq & _).
    pose proof (suspend_trace E w) as Ht. done.
  - intros w Hempty w'.
    destruct (is_task_running w) eqn:Hflag.
    { subst w'. unfold combined_scheduled_task. rewrite Hflag.
      split; [done|]. exists []. by rewrite app_nil_r. }
    assert (w' = set_running false (suspend E (suspend E (set_running true w))))
      as ->.
    { subst w'. unfold combined_scheduled_task, cycle_body, mbind, M_bind.
      rewrite Hflag.
      rewrite (check_repo_empty _ _ _ _ _ (Hempty _ _)).
      by rewrite (check_repo_empty _ _ _ _ _ (Hempty _ _)). }
    cbn -[suspend].
    destruct (suspend_spec E (set_running true w)) as (Hf1 & _).
    destruct (suspend_trace E (set_running true w)) as (evs1 & Ht1 & Ha1).
    destruct (suspend_spec E (suspend E (set_running true w))) as (Hf2 & _).
    destruct (suspend_trace E (suspend E (set_running true w)))
      as (evs2 & Ht2 & Ha2).
    split; [by rewrite Hf2, Hf1|].
    exists (evs1 ++ evs2). split.
    + by rewrite Ht2, Ht1, app_assoc.
    + by apply Forall_app.
Qed.

Lemma empty_fetch_skips_feed_witness :
  let E := sample_env (λ _ _, HttpError 503) (λ _ _, Written) eager in
  let w := idle_world {[PREVIOUS_DATA_FILE := Json [sample_role]]} in
  files (check_repo E JSON_URL_1 PREVIOUS_DATA_FILE false w).2 = files w.
Proof.
  intros E w.
  apply (proj1 (empty_fetch_skips_feed E) JSON_URL_1 PREVIOUS_DATA_FILE false w).
  reflexivity.
Defined.

(** ** Writing the snapshot *)

Lemma length_append (a b : string) :
  String.length (a +:+ b) = String.length a + String.length b.
Proof. induction a as [|c a IH]; simpl; [done|]. by f_equal. Qed.

Lemma backup_path_differs (file_path : string) :
  file_path +:+ ".backup" ≠ file_path.
Proof.
  intros H. apply (f_equal String.length) in H.
  rewrite length_append in H. cbn in H. lia.
Qed.

(** [save_json_data] of the fetch script is safe against a failing write:
    the file that existed is moved to the backup path first, a write that
    succeeds leaves the new document and the backup, and a write that
    fails leaves the old document where it was. *)
Lemma save_json_data_restores resp data file_path fs old :
  fs !! file_path = Some old →
  (resp = Written →
   save_json_data resp data file_path fs
   = (true, <[file_path := Json data]>
              (<[file_path +:+ ".backup" := old]> (delete file_path fs))))
  ∧ (resp ≠ Written →
     (save_json_data resp data file_path fs).1 = false
     ∧ (save_json_data resp data file_path fs).2 !! file_path = Some old).
Proof.
  intros Hold. pose proof (backup_path_differs file_path) as Hne.
  assert (rename file_path (file_path +:+ ".backup") fs
          = <[file_path +:+ ".backup" := old]> (delete file_path fs)) as Hmoved
    by (unfold rename; by rewrite Hold).
  unfold save_json_data. rewrite decide_True by (by rewrite Hold).
  rewrite Hmoved. split.
  - by intros ->.
  - intros Hresp. destruct resp; [done| |]; cbn [fst snd write_file].
    + rewrite decide_True by (rewrite lookup_insert_eq; eauto).
      unfold rename. rewrite lookup_insert_eq. split; [done|].
      by rewrite lookup_insert_eq.
    + rewrite decide_True
        by (rewrite lookup_insert_ne, lookup_insert_eq by done; eauto).
      unfold rename. rewrite lookup_insert_ne, lookup_insert_eq by done.
      split; [done|]. by rewrite lookup_insert_eq.
Qed.

(** The write at the end of [process_repo_updates] goes straight to the
    snapshot file: when it fails after the file was opened, the file is
    left undecodable, no backup has been made, and the next cycle starts
    the feed from the empty list. *)
Lemma write_previous_data_in_place E previous_data_file new_data w :
  disk E (now w) previous_data_file = DumpFails →
  let w' := (write_previous_data E previous_data_file new_data w).2 in
  files w' !! previous_data_file = Some Undecodable
  ∧ files w' !! (previous_data_file +:+ ".backup")
    = files w !! (previous_data_file +:+ ".backup")
  ∧ load_previous_data previous_data_file w' = [].
Proof.
  intros Hdisk. unfold write_previous_data, load_previous_data. cbn.
  rewrite Hdisk. cbn. rewrite lookup_insert_eq.
  by rewrite lookup_insert_ne by (apply not_eq_sym, backup_path_differs).
Qed.

(** C2, at the failing input: the stored snapshot holds one listing, the
    feed returns the same listing, and the write fails after the file was
    opened.  [save_json_data] keeps the old snapshot; [process_repo_updates]
    leaves an undecodable file and no backup, so that the feed has no
    baseline any more. *)
Theorem snapshot_write_not_crash_safe :
  let E := sample_env (λ _ _, Fetched [sample_role]) (λ _ _, DumpFails) eager in
  let fs : gmap string file_content :=
    {[PREVIOUS_DATA_FILE := Json [sample_role]]} in
  let w' := (process_repo_updates E [sample_role] [sample_role]
               PREVIOUS_DATA_FILE false (idle_world fs)).2 in
  (save_json_data DumpFails [sample_role] PREVIOUS_DATA_FILE fs).2
    !! PREVIOUS_DATA_FILE = Some (Json [sample_role])
  ∧ files w' !! PREVIOUS_DATA_FILE = Some Undecodable
  ∧ files w' !! (PREVIOUS_DATA_FILE +:+ ".backup") = None
  ∧ load_previous_data PREVIOUS_DATA_FILE w' = [].
Proof. vm_compute. done. Qed.

(** ** The join of the fan-out *)

Lemma joined_transfer (tr evs : list event) :
  joined tr →
  (∀ k message_content issued,
     evs !! k = Some (FanoutReturned message_content issued) →
     issued < length tr + k
     ∧ ∃ sends, (tr ++ evs) !! issued = Some (FanoutIssued message_content sends)
         ∧ ∀ place (gc : Z * Z), sends !! place = Some gc →
             ∃ i, issued < i < length tr + k
                  ∧ (tr ++ evs) !! i
                    = Some (ChildReturned issued place gc.1 gc.2)) →
  joined (tr ++ evs).
Proof.
  intros Hj Hnew k m issued Hk.
  destruct (decide (k < length tr)) as [Hlt|Hge].
  - rewrite lookup_app_l in Hk by done.
    destruct (Hj k m issued Hk) as (Hik & sends & Hissued & Hsends).
    split; [done|]. exists sends. split.
    + rewrite lookup_app_l by lia. done.
    + intros place gc Hgc. destruct (Hsends place gc Hgc) as (i & Hi & Hret).
      exists i. split; [done|]. rewrite lookup_app_l by lia. done.
  - rewrite lookup_app_r in Hk by lia.
    destruct (Hnew _ m issued Hk) as (Hik & sends & Hissued & Hsends).
    replace (length tr + (k - length tr)) with k in * by lia.
    split; [done|]. by exists sends.
Qed.

Lemma pool_ok_transfer (w w' : world) (evs : list event) :
  pool_ok w → trace w' = trace w ++ evs →
  (∀ issued m, FanoutGathering issued m ∈ suspended w' →
     FanoutGathering issued m ∈ suspended w
     ∨ ∃ sends, trace w' !! issued = Some (FanoutIssued m sends)
         ∧ ∀ place (gc : Z * Z), sends !! place = Some gc →
             ∃ m' state,
               SendCoroutine (Some (issued, place)) m' gc.1 gc.2 state
               ∈ suspended w') →
  (∀ issued place m g c state,
     SendCoroutine (Some (issued, place)) m g c state ∈ suspended w →
     (∃ m' state',
        SendCoroutine (Some (issued, place)) m' g c state' ∈ suspended w')
     ∨ ChildReturned issued place g c ∈ evs) →
  pool_ok w'.
Proof.
  intros Hok Ht Hfan Hchild issued m Hin.
  destruct (Hfan issued m Hin) as [Hold|(sends & Hissued & Hsends)].
  - destruct (Hok issued m Hold) as (sends & Hissued & Hsends).
    exists sends. split; [rewrite Ht; by apply lookup_app_l_Some|].
    intros place gc Hgc.
    destruct (Hsends place gc Hgc) as [(m' & st & Hc)|(i & Hi & Hret)].
    + destruct (Hchild _ _ _ _ _ _ Hc) as [?|Hev]; [by left|]. right.
      apply list_elem_of_lookup in Hev as [k Hk].
      exists (length (trace w) + k). split.
      * apply lookup_lt_Some in Hissued. lia.
      * rewrite Ht, lookup_app_r by lia.
        by replace (length (trace w) + k - length (trace w)) with k by lia.
    + right. exists i. split; [done|]. rewrite Ht. by apply lookup_app_l_Some.
  - exists sends. split; [done|]. intros place gc Hgc. left. by eapply Hsends.
Qed.

(** Steps that leave the pool alone and log no return of a fan-out keep
    the invariant. *)
Lemma join_invariant_same_pool (w w' : world) (evs : list event) :
  trace w' = trace w ++ evs → suspended w' = suspended w →
  Forall (λ e, ∀ m issued, e ≠ FanoutReturned m issued) evs →
  keeps join_invariant w w'.
Proof.
  intros Ht Hp Hevs [Hj Hok]. split.
  - rewrite Ht. apply joined_transfer; [done|].
    intros k m issued Hk. apply list_elem_of_lookup_2 in Hk.
    rewrite Forall_forall in Hevs. by destruct (Hevs _ Hk m issued).
  - apply (pool_ok_transfer w w' evs); [done..| |]; rewrite Hp; eauto.
Qed.

Lemma elem_of_replaced {A} (l cs : list A) (i : nat) (c x : A) :
  l !! i = Some c →
  (x ∈ l ↔ x = c ∨ x ∈ take i l ++ drop (S i) l)
  ∧ (x ∈ take i l ++ cs ++ drop (S i) l ↔ x ∈ cs ∨ x ∈ take i l ++ drop (S i) l).
Proof.
  intros Hc. split.
  - rewrite <- (take_drop_middle l i c Hc) at 1.
    rewrite !elem_of_app, elem_of_cons. tauto.
  - rewrite !elem_of_app. tauto.
Qed.

Lemma existsb_is_child_of issued place (pool : list coroutine) m g c state :
  SendCoroutine (Some (issued, place)) m g c state ∈ pool →
  existsb (is_child_of issued) pool = true.
Proof.
  intros Hin. apply existsb_exists.
  exists (SendCoroutine (Some (issued, place)) m g c state).
  split; [by apply list_elem_of_In|]. cbn. apply Nat.eqb_refl.
Qed.

Lemma returned_trace gather g c w :
  trace (returned gather g c w)
  = trace w ++ match gather with
               | Some (issued, place) => [ChildReturned issued place g c]
               | None => []
               end.
Proof. destruct gather as [[issued place]|]; cbn; [done|by rewrite app_nil_r]. Qed.

Lemma returned_suspended gather g c w :
  suspended (returned gather g c w) = suspended w.
Proof. by destruct gather as [[issued place]|]. Qed.

(** A send that is replaced in the pool by [cs], having logged [evs]: it
    is still there, in another state, or it has told its fan-out. *)
Lemma send_step_keeps (w w' : world) (i : nat) gather m g c state
    (cs : list coroutine) (evs : list event) :
  suspended w !! i = Some (SendCoroutine gather m g c state) →
  trace w' = trace w ++ evs →
  suspended w' = take i (suspended w) ++ cs ++ drop (S i) (suspended w) →
  Forall (λ e, ∀ m issued, e ≠ FanoutReturned m issued) evs →
  (∀ x, x ∈ cs → ∃ state', x = SendCoroutine gather m g c state') →
  (cs = [] → ∀ issued place, gather = Some (issued, place) →
             ChildReturned issued place g c ∈ evs) →
  keeps join_invariant w w'.
Proof.
  intros Hc Ht Hp Hevs Hcs Hret [Hj Hok]. split.
  - rewrite Ht. apply joined_transfer; [done|].
    intros k m0 issued Hk. apply list_elem_of_lookup_2 in Hk.
    rewrite Forall_forall in Hevs. by destruct (Hevs _ Hk m0 issued).
  - apply (pool_ok_transfer w w' evs); [done..| |].
    + intros issued m0 Hin. left. rewrite Hp in Hin.
      apply (elem_of_replaced _ cs i _ _ Hc) in Hin as [Hin|Hin].
      * by destruct (Hcs _ Hin).
      * apply (elem_of_replaced _ cs i _ _ Hc). by right.
    + intros issued place m0 g0 c0 st Hin.
      apply (elem_of_replaced _ cs i _ _ Hc) in Hin as [Heq|Hin].
      * injection Heq as Hgather Hm Hg Hch Hstate. subst gather m0 g0 c0 st.
        destruct cs as [|x cs'].
        -- right. by apply Hret.
        -- left. destruct (Hcs x) as [st' ->]; [by left|].
           exists m, st'. rewrite Hp.
           apply (elem_of_replaced _ (_ :: cs') i _ _ Hc). left. by left.
      * left. exists m0, st. rewrite Hp.
        apply (elem_of_replaced _ cs i _ _ Hc). by right.
Qed.

Lemma send_gate_spec gather m g c w :
  ∃ evs,
    trace (send_gate gather m g c w).1 = trace w ++ evs
    ∧ suspended (send_gate gather m g c w).1 = suspended w
    ∧ Forall (λ e, ∀ m issued, e ≠ FanoutReturned m issued) evs
    ∧ (∀ x, x ∈ (send_gate gather m g c w).2 →
         x = SendCoroutine gather m g c Awaiting)
    ∧ ((send_gate gather m g c w).2 = [] →
       ∀ issued place, gather = Some (issued, place) →
         ChildReturned issued place g c ∈ evs).
Proof.
  unfold send_gate. case_decide; cbn [fst snd].
  - exists (SendSkipped m g c :: match gather with
                                 | Some (issued, place) => [ChildReturned issued place g c]
                                 | None => []
                                 end).
    rewrite returned_trace, returned_suspended. cbn. rewrite <- app_assoc.
    split; [done|]. split; [done|]. split.
    + destruct gather as [[issued place]|]; repeat constructor; done.
    + split; [by intros x Hx%elem_of_nil|]. intros _ issued place ->.
      right. by left.
  - exists []. rewrite app_nil_r. split; [done|]. split; [done|].
    split; [done|]. split; [by intros x ->%list_elem_of_singleton|done].
Qed.

Ltac send_returns :=
  [> done
   | unfold set_suspended; cbn [trace]; rewrite ?returned_trace; cbn;
     by rewrite <- ?app_assoc
   | done
   | match goal with |- context [match ?gather with _ => _ end] =>
       destruct gather as [[? ?]|] end; by repeat constructor
   | by intros ? ?%elem_of_nil
   | intros _ ? ? ->; first [by left|right; by left] ].

Lemma resume_keeps_join E i w : keeps join_invariant w (resume E i w).
Proof.
  unfold resume. destruct (suspended w !! i) as [co|] eqn:Hc; [|by intros ?].
  destruct co as [gather m g c [| |]|m|issued m]; cbn [step_coroutine].
  - destruct (send_gate_spec gather m g c w) as (evs & Ht & Hp & Hevs & Hcs & Hret).
    destruct (send_gate gather m g c w) as [w' cs]. cbn [fst snd] in *.
    apply (send_step_keeps w _ i gather m g c Scheduled cs evs); try done.
    intros x Hx. exists Awaiting. by apply Hcs.
  - destruct (discord E (now w) g c) eqn:Hresp.
    + apply (send_step_keeps w _ i gather m g c Awaiting
               [SendCoroutine gather m g c Sleeping] [SendAttempted m g c Sent]);
        try done.
      * by repeat constructor.
      * intros x ->%list_elem_of_singleton. by exists Sleeping.
    + apply (send_step_keeps w _ i gather m g c Awaiting []
               (SendAttempted m g c NotTextChannel
                :: match gather with
                   | Some (issued, place) => [ChildReturned issued place g c]
                   | None => []
                   end)); send_returns.
    + apply (send_step_keeps w _ i gather m g c Awaiting []
               (SendAttempted m g c NotFound
                :: match gather with
                   | Some (issued, place) => [ChildReturned issued place g c]
                   | None => []
                   end)); send_returns.
    + apply (send_step_keeps w _ i gather m g c Awaiting []
               (SendAttempted m g c Forbidden
                :: match gather with
                   | Some (issued, place) => [ChildReturned issued place g c]
                   | None => []
                   end)); send_returns.
    + apply (send_step_keeps w _ i gather m g c Awaiting []
               (SendAttempted m g c OtherError
                :: match gather with
                   | Some (issued, place) => [ChildReturned issued place g c]
                   | None => []
                   end)); send_returns.
  - apply (send_step_keeps w _ i gather m g c Sleeping []
             (match gather with
              | Some (issued, place) => [ChildReturned issued place g c]
              | None => []
              end)); send_returns.
  - (* a fan-out has read the channels *)
    set (active := filter (λ gc : Z * Z,
                             channel_key gc.1 gc.2 ∉ failed_channels (health w))
                          (db_channels E (now w))).
    intros [Hj Hok]. destruct active as [|gc0 rest] eqn:Hactive.
    + split.
      * cbn [set_suspended trace log]. rewrite <- app_assoc. cbn [app].
        apply joined_transfer; [done|].
        intros [|[|k]] m0 issued Hk; [done| |done].
        cbn in Hk. injection Hk as <- <-. unfold now. split; [lia|].
        exists []. split; [by rewrite list_lookup_middle|].
        by intros place gc Hgc.
      * apply (pool_ok_transfer w _
                 [FanoutIssued m []; FanoutReturned m (now w)]); [done| | |].
        -- cbn. by rewrite <- app_assoc.
        -- intros issued m0 Hin. left. cbn in Hin.
           apply (elem_of_replaced _ [] i _ _ Hc) in Hin as [Hin%elem_of_nil|Hin];
             [done|].
           apply (elem_of_replaced _ [] i _ _ Hc). by right.
        -- intros issued place m0 g0 c0 st Hin. left. exists m0, st. cbn.
           apply (elem_of_replaced _ [] i _ _ Hc) in Hin as [Heq|Hin]; [done|].
           apply (elem_of_replaced _ [] i _ _ Hc). by right.
    + split.
      * cbn [set_suspended trace log]. apply joined_transfer; [done|].
        by intros [|k] m0 issued Hk.
      * apply (pool_ok_transfer w _ [FanoutIssued m (gc0 :: rest)]);
          [done|done| |].
        -- intros issued m0 Hin. cbn [set_suspended suspended] in Hin.
           apply (elem_of_replaced _ _ i _ _ Hc) in Hin as [Hin|Hin].
           ++ apply elem_of_cons in Hin as [Heq|Hin].
              ** injection Heq as -> ->. right. exists (gc0 :: rest).
                 split; [unfold now; cbn; by rewrite list_lookup_middle|].
                 intros place gc Hgc. exists m, Scheduled.
                 cbn [set_suspended suspended].
                 apply (elem_of_replaced _ _ i _ _ Hc). left. right.
                 by apply (elem_of_lookup_imap_2
                             (λ place (gc : Z * Z),
                                SendCoroutine (Some (now w, place)) m gc.1 gc.2
                                              Scheduled)).
              ** apply elem_of_lookup_imap_1 in Hin as (place & gc & Heq & _).
                 done.
           ++ left. apply (elem_of_replaced _ [] i _ _ Hc). by right.
        -- intros issued place m0 g0 c0 st Hin. left. exists m0, st.
           cbn [set_suspended suspended].
           apply (elem_of_replaced _ [] i _ _ Hc) in Hin as [Heq|Hin]; [done|].
           apply (elem_of_replaced _ _ i _ _ Hc). by right.
  - (* a fan-out in gather *)
    destruct (existsb (is_child_of issued) (suspended w)) eqn:Hchildren.
    + apply (join_invariant_same_pool w _ []); [by rewrite app_nil_r| |done].
      cbn. by apply take_drop_middle.
    + intros [Hj Hok].
      destruct (Hok issued m) as (sends & Hissued & Hsends);
        [by eapply list_elem_of_lookup_2|].
      assert (∀ place (gc : Z * Z), sends !! place = Some gc →
                ∃ k, issued < k
                     ∧ trace w !! k
                       = Some (ChildReturned issued place gc.1 gc.2))
        as Hall.
      { intros place gc Hgc.
        destruct (Hsends place gc Hgc) as [(m' & st & Hin)|?]; [|done].
        apply existsb_is_child_of in Hin. congruence. }
      split.
      * cbn [set_suspended trace log]. apply joined_transfer; [done|].
        intros [|k] m0 issued0 Hk; [|done]. cbn in Hk. injection Hk as <- <-.
        rewrite Nat.add_0_r. split; [by apply lookup_lt_Some in Hissued|].
        exists sends. split; [by apply lookup_app_l_Some|].
        intros place gc Hgc. destruct (Hall place gc Hgc) as (k & Hk & Hret).
        exists k. split; [split; [done|by apply lookup_lt_Some in Hret]|].
        by apply lookup_app_l_Some.
      * apply (pool_ok_transfer w _ [FanoutReturned m issued]); [done|done| |].
        -- intros issued0 m0 Hin. left. cbn in Hin.
           apply (elem_of_replaced _ [] i _ _ Hc) in Hin as [Hin%elem_of_nil|Hin];
             [done|].
           apply (elem_of_replaced _ [] i _ _ Hc). by right.
        -- intros issued0 place m0 g0 c0 st Hin. left. exists m0, st. cbn.
           apply (elem_of_replaced _ [] i _ _ Hc) in Hin as [Heq|Hin]; [done|].
           apply (elem_of_replaced _ [] i _ _ Hc). by right.
Qed.

(** ** Runs of the cycle *)

Section Runs.

Variable E : env.
Variable R : world → world → Prop.
Hypothesis R_refl : ∀ w, R w w.
Hypothesis R_trans : ∀ w1 w2 w3, R w1 w2 → R w2 w3 → R w1 w3.
Hypothesis R_suspend : ∀ w, R w (suspend E w).
Hypothesis R_create_task : ∀ t w, R w (create_task t w).
Hypothesis R_write : ∀ previous_data_file new_data w,
  R w (write_previous_data E previous_data_file new_data w).2.
Hypothesis R_set_running : ∀ b w, R w (set_running b w).

Lemma steps_within_ret {A} (a : A) : steps_within R (mret a : M A).
Proof. intros w. apply R_refl. Qed.

Lemma steps_within_lift {A} (r : result A) : steps_within R (lift r).
Proof. intros w. apply R_refl. Qed.

Lemma steps_within_bind {A B} (m : M A) (f : A → M B) :
  steps_within R m → (∀ a, steps_within R (f a)) → steps_within R (m ≫= f).
Proof.
  intros Hm Hf w. unfold mbind, M_bind. specialize (Hm w).
  destruct (m w) as [[a|e] w1]; cbn in *; [|done].
  eapply R_trans; [done|apply Hf].
Qed.

Lemma steps_within_for_each {A} (body : A → M unit) (l : list A) :
  (∀ x, steps_within R (body x)) → steps_within R (for_each body l).
Proof.
  intros Hbody. induction l as [|x l IH]; cbn [for_each].
  - apply steps_within_ret.
  - apply steps_within_bind; [done|]. by intros _.
Qed.

Lemma steps_within_create_send_tasks format guild_ping_roles r :
  steps_within R (create_send_tasks E format guild_ping_roles r).
Proof.
  unfold create_send_tasks.
  apply steps_within_bind; [intros w; apply R_suspend|].
  intros channel_configs. apply steps_within_for_each. intros gc.
  apply steps_within_bind; [intros w; apply R_refl|].
  intros w0. case_decide; [apply steps_within_ret|].
  apply steps_within_bind; [apply steps_within_lift|].
  intros message w. apply R_create_task.
Qed.

Lemma steps_within_create_fanout_task r :
  steps_within R (create_fanout_task E r).
Proof.
  unfold create_fanout_task.
  apply steps_within_bind; [apply steps_within_lift|].
  intros message w. apply R_create_task.
Qed.

Lemma steps_within_create_all_tasks is_second_repo guild_ping_roles t :
  steps_within R (create_all_tasks E is_second_repo guild_ping_roles t).
Proof.
  unfold create_all_tasks.
  apply steps_within_bind;
    [apply steps_within_for_each; intros; apply steps_within_create_send_tasks|].
  intros _. apply steps_within_bind;
    [apply steps_within_for_each; intros; apply steps_within_create_fanout_task|].
  intros _. destruct is_second_repo; [|apply steps_within_ret].
  apply steps_within_for_each. intros. apply steps_within_create_send_tasks.
Qed.

Lemma steps_within_dispatch_phase new_data old_data is_second_repo :
  steps_within R (dispatch_phase E new_data old_data is_second_repo).
Proof.
  unfold dispatch_phase.
  apply steps_within_bind; [apply steps_within_lift|]. intros d.
  apply steps_within_bind; [intros w; apply R_suspend|]. intros roles.
  apply steps_within_bind; [apply steps_within_lift|]. intros t.
  apply steps_within_create_all_tasks.
Qed.

Lemma steps_within_process_repo_updates new_data old_data previous_data_file
    is_second_repo :
  steps_within R (process_repo_updates E new_data old_data previous_data_file
                                       is_second_repo).
Proof.
  unfold process_repo_updates.
  apply steps_within_bind; [apply steps_within_lift|]. intros d.
  apply steps_within_bind; [intros w; apply R_suspend|]. intros roles.
  apply steps_within_bind; [apply steps_within_lift|]. intros t.
  apply steps_within_bind; [apply steps_within_create_all_tasks|]. intros _.
  intros w. apply R_write.
Qed.

Lemma steps_within_check_repo url previous_data_file is_second_repo :
  steps_within R (check_repo E url previous_data_file is_second_repo).
Proof.
  unfold check_repo.
  apply steps_within_bind; [intros w; apply R_suspend|].
  intros [|r new_data]; [apply steps_within_ret|].
  apply steps_within_bind; [intros w; apply R_refl|].
  intros w0. apply steps_within_process_repo_updates.
Qed.

Lemma combined_scheduled_task_within w : R w (combined_scheduled_task E w).
Proof.
  unfold combined_scheduled_task. destruct (is_task_running w); [apply R_refl|].
  assert (steps_within R (cycle_body E)) as Hbody.
  { unfold cycle_body. apply steps_within_bind; [apply steps_within_check_repo|].
    intros _. apply steps_within_check_repo. }
  specialize (Hbody (set_running true w)).
  destruct (cycle_body E (set_running true w)) as [[[]|e] w']; cbn [snd] in Hbody.
  - eapply R_trans; [apply R_set_running|].
    eapply R_trans; [apply Hbody|apply R_set_running].
  - eapply R_trans; [apply R_set_running|].
    eapply R_trans; [apply Hbody|].
    eapply R_trans; apply R_set_running.
Qed.

End Runs.

Lemma process_repo_updates_phases E new_data old_data previous_data_file
    is_second_repo w :
  process_repo_updates E new_data old_data previous_data_file is_second_repo w
  = (dispatch_phase E new_data old_data is_second_repo
     ≫= λ _, write_previous_data E previous_data_file new_data) w.
Proof.
  unfold process_repo_updates, dispatch_phase, mbind, M_bind, lift.
  destruct (old_roles_dict old_data) as [d|e]; [|done].
  destruct (await_ping_roles E w) as [[roles|e] w1]; [|done].
  by destruct (classify_loop d is_second_repo new_data no_transitions)
    as [t|e].
Qed.

Lemma bind_Ok {A B} (m : M A) (f : A → M B) w w' b :
  (m ≫= f) w = (Ok b, w') →
  ∃ a w1, m w = (Ok a, w1) ∧ f a w1 = (Ok b, w').
Proof.
  unfold mbind, M_bind. destruct (m w) as [[a|e] w1]; [|done].
  intros H. by exists a, w1.
Qed.

(** *** The trace only grows *)

Lemma logs_only_refl P w : logs_only P w w.
Proof. exists []. by rewrite app_nil_r. Qed.

Lemma logs_only_trans P w1 w2 w3 :
  logs_only P w1 w2 → logs_only P w2 w3 → logs_only P w1 w3.
Proof.
  intros (evs1 & Ht1 & Ha1) (evs2 & Ht2 & Ha2). exists (evs1 ++ evs2).
  split; [by rewrite Ht2, Ht1, app_assoc|by apply Forall_app].
Qed.

Lemma logs_only_suspend (P : event → Prop) E w :
  (∀ e, is_dispatch_or_write e = false → P e) →
  logs_only P w (suspend E w).
Proof.
  intros HP. destruct (suspend_trace E w) as (evs & Ht & Ha).
  exists evs. split; [done|]. eapply Forall_impl; [done|]. done.
Qed.

Lemma logs_only_create_task (P : event → Prop) t w :
  P (TaskCreated t) → logs_only P w (create_task t w).
Proof. intros HP. exists [TaskCreated t]. split; [done|]. by constructor. Qed.

Lemma logs_only_lookup P w w' i e :
  logs_only P w w' → trace w !! i = Some e → trace w' !! i = Some e.
Proof. intros (evs & -> & _) Hi. by apply lookup_app_l_Some. Qed.

Lemma logs_only_now P w w' : logs_only P w w' → now w ≤ now w'.
Proof. intros (evs & Ht & _). unfold now. rewrite Ht, length_app. lia. Qed.

(** *** The loop keeps the join *)

Lemma foldl_keeps {A} (I : world → Prop) (f : world → A → world) (l : list A) :
  (∀ w x, keeps I w (f w x)) → ∀ w, keeps I w (foldl f w l).
Proof.
  intros Hf. induction l as [|x l IH]; intros w HI; cbn; [done|].
  apply IH. by apply Hf.
Qed.

Lemma start_task_keeps_join E t w : keeps join_invariant w (start_task E t w).
Proof.
  destruct t as [m g c|m]; cbn [start_task].
  - destruct (send_gate_spec None m g c w) as (evs & Ht & Hp & Hevs & Hcs & _).
    destruct (send_gate None m g c w) as [w' cs]. cbn [fst snd] in *.
    intros [Hj Hok]. split.
    + cbn. rewrite Ht. apply joined_transfer; [done|].
      intros k m0 issued Hk. apply list_elem_of_lookup_2 in Hk.
      rewrite Forall_forall in Hevs. by destruct (Hevs _ Hk m0 issued).
    + apply (pool_ok_transfer w _ evs); [done|done| |]; cbn.
      * intros issued m0 [Hin|Hin]%elem_of_app; [by left|].
        by specialize (Hcs _ Hin).
      * intros issued place m0 g0 c0 st Hin. left. exists m0, st.
        apply elem_of_app. by left.
  - intros [Hj Hok]. split; [done|].
    apply (pool_ok_transfer w _ []); [done|by rewrite app_nil_r| |]; cbn.
    + intros issued m0 [Hin|Hin%list_elem_of_singleton]%elem_of_app;
        [by left|done].
    + intros issued place m0 g0 c0 st Hin. left. exists m0, st.
      apply elem_of_app. by left.
Qed.

Lemma suspend_keeps_join E w : keeps join_invariant w (suspend E w).
Proof.
  intros HI. unfold suspend.
  apply (foldl_keeps join_invariant
           (λ w1 kt, resume_all E (resumed E (now w) (S kt.1))
                       (start_task E kt.2 w1))).
  - intros w1 kt HI1.
    apply (foldl_keeps join_invariant (λ w i, resume E i w));
      [intros; by apply resume_keeps_join|].
    by apply start_task_keeps_join.
  - apply (foldl_keeps join_invariant (λ w i, resume E i w));
      [intros; by apply resume_keeps_join|].
    apply (join_invariant_same_pool w _ [Suspended]); [done|done| |done].
    by repeat constructor.
Qed.

Lemma reachable_join_invariant E w : reachable E w → join_invariant w.
Proof.
  induction 1 as [fs|w _ IH|w _ IH].
  - split; [by intros k m issued Hk|].
    by intros issued m Hin%elem_of_nil.
  - revert IH. apply (combined_scheduled_task_within E (keeps join_invariant)).
    + by intros w0 H0.
    + intros w1 w2 w3 H12 H23 H1. by apply H23, H12.
    + intros w0. apply suspend_keeps_join.
    + intros t w0. apply (join_invariant_same_pool w0 _ [TaskCreated t]);
        [done|done|by repeat constructor].
    + intros file data w0.
      apply (join_invariant_same_pool w0 _
               [SnapshotWrite file (disk E (now w0) file)]);
        [done|done|by repeat constructor].
    + intros b w0. apply (join_invariant_same_pool w0 _ []);
        [by rewrite app_nil_r|done|done].
  - by apply suspend_keeps_join.
Qed.

(** ** Dispatch and the snapshot write *)

Lemma for_each_app {A} (body : A → M unit) (l1 l2 : list A) w :
  for_each body (l1 ++ l2) w = (for_each body l1 ≫= λ _, for_each body l2) w.
Proof.
  revert w. induction l1 as [|x l1 IH]; intros w; cbn [for_each app].
  - done.
  - unfold mbind, M_bind in *. destruct (body x w) as [[[]|e] w1]; [|done].
    apply IH.
Qed.

(** The skip tests and task creations of one round, after the channels
    have been read: the tracker is not touched, and every channel that
    passes the test gets its task. *)
Lemma send_round_inner (E : env)
    (format : role → Z → gmap Z Z → result string)
    (guild_ping_roles : gmap Z Z) (r : role) (chans : list (Z * Z)) :
  ∀ w1 w2,
    for_each (λ gc : Z * Z,
      w ← get_world;
      if decide (channel_key gc.1 gc.2 ∈ failed_channels (health w)) then mret ()
      else
        message ← lift (format r gc.1 guild_ping_roles);
        update (create_task (SendTask message gc.1 gc.2))) chans w1
    = (Ok (), w2) →
    health w2 = health w1
    ∧ logs_only (λ _, True) w1 w2
    ∧ ∀ gc, gc ∈ chans →
        channel_key gc.1 gc.2 ∉ failed_channels (health w1) →
        ∃ message i,
          format r gc.1 guild_ping_roles = Ok message
          ∧ now w1 ≤ i
          ∧ trace w2 !! i = Some (TaskCreated (SendTask message gc.1 gc.2)).
Proof.
  induction chans as [|gc chans IH]; intros w1 w2 Hrun.
  - injection Hrun as <-. split; [done|]. split; [apply logs_only_refl|].
    by intros gc Hgc%elem_of_nil.
  - cbn [for_each] in Hrun. apply bind_Ok in Hrun as ([] & wa & Hbody & Hrest).
    assert (health wa = health w1
            ∧ logs_only (λ _, True) w1 wa
            ∧ (channel_key gc.1 gc.2 ∉ failed_channels (health w1) →
               ∃ message,
                 format r gc.1 guild_ping_roles = Ok message
                 ∧ trace wa !! now w1
                   = Some (TaskCreated (SendTask message gc.1 gc.2))))
      as (Hh & Hlog & Hgc).
    { unfold mbind, M_bind, get_world, lift, update in Hbody.
      case_decide as Hskip.
      - injection Hbody as <-. split; [done|]. split; [apply logs_only_refl|done].
      - destruct (format r gc.1 guild_ping_roles) as [message|e]; [|done].
        injection Hbody as <-. split; [done|].
        split; [by apply logs_only_create_task|].
        intros _. exists message. split; [done|].
        unfold now. cbn. by rewrite list_lookup_middle. }
    destruct (IH wa w2 Hrest) as (Hh2 & Hlog2 & Hall).
    split; [congruence|]. split; [by eapply logs_only_trans|].
    intros gc' [->|Hin]%elem_of_cons Hkey.
    + destruct (Hgc Hkey) as (message & Hfmt & Hi).
      exists message, (now w1). split; [done|]. split; [done|].
      by eapply logs_only_lookup.
    + rewrite <- Hh in Hkey. destruct (Hall gc' Hin Hkey) as (message & i & ? & ? & ?).
      exists message, i. split; [done|]. split; [|done].
      apply (logs_only_now _ _ _) in Hlog. lia.
Qed.

Lemma round_dispatches_later E format guild_ping_roles r w0 (tr tr' : list event) :
  round_dispatches E format guild_ping_roles r w0 tr →
  tr `prefix_of` tr' →
  round_dispatches E format guild_ping_roles r w0 tr'.
Proof.
  intros Hround [evs ->] gc Hgc Hkey.
  destruct (Hround gc Hgc Hkey) as (message & i & Hfmt & Hi & Hlook).
  exists message, i. split; [done|]. split; [done|]. by apply lookup_app_l_Some.
Qed.

Lemma send_round E format guild_ping_roles r w0 w' :
  create_send_tasks E format guild_ping_roles r w0 = (Ok (), w') →
  round_dispatches E format guild_ping_roles r w0 (trace w').
Proof.
  intros Hrun. unfold create_send_tasks in Hrun.
  apply bind_Ok in Hrun as (chans & w1 & Hread & Hrun).
  injection Hread as <- <-.
  destruct (send_round_inner E format guild_ping_roles r _ _ _ Hrun)
    as (_ & _ & Hall).
  intros gc Hgc Hkey. by apply Hall.
Qed.

Lemma logs_only_prefix P w w' : logs_only P w w' → trace w `prefix_of` trace w'.
Proof. intros (evs & Ht & _). by exists evs. Qed.

Lemma send_rounds E format guild_ping_roles (roles : list role) w w' :
  for_each (create_send_tasks E format guild_ping_roles) roles w = (Ok (), w') →
  ∀ earlier r later, roles = earlier ++ r :: later →
    round_dispatches E format guild_ping_roles r
      (after_rounds E format guild_ping_roles earlier w) (trace w').
Proof.
  intros Hrun earlier r later ->. rewrite for_each_app in Hrun.
  apply bind_Ok in Hrun as ([] & wa & Hearlier & Hrun).
  cbn [for_each] in Hrun. apply bind_Ok in Hrun as ([] & wb & Hround & Hlater).
  unfold after_rounds. rewrite Hearlier. cbn [snd].
  eapply round_dispatches_later; [by apply send_round|].
  apply (logs_only_prefix (λ _, True)).
  pose proof (steps_within_for_each (logs_only (λ _, True))
                (logs_only_refl _) (logs_only_trans _)
                (create_send_tasks E format guild_ping_roles) later) as Hsteps.
  specialize (Hsteps
    (λ x, steps_within_create_send_tasks E (logs_only (λ _, True))
            (logs_only_refl _) (logs_only_trans _)
            (λ w, logs_only_suspend _ E w (λ _ _, I))
            (λ t w, logs_only_create_task _ t w I) format guild_ping_roles x) wb).
  by rewrite Hlater in Hsteps.
Qed.

Lemma fanout_created E (roles : list role) w w' :
  for_each (create_fanout_task E) roles w = (Ok (), w') →
  ∀ r, r ∈ roles →
    ∃ message i, format_deactivation_message (repr E) (today E) r = Ok message
      ∧ now w ≤ i
      ∧ trace w' !! i = Some (TaskCreated (FanoutTask message)).
Proof.
  revert w. induction roles as [|r0 roles IH]; intros w Hrun r Hr;
    [by apply elem_of_nil in Hr|].
  cbn [for_each] in Hrun. apply bind_Ok in Hrun as ([] & wa & Hbody & Hrest).
  unfold create_fanout_task, mbind, M_bind, lift, update in Hbody.
  destruct (format_deactivation_message (repr E) (today E) r0) as [message|e]
    eqn:Hfmt; [|done].
  injection Hbody as <-.
  pose proof (steps_within_for_each (logs_only (λ _, True))
                (logs_only_refl _) (logs_only_trans _)
                (create_fanout_task E) roles
                (λ x, steps_within_create_fanout_task E (logs_only (λ _, True))
                        (logs_only_refl _) (logs_only_trans _)
                        (λ t w, logs_only_create_task _ t w I) x)
                (create_task (FanoutTask message) w)) as Hsteps.
  rewrite Hrest in Hsteps. cbn [snd] in Hsteps.
  apply elem_of_cons in Hr as [->|Hr].
  - exists message, (now w). split; [done|]. split; [done|].
    eapply logs_only_lookup; [done|]. unfold now. cbn.
    by rewrite list_lookup_middle.
  - destruct (IH _ Hrest r Hr) as (message' & i & ? & Hi & ?).
    exists message', i. split; [done|]. split; [|done].
    unfold now in *. cbn in Hi. rewrite length_app in Hi. lia.
Qed.

(** *** Tasks created after the last suspension are still queued *)

Lemma since_last_suspension_snoc (evs : list event) (e : event) :
  since_last_suspension (evs ++ [e])
  = match e with
    | Suspended => []
    | _ => since_last_suspension evs ++ [e]
    end.
Proof. unfold since_last_suspension. by rewrite foldl_snoc. Qed.

Lemma since_last_suspension_quiet (evs tail : list event) :
  Forall (λ e, is_dispatch_or_write e = false ∧ e ≠ Suspended) tail →
  Forall (λ e, is_dispatch_or_write e = false)
         (since_last_suspension (evs ++ Suspended :: tail)).
Proof.
  induction tail as [|e tail IH] using rev_ind; intros Htail.
  - by rewrite since_last_suspension_snoc.
  - apply Forall_app in Htail as [Htail [[He Hs] _]%Forall_cons].
    change (evs ++ Suspended :: tail ++ [e])
      with (evs ++ (Suspended :: tail) ++ [e]).
    rewrite app_assoc, since_last_suspension_snoc.
    destruct e; try done; apply Forall_app; split; try (by apply IH);
      by repeat constructor.
Qed.

Lemma still_queued_refl w : still_queued w w.
Proof. exists []. rewrite app_nil_r. split; [done|]. by intros t Hin%elem_of_nil. Qed.

Lemma suspend_keeps_still_queued E w0 w :
  keeps (still_queued w0) w (suspend E w).
Proof.
  intros (evs & Ht & Hq).
  destruct (suspend_spec E w) as (_ & _ & _ & tail & Ht' & Htail).
  exists (evs ++ Suspended :: tail). split; [by rewrite Ht', Ht, <- app_assoc|].
  intros t Hin. pose proof (since_last_suspension_quiet evs tail Htail) as Hquiet.
  rewrite Forall_forall in Hquiet. by specialize (Hquiet _ Hin).
Qed.

Lemma create_task_keeps_still_queued t w0 w :
  keeps (still_queued w0) w (create_task t w).
Proof.
  intros (evs & Ht & Hq). exists (evs ++ [TaskCreated t]).
  split; [cbn; by rewrite Ht, <- app_assoc|].
  intros t'. rewrite since_last_suspension_snoc. cbn.
  intros [Hin|Hin%list_elem_of_singleton]%elem_of_app; apply elem_of_app.
  - left. by apply Hq.
  - right. injection Hin as ->. by apply list_elem_of_singleton.
Qed.

Lemma is_no_snapshot_write (e : event) :
  is_dispatch_or_write e = false → ∀ path resp, e ≠ SnapshotWrite path resp.
Proof. by intros He path resp ->. Qed.

Lemma task_created_is_no_write (t : task) :
  ∀ path resp, TaskCreated t ≠ SnapshotWrite path resp.
Proof. done. Qed.

Lemma dispatch_phase_run E new_data old_data is_second_repo w w1 :
  dispatch_phase E new_data old_data is_second_repo w = (Ok (), w1) →
  ∃ t wa wb,
    diff_roles new_data old_data is_second_repo = Ok t
    ∧ for_each (create_send_tasks E (format_message (repr E) (today E))
                  (db_ping_roles E (now w)))
               (new_roles t) (suspend E w) = (Ok (), wa)
    ∧ for_each (create_fanout_task E) (deactivated_roles t) wa = (Ok (), wb)
    ∧ (if is_second_repo
       then for_each (create_send_tasks E
                        (format_reactivation_message (repr E) (today E))
                        (db_ping_roles E (now w)))
                     (reactivated_roles t)
       else (mret () : M unit)) wb = (Ok (), w1).
Proof.
  intros Hrun. unfold dispatch_phase in Hrun.
  apply bind_Ok in Hrun as (d & w0 & Hd & Hrun).
  apply bind_Ok in Hrun as (roles & ws & Hroles & Hrun).
  apply bind_Ok in Hrun as (t & w2 & Ht & Hrun).
  unfold lift in Hd, Ht. injection Hd as Hd <-. injection Ht as Ht <-.
  injection Hroles as <- <-.
  unfold create_all_tasks in Hrun.
  apply bind_Ok in Hrun as ([] & wa & Hnew & Hrun).
  apply bind_Ok in Hrun as ([] & wb & Hdeact & Hrun).
  exists t, wa, wb. split; [|done].
  unfold diff_roles. rewrite Hd. done.
Qed.

(** C1, as the code has it.  The fan-out joins: in every world the bot
    reaches, where a fan-out has returned it had issued its sends before
    and each of them had returned in between.  A run of
    [process_repo_updates] that returns has the write of the snapshot as
    its last event and no other write; before it, a fan-out task has been
    created for every Deactivated transition, and for every New (for the
    second feed also every Reactivated) transition the round of that
    transition has created a send task for every channel it read whose key
    was not in [failed_channels] when it went on after the read; and the
    tasks created after the last suspension of the run are still in the
    queue, not started, when the snapshot is written. *)
Theorem tasks_created_before_snapshot_write (E : env) :
  (∀ w, reachable E w → joined (trace w))
  ∧ (∀ new_data old_data previous_data_file is_second_repo w w',
       process_repo_updates E new_data old_data previous_data_file
                            is_second_repo w = (Ok (), w') →
       ∃ t pre resp,
         diff_roles new_data old_data is_second_repo = Ok t
         ∧ trace w' = trace w ++ pre ++ [SnapshotWrite previous_data_file resp]
         ∧ Forall (λ e, ∀ path resp', e ≠ SnapshotWrite path resp') pre
         ∧ (∀ r, r ∈ deactivated_roles t →
              ∃ message,
                format_deactivation_message (repr E) (today E) r = Ok message
                ∧ TaskCreated (FanoutTask message) ∈ pre)
         ∧ (∀ earlier r later, new_roles t = earlier ++ r :: later →
              round_dispatches E (format_message (repr E) (today E))
                (db_ping_roles E (now w)) r
                (after_rounds E (format_message (repr E) (today E))
                   (db_ping_roles E (now w)) earlier (suspend E w))
                (trace w ++ pre))
         ∧ (is_second_repo = true →
            ∀ earlier r later, reactivated_roles t = earlier ++ r :: later →
              round_dispatches E
                (format_reactivation_message (repr E) (today E))
                (db_ping_roles E (now w)) r
                (after_rounds E
                   (format_reactivation_message (repr E) (today E))
                   (db_ping_roles E (now w)) earlier
                   (after_fanouts E (deactivated_roles t)
                      (after_rounds E (format_message (repr E) (today E))
                         (db_ping_roles E (now w)) (new_roles t)
                         (suspend E w))))
                (trace w ++ pre))
         ∧ (∀ task, TaskCreated task ∈ since_last_suspension pre →
              task ∈ ready w')).
Proof.
  split; [intros w Hw; by apply reachable_join_invariant in Hw as [? _]|].
  intros new_data old_data previous_data_file is_second_repo w w' Hrun.
  rewrite process_repo_updates_phases in Hrun.
  apply bind_Ok in Hrun as ([] & w1 & Hphase & Hwrite).
  unfold write_previous_data in Hwrite. injection Hwrite as <-.
  (* the trace of the dispatch phase *)
  pose proof (steps_within_dispatch_phase E
                (logs_only (λ e, ∀ path resp', e ≠ SnapshotWrite path resp'))
                (logs_only_refl _) (logs_only_trans _)
                (λ w, logs_only_suspend _ E w is_no_snapshot_write)
                (λ t w, logs_only_create_task _ t w (task_created_is_no_write t))
                new_data old_data is_second_repo w) as Hlog.
  rewrite Hphase in Hlog. destruct Hlog as (pre & Hpre & Hnowrite).
  (* the queue *)
  pose proof (steps_within_dispatch_phase E (keeps (still_queued w))
                (λ w0 H, H) (λ w1 w2 w3 H12 H23 H, H23 (H12 H))
                (λ w0, suspend_keeps_still_queued E w w0)
                (λ t w0, create_task_keeps_still_queued t w w0)
                new_data old_data is_second_repo w (still_queued_refl w))
    as Hqueue.
  rewrite Hphase in Hqueue. destruct Hqueue as (pre' & Hpre' & Hqueue).
  cbn [snd] in *. rewrite Hpre in Hpre'. apply app_inv_head in Hpre' as <-.
  destruct (dispatch_phase_run _ _ _ _ _ _ Hphase)
    as (t & wa & wb & Hdiff & Hnew & Hdeact & Hreact).
  assert (∀ P : event → Prop, (∀ e, P e) →
            ∀ format roles l w0,
              logs_only P w0
                (for_each (create_send_tasks E format roles) l w0).2) as Hsends.
  { intros P HP format roles l w0.
    apply (steps_within_for_each (logs_only P) (logs_only_refl _)
             (logs_only_trans _)).
    intros x. apply (steps_within_create_send_tasks E (logs_only P)
                       (logs_only_refl _) (logs_only_trans _)).
    - intros w2. by apply logs_only_suspend.
    - intros t0 w2. by apply logs_only_create_task. }
  assert (logs_only (λ _, True) (suspend E w) wa) as Lsa.
  { specialize (Hsends (λ _, True) (λ _, I) (format_message (repr E) (today E))
                  (db_ping_roles E (now w)) (new_roles t) (suspend E w)).
    by rewrite Hnew in Hsends. }
  assert (logs_only (λ _, True) wa wb) as Lab.
  { pose proof (steps_within_for_each (logs_only (λ _, True))
                  (logs_only_refl _) (logs_only_trans _)
                  (create_fanout_task E) (deactivated_roles t)
                  (λ x, steps_within_create_fanout_task E (logs_only (λ _, True))
                          (logs_only_refl _) (logs_only_trans _)
                          (λ t w, logs_only_create_task _ t w I) x) wa) as H.
    by rewrite Hdeact in H. }
  assert (logs_only (λ _, True) wb w1) as Lb1.
  { destruct is_second_repo.
    - specialize (Hsends (λ _, True) (λ _, I)
                    (format_reactivation_message (repr E) (today E))
                    (db_ping_roles E (now w)) (reactivated_roles t) wb).
      by rewrite Hreact in Hsends.
    - injection Hreact as <-. apply logs_only_refl. }
  assert (logs_only (λ _, True) w (suspend E w)) as Lws
    by (by apply logs_only_suspend).
  exists t, pre, (disk E (now w1) previous_data_file).
  split; [done|]. split; [cbn; by rewrite Hpre, <- app_assoc|].
  split; [done|]. rewrite <- Hpre. split; [|split; [|split]].
  - intros r Hr.
    destruct (fanout_created E _ _ _ Hdeact r Hr) as (message & i & Hfmt & Hi & Hlook).
    exists message. split; [done|].
    apply (logs_only_lookup _ _ _ _ _ Lb1) in Hlook.
    rewrite Hpre in Hlook.
    assert (now w ≤ i) as Hwi.
    { apply logs_only_now in Lws. apply logs_only_now in Lsa. lia. }
    rewrite lookup_app_r in Hlook by done.
    by eapply list_elem_of_lookup_2.
  - intros earlier r later Hsplit.
    eapply round_dispatches_later; [by eapply send_rounds|].
    etrans; [by eapply logs_only_prefix|]. by eapply logs_only_prefix.
  - intros -> earlier r later Hsplit.
    replace (after_fanouts E (deactivated_roles t)
               (after_rounds E (format_message (repr E) (today E))
                  (db_ping_roles E (now w)) (new_roles t) (suspend E w)))
      with wb
      by (unfold after_fanouts, after_rounds; rewrite Hnew; cbn [snd];
          by rewrite Hdeact).
    by eapply send_rounds.
  - intros task Htask. cbn. by apply Hqueue.
Qed.

Lemma tasks_created_before_snapshot_write_witness :
  let E := sample_env (λ _ _, Fetched [sample_role]) (λ _ _, Written) eager in
  let w := idle_world ∅ in
  let w' := (process_repo_updates E [sample_role] [] PREVIOUS_DATA_FILE false w).2 in
  ∃ t pre resp,
    diff_roles [sample_role] [] false = Ok t
    ∧ trace w' = trace w ++ pre ++ [SnapshotWrite PREVIOUS_DATA_FILE resp].
Proof.
  intros E w w'.
  destruct (proj2 (tasks_created_before_snapshot_write E)
              [sample_role] [] PREVIOUS_DATA_FILE false w w')
    as (t & pre & resp & Hdiff & Htrace & _).
  - vm_compute. reflexivity.
  - exists t, pre, resp. split; assumption.
Defined.

Lemma resume_all_nothing E places w :
  suspended w = [] → resume_all E places w = w.
Proof.
  intros Hpool. induction places as [|i places IH]; [done|].
  cbn [resume_all foldl]. unfold resume at 2. rewrite Hpool. cbn. apply IH.
Qed.

Lemma suspend_nothing_ready E w :
  ready w = [] → suspended w = [] → suspend E w = log Suspended w.
Proof.
  intros Hready Hpool. unfold suspend. cbn [log ready]. rewrite Hready.
  rewrite take_nil, drop_nil. cbn [imap foldl].
  rewrite resume_all_nothing by done.
  destruct w; cbn in *; by subst.
Qed.

(** One New listing, one channel, nothing pending: the whole run of
    [process_repo_updates], however many tasks the loop starts. *)
Lemma process_single_new_listing (schedule : nat → nat) :
  process_repo_updates
    (sample_env (λ _ _, Fetched [sample_role]) (λ _ _, Written) schedule)
    [sample_role] [] PREVIOUS_DATA_FILE false (idle_world ∅)
  = (Ok (),
     World {[PREVIOUS_DATA_FILE := Json [sample_role]]} fresh_tracker false
           [SendTask sample_message 10 20] []
           [Suspended; Suspended; TaskCreated (SendTask sample_message 10 20);
            SnapshotWrite PREVIOUS_DATA_FILE Written]).
Proof.
  set (E := sample_env (λ _ _, Fetched [sample_role]) (λ _ _, Written) schedule).
  assert (process_repo_updates E [sample_role] [] PREVIOUS_DATA_FILE false
            (idle_world ∅)
          = (create_all_tasks E false ∅ (Transitions [sample_role] [] [])
             ≫= λ _, write_previous_data E PREVIOUS_DATA_FILE [sample_role])
              (suspend E (idle_world ∅))) as -> by reflexivity.
  rewrite suspend_nothing_ready by reflexivity.
  unfold create_all_tasks, create_send_tasks, await_channels, mbind, M_bind.
  cbn [for_each new_roles deactivated_roles reactivated_roles mret M_ret].
  unfold mbind, M_bind.
  rewrite suspend_nothing_ready by reflexivity.
  subst E. vm_compute. reflexivity.
Qed.

(** However many tasks the loop starts, the snapshot is written while the
    send task of the New listing is still waiting in the queue, and the
    send is attempted at a later suspension. *)
Lemma snapshot_written_before_send (schedule : nat → nat) :
  let E := sample_env (λ _ _, Fetched [sample_role]) (λ _ _, Written) schedule in
  ∃ w',
    process_repo_updates E [sample_role] [] PREVIOUS_DATA_FILE false
                         (idle_world ∅) = (Ok (), w')
    ∧ trace w'
      = [Suspended; Suspended; TaskCreated (SendTask sample_message 10 20);
         SnapshotWrite PREVIOUS_DATA_FILE Written]
    ∧ files w' !! PREVIOUS_DATA_FILE = Some (Json [sample_role])
    ∧ ready w' = [SendTask sample_message 10 20]
    ∧ (0 < schedule 4 →
       trace (suspend E w')
       = trace w' ++ [Suspended; SendAttempted sample_message 10 20 Sent]).
Proof.
  intros E. subst E.
  eexists. split; [apply process_single_new_listing|].
  split; [reflexivity|]. split; [reflexivity|]. split; [reflexivity|].
  intros Hstarted. unfold suspend, now.
  cbn [log ready trace length app sample_env started].
  destruct (schedule 4) as [|n]; [lia|].
  cbn [take drop]. rewrite take_nil, drop_nil.
  vm_compute. reflexivity.
Qed.

(** The claim fails where it says that the send of every transition is
    attempted before the snapshot is overwritten.  One New listing, one
    channel, nothing pending, and a loop that starts every ready task at
    each suspension and lets Discord answer: the diff yields the New
    transition, the snapshot is overwritten by the fourth event, the send
    task is still in the queue then, and the send is attempted at the next
    suspension. *)
Lemma send_attempted_after_snapshot_write :
  diff_roles [sample_role] [] false = Ok (Transitions [sample_role] [] [])
  ∧ ∃ w',
      process_repo_updates
        (sample_env (λ _ _, Fetched [sample_role]) (λ _ _, Written) eager)
        [sample_role] [] PREVIOUS_DATA_FILE false (idle_world ∅)
      = (Ok (), w')
      ∧ trace w'
        = [Suspended; Suspended; TaskCreated (SendTask sample_message 10 20);
           SnapshotWrite PREVIOUS_DATA_FILE Written]
      ∧ files w' !! PREVIOUS_DATA_FILE = Some (Json [sample_role])
      ∧ ready w' = [SendTask sample_message 10 20]
      ∧ trace (suspend
                 (sample_env (λ _ _, Fetched [sample_role]) (λ _ _, Written)
                             eager) w')
        = trace w' ++ [Suspended; SendAttempted sample_message 10 20 Sent].
Proof.
  split; [vm_compute; reflexivity|].
  destruct (snapshot_written_before_send eager)
    as (w' & Hrun & Htrace & Hfiles & Hready & Hlater).
  exists w'. repeat (split; [assumption|]).
  apply Hlater. unfold eager. lia.
Qed.

(** Sends overlap: two sends to one channel are past the skip test when
    Discord refuses the first and accepts the second.  The refusal puts the
    key in [failed_channels]; the success takes it out again. *)
Example overlapping_sends_unskip :
  let E := Env (λ _, [(1, 11)%Z]) (λ _, ∅)
               (λ time _ _, if Nat.eqb time 0 then Forbidden else Sent)
               (λ _ _, Written) (λ _ _, Fetched []) (λ _, 0) (λ _ _, [])
               (λ _, EmptyString) "Nov 04" in
  let w0 := start_task E (SendTask "b" 1 11)
              (start_task E (SendTask "a" 1 11) (idle_world ∅)) in
  let w1 := resume E 0 w0 in
  let w2 := resume E 0 w1 in
  shouldSkip (channel_key 1 11) (health w1) = true
  ∧ shouldSkip (channel_key 1 11) (health w2) = false
  ∧ trace w2 = [SendAttempted "a" 1 11 Forbidden; SendAttempted "b" 1 11 Sent].
Proof. vm_compute. done. Qed.

(** A fan-out over two channels, one of them skipped: it issues one send,
    and returns after that send has slept and returned. *)
Example fanout_joins :
  let E := Env (λ _, [(1, 11)%Z; (2, 22)%Z]) (λ _, ∅) (λ _ _ _, Sent)
               (λ _ _, Written) (λ _ _, Fetched []) (λ _, 1)
               (λ _ k, match k with
                       | 1 => [0; 0; 1; 1; 1; 0]
                       | _ => []
                       end)
               (λ _, EmptyString) "Nov 04" in
  let w := World ∅ (Tracker {[channel_key 1 11]} ∅) false [FanoutTask "m"] [] [] in
  trace (suspend E w)
  = [Suspended; FanoutIssued "m" [(2, 22)%Z]; SendAttempted "m" 2 22 Sent;
     ChildReturned 1 0 2 22; FanoutReturned "m" 1]
  ∧ suspended (suspend E w) = [].
Proof. vm_compute. done. Qed.

(** * Further properties of the code *)

(** ** The diff as three filters *)

Lemma classify_role_lists d b k (r : role) v acc :
  role_id r = Some v → dict_key v = Ok k →
  new_roles (classify_role d b k r acc)
  = new_roles acc ++ (if is_new d r then [r] else [])
  ∧ deactivated_roles (classify_role d b k r acc)
    = deactivated_roles acc ++ (if is_deactivated d r then [r] else [])
  ∧ reactivated_roles (classify_role d b k r acc)
    = reactivated_roles acc ++ (if is_reactivated d b r then [r] else []).
Proof.
  intros Hid Hk.
  unfold classify_role, is_new, is_deactivated, is_reactivated, old_role_of,
    has_id.
  rewrite Hid, Hk. fold (is_active r). fold (is_visible r).
  destruct (d !! k) as [o|]; [destruct (dict_truthy o); [fold (is_active o)|]|];
    repeat (match goal with |- context [if ?c then _ else _] =>
              lazymatch c with
              | context [if _ then _ else _] => fail
              | _ => destruct c eqn:?
              end
            end; cbn in *);
    rewrite ?app_nil_r; try done;
    repeat match goal with
           | H : _ && _ = true |- _ => apply andb_true_iff in H as [? ?]
           | H : negb _ = true |- _ => apply negb_true_iff in H
           end; congruence.
Qed.

Lemma classify_loop_lists d b (new_data : list role) : ∀ acc t,
  classify_loop d b new_data acc = Ok t →
  new_roles t = new_roles acc ++ filter (λ r, is_new d r = true) new_data
  ∧ deactivated_roles t
    = deactivated_roles acc ++ filter (λ r, is_deactivated d r = true) new_data
  ∧ reactivated_roles t
    = reactivated_roles acc
      ++ filter (λ r, is_reactivated d b r = true) new_data.
Proof.
  induction new_data as [|r rest IH]; intros acc t; cbn [classify_loop].
  - intros [= <-]. by rewrite !app_nil_r.
  - rewrite !filter_cons. destruct (role_id r) as [v|] eqn:Hid.
    + destruct (dict_key v) as [k|e] eqn:Hk; cbn; [|done].
      intros Hrun. destruct (IH _ _ Hrun) as (-> & -> & ->).
      destruct (classify_role_lists d b k r v acc Hid Hk) as (-> & -> & ->).
      rewrite <- !app_assoc.
      repeat split; f_equal; by case_match; case_decide.
    + intros Hrun. destruct (IH _ _ Hrun) as (-> & -> & ->).
      assert (is_new d r = false) as Hn
        by (unfold is_new, has_id; by rewrite Hid).
      assert (is_deactivated d r = false) as Hd
        by (unfold is_deactivated, old_role_of; by rewrite Hid).
      assert (is_reactivated d b r = false) as Hr
        by (unfold is_reactivated, old_role_of; by rewrite Hid).
      rewrite !decide_False by congruence. done.
Qed.

Lemma diff_roles_lists new_data old_data b t :
  diff_roles new_data old_data b = Ok t →
  ∃ d, old_roles_dict old_data = Ok d
       ∧ new_roles t = filter (λ r, is_new d r = true) new_data
       ∧ deactivated_roles t = filter (λ r, is_deactivated d r = true) new_data
       ∧ reactivated_roles t
         = filter (λ r, is_reactivated d b r = true) new_data.
Proof.
  unfold diff_roles. destruct (old_roles_dict old_data) as [d|e]; cbn; [|done].
  intros Hrun. exists d. split; [done|].
  by apply classify_loop_lists in Hrun.
Qed.

(** X1: each list of the diff is the sub-sequence of [new_data], in input
    order, of the records that pass one test: New are the records with an
    identifier unknown to the old snapshot that are visible and active;
    Deactivated those whose stored record is active while they are not;
    Reactivated, for the second feed only, those whose stored record is
    inactive while they are active and visible. *)
Theorem diff_is_three_filters (new_data old_data : list role)
    (is_second_repo : bool) (t : transitions) :
  diff_roles new_data old_data is_second_repo = Ok t →
  ∃ d, old_roles_dict old_data = Ok d
       ∧ t = Transitions
               (filter (λ r, is_new d r = true) new_data)
               (filter (λ r, is_deactivated d r = true) new_data)
               (filter (λ r, is_reactivated d is_second_repo r = true) new_data)
       ∧ new_roles t `sublist_of` new_data
       ∧ deactivated_roles t `sublist_of` new_data
       ∧ reactivated_roles t `sublist_of` new_data.
Proof.
  intros Hrun.
  destruct (diff_roles_lists _ _ _ _ Hrun) as (d & Hd & Hn & Hde & Hre).
  exists d. split; [done|]. rewrite Hn, Hde, Hre.
  split; [destruct t; cbn in *; congruence|].
  repeat split; apply sublist_filter.
Qed.

Lemma diff_is_three_filters_witness :
  let old_data : list role :=
    [ {["id" := JNum 1]}; {["id" := JNum 2; "active" := JBool false]} ] in
  let new_data : list role :=
    [ {["id" := JNum 3]}; {["id" := JNum 2; "active" := JBool true]};
      {["id" := JNum 1; "active" := JStr "no"]}; {["id" := JNum 4]} ] in
  ∃ d, old_roles_dict old_data = Ok d
       ∧ Transitions [ {["id" := JNum 3]}; {["id" := JNum 4]} ]
                     [ {["id" := JNum 1; "active" := JStr "no"]} ]
                     [ {["id" := JNum 2; "active" := JBool true]} ]
         = Transitions
               (filter (λ r, is_new d r = true) new_data)
               (filter (λ r, is_deactivated d r = true) new_data)
               (filter (λ r, is_reactivated d true r = true) new_data).
Proof.
  intros old_data new_data.
  destruct (diff_is_three_filters new_data old_data true
              (Transitions [ {["id" := JNum 3]}; {["id" := JNum 4]} ]
                     [ {["id" := JNum 1; "active" := JStr "no"]} ]
                     [ {["id" := JNum 2; "active" := JBool true]} ]))
    as (d & Hd & Ht & _).
  - vm_compute. reflexivity.
  - exists d. split; assumption.
Defined.

Lemma old_role_of_excludes d b (r : role) :
  (is_new d r = true → is_deactivated d r = false ∧ is_reactivated d b r = false)
  ∧ (is_deactivated d r = true → is_reactivated d b r = false).
Proof.
  unfold is_new, is_deactivated, is_reactivated.
  destruct (old_role_of d r) as [o|]; cbn.
  - rewrite andb_false_r. cbn. split; [done|].
    destruct (is_active o), b; cbn; done.
  - done.
Qed.

(** X2: no record is on two lists of one diff, and a record on any list
    is a record of [new_data] that has an identifier. *)
Theorem diff_lists_disjoint (new_data old_data : list role)
    (is_second_repo : bool) (t : transitions) (r : role) :
  diff_roles new_data old_data is_second_repo = Ok t →
  (r ∈ new_roles t →
   (r ∉ deactivated_roles t) ∧ (r ∉ reactivated_roles t))
  ∧ (r ∈ deactivated_roles t → r ∉ reactivated_roles t)
  ∧ (r ∈ new_roles t ∨ r ∈ deactivated_roles t ∨ r ∈ reactivated_roles t →
     r ∈ new_data ∧ has_id r = true).
Proof.
  intros Hrun.
  destruct (diff_roles_lists _ _ _ _ Hrun) as (d & Hd & -> & -> & ->).
  rewrite !list_elem_of_filter.
  destruct (old_role_of_excludes d is_second_repo r) as [Hnew Hdeact].
  split; [|split].
  - intros [Hn _]. destruct (Hnew Hn) as [H1 H2].
    split; intros [? _]; congruence.
  - intros [Hde _] [? _]. specialize (Hdeact Hde). congruence.
  - assert (old_role_of d r ≠ None → has_id r = true) as Hhas.
    { unfold old_role_of, has_id. by destruct (role_id r). }
    unfold is_new, is_deactivated, is_reactivated.
    intros [[H ?]|[[H ?]|[H ?]]]; (split; [done|]).
    + by destruct (has_id r).
    + destruct (old_role_of d r); [by apply Hhas|done].
    + destruct (old_role_of d r); [by apply Hhas|done].
Qed.

Lemma diff_lists_disjoint_witness :
  let r : role := {["id" := JNum 1; "active" := JBool false]} in
  r ∉ reactivated_roles (Transitions [] [r] []).
Proof.
  intros r.
  refine (proj1 (proj2 (diff_lists_disjoint [r] [ {["id" := JNum 1]} ] true
                          (Transitions [] [r] []) r _)) _).
  - vm_compute. reflexivity.
  - cbn. apply list_elem_of_singleton. reflexivity.
Defined.

Lemma has_id_role_id (r : role) : has_id r = false → role_id r = None.
Proof. unfold has_id. by destruct (role_id r). Qed.

Lemma old_roles_dict_from_has_id (old_data : list role) : ∀ d0,
  old_roles_dict_from (filter (λ r, has_id r = true) old_data) d0
  = old_roles_dict_from old_data d0.
Proof.
  induction old_data as [|r rest IH]; intros d0; [done|].
  rewrite filter_cons. case_decide as Hid.
  - cbn [old_roles_dict_from]. destruct (role_id r) as [v|]; [|by apply IH].
    destruct (dict_key v); cbn; [apply IH|done].
  - cbn [old_roles_dict_from]. rewrite has_id_role_id by by destruct (has_id r).
    apply IH.
Qed.

Lemma classify_loop_has_id d b (new_data : list role) : ∀ acc,
  classify_loop d b (filter (λ r, has_id r = true) new_data) acc
  = classify_loop d b new_data acc.
Proof.
  induction new_data as [|r rest IH]; intros acc; [done|].
  rewrite filter_cons. case_decide as Hid.
  - cbn [classify_loop]. destruct (role_id r) as [v|]; [|by apply IH].
    destruct (dict_key v); cbn; [apply IH|done].
  - cbn [classify_loop]. rewrite has_id_role_id by by destruct (has_id r).
    apply IH.
Qed.

(** X3: records that have no identifier (the key is missing or null) are
    ignored on both sides: dropping them from the old and from the new
    snapshot changes nothing in the diff, raised exceptions included. *)
Theorem diff_ignores_records_without_id (new_data old_data : list role)
    (is_second_repo : bool) :
  diff_roles (filter (λ r, has_id r = true) new_data)
             (filter (λ r, has_id r = true) old_data) is_second_repo
  = diff_roles new_data old_data is_second_repo.
Proof.
  unfold diff_roles, old_roles_dict. rewrite old_roles_dict_from_has_id.
  destruct (old_roles_dict_from old_data ∅); cbn; [|done].
  apply classify_loop_has_id.
Qed.

Lemma hashable_id_unfold (r : role) :
  hashable_id r
  = match role_id r with
    | Some (JList _) | Some (JObj _) => false
    | _ => true
    end.
Proof. reflexivity. Qed.

Lemma classify_loop_hashable d b (new_data : list role) : ∀ acc,
  (forallb hashable_id new_data = true →
   ∃ t, classify_loop d b new_data acc = Ok t)
  ∧ (forallb hashable_id new_data = false →
     classify_loop d b new_data acc = Raise TypeError).
Proof.
  induction new_data as [|r rest IH]; intros acc; simpl.
  - split; [eauto|done].
  - rewrite hashable_id_unfold. destruct (role_id r) as [v|].
    + destruct v; simpl; try apply IH.
      all: split; [done|reflexivity || done].
    + simpl. apply IH.
Qed.

Lemma old_roles_dict_from_hashable (old_data : list role) : ∀ d0,
  (forallb hashable_id old_data = true →
   ∃ d, old_roles_dict_from old_data d0 = Ok d)
  ∧ (forallb hashable_id old_data = false →
     old_roles_dict_from old_data d0 = Raise TypeError).
Proof.
  induction old_data as [|r rest IH]; intros d0; simpl.
  - split; [eauto|done].
  - rewrite hashable_id_unfold. destruct (role_id r) as [v|].
    + destruct v; simpl; try apply IH.
      all: split; [done|reflexivity || done].
    + simpl. apply IH.
Qed.

(** X4: the diff raises exactly when a record of the old or of the new
    snapshot has a list or an object as identifier, and what it raises is
    [TypeError]; with hashable identifiers it returns its three lists. *)
Theorem diff_raises_on_unhashable_id (new_data old_data : list role)
    (is_second_repo : bool) :
  if forallb hashable_id old_data && forallb hashable_id new_data
  then ∃ t, diff_roles new_data old_data is_second_repo = Ok t
  else diff_roles new_data old_data is_second_repo = Raise TypeError.
Proof.
  unfold diff_roles, old_roles_dict.
  destruct (old_roles_dict_from_hashable old_data ∅) as [Hok Hbad].
  destruct (forallb hashable_id old_data); cbn [andb].
  - destruct (Hok eq_refl) as [d ->]. cbn.
    destruct (classify_loop_hashable d is_second_repo new_data no_transitions)
      as [Hnew Hraise].
    destruct (forallb hashable_id new_data); [by apply Hnew|by apply Hraise].
  - by rewrite Hbad.
Qed.

Lemma old_role_of_empty (r : role) : old_role_of ∅ r = None.
Proof.
  unfold old_role_of. destruct (role_id r) as [v|]; [|done].
  destruct (dict_key v); [|done]. by rewrite lookup_empty.
Qed.

Lemma filter_nothing {A} (P : A → Prop) `{∀ x, Decision (P x)} (l : list A) :
  (∀ x, ¬ P x) → filter P l = [].
Proof.
  intros HP. induction l as [|x l IH]; [done|].
  rewrite filter_cons, decide_False; [done|apply HP].
Qed.

(** X5: against an empty old snapshot, which is what the cycle uses when
    the snapshot file is missing or does not decode, every record of the
    feed that has an identifier and is active and visible is New, in feed
    order, and nothing is Deactivated or Reactivated. *)
Theorem empty_snapshot_announces_everything (new_data : list role)
    (is_second_repo : bool) :
  forallb hashable_id new_data = true →
  diff_roles new_data [] is_second_repo
  = Ok (Transitions
          (filter (λ r, has_id r && is_visible r && is_active r = true) new_data)
          [] []).
Proof.
  intros Hhash.
  destruct (classify_loop_hashable ∅ is_second_repo new_data no_transitions)
    as [Hok _].
  destruct (Hok Hhash) as [t Ht].
  unfold diff_roles, old_roles_dict. cbn. rewrite Ht. f_equal.
  destruct (classify_loop_lists _ _ _ _ _ Ht) as (Hn & Hd & Hr).
  destruct t as [n d r]. cbn in *. subst n d r. f_equal.
  - apply list_filter_iff. intros r. unfold is_new.
    by rewrite old_role_of_empty, andb_true_r.
  - apply filter_nothing. intros r. unfold is_deactivated.
    by rewrite old_role_of_empty.
  - apply filter_nothing. intros r. unfold is_reactivated.
    by rewrite old_role_of_empty.
Qed.

Lemma empty_snapshot_announces_everything_witness :
  diff_roles [ {["id" := JNum 1]}; {["title" := JStr "no id"]};
               {["id" := JNum 2; "active" := JBool false]};
               {["id" := JStr "c"; "is_visible" := JStr "True"]} ] [] true
  = Ok (Transitions
          [ {["id" := JNum 1]}; {["id" := JStr "c"; "is_visible" := JStr "True"]} ]
          [] []).
Proof.
  exact (empty_snapshot_announces_everything
           [ {["id" := JNum 1]}; {["title" := JStr "no id"]};
             {["id" := JNum 2; "active" := JBool false]};
             {["id" := JStr "c"; "is_visible" := JStr "True"]} ] true eq_refl).
Defined.

(** Every entry of the index is a record with an identifier, and every
    identifier of the old snapshot has an entry. *)
Lemma old_roles_dict_from_complete (old_data : list role) : ∀ d0 d,
  old_roles_dict_from old_data d0 = Ok d →
  (∀ k o, d0 !! k = Some o → dict_truthy o = true) →
  (∀ k o, d !! k = Some o → dict_truthy o = true)
  ∧ (∀ k, is_Some (d0 !! k) → is_Some (d !! k))
  ∧ (∀ o v k, o ∈ old_data → role_id o = Some v → dict_key v = Ok k →
       is_Some (d !! k)).
Proof.
  induction old_data as [|r rest IH]; intros d0 d; cbn [old_roles_dict_from].
  - intros [= <-] H0. split; [done|]. split; [done|].
    intros o v k Ho. by apply not_elem_of_nil in Ho.
  - destruct (role_id r) as [v|] eqn:Hid.
    + destruct (dict_key v) as [k|] eqn:Hk; cbn; [|done].
      intros Hrun H0.
      destruct (IH (<[k:=r]> d0) d Hrun) as (Htruthy & Hmono & Hall).
      { intros k' o. rewrite lookup_insert. case_decide.
        - intros [= <-]. by eapply role_id_truthy.
        - apply H0. }
      split; [done|]. split.
      * intros k' Hk'. apply Hmono. rewrite lookup_insert.
        by case_decide.
      * intros o v' k' Ho Hid' Hk''. apply elem_of_cons in Ho as [->|Ho].
        -- rewrite Hid in Hid'. injection Hid' as <-.
           rewrite Hk in Hk''. injection Hk'' as <-.
           apply Hmono. rewrite lookup_insert_eq. eauto.
        -- by eapply Hall.
    + intros Hrun H0. destruct (IH d0 d Hrun H0) as (Htruthy & Hmono & Hall).
      split; [done|]. split; [done|].
      intros o v' k' Ho Hid' Hk'. apply elem_of_cons in Ho as [->|Ho];
        [congruence|]. by eapply Hall.
Qed.

(** X6: a record whose identifier is already in the old snapshot is never
    New, whatever its flags and whatever the flags of the stored record: a
    listing first seen while inactive or invisible is not announced as New
    in a later cycle. *)
Theorem known_id_is_never_new (new_data old_data : list role)
    (is_second_repo : bool) (t : transitions) (r o : role) :
  diff_roles new_data old_data is_second_repo = Ok t →
  o ∈ old_data → same_key r o → r ∉ new_roles t.
Proof.
  intros Hrun Ho (v & v' & k & Hr & Hov & Hk & Hk') Hin.
  destruct (diff_roles_lists _ _ _ _ Hrun) as (d & Hd & Hn & _).
  rewrite Hn in Hin. apply list_elem_of_filter in Hin as [Hnew _].
  destruct (old_roles_dict_from_complete old_data ∅ d Hd)
    as (Htruthy & _ & Hall); [by intros k0 o0; rewrite lookup_empty|].
  destruct (Hall o v' k Ho Hov Hk') as [o' Ho'].
  unfold is_new, old_role_of in Hnew. rewrite Hr, Hk, Ho' in Hnew.
  rewrite (Htruthy k o' Ho') in Hnew. by rewrite andb_false_r in Hnew.
Qed.

Lemma known_id_is_never_new_witness :
  let r : role := {["id" := JNum 1; "is_visible" := JBool true]} in
  r ∉ @nil role.
Proof.
  intros r.
  refine (known_id_is_never_new [r]
            [ {["id" := JBool true; "is_visible" := JBool false]} ] true
            (Transitions [] [] []) r
            {["id" := JBool true; "is_visible" := JBool false]} _ _ _).
  - vm_compute. reflexivity.
  - apply list_elem_of_singleton. reflexivity.
  - exists (JNum 1), (JBool true), (KInt 1). repeat split; reflexivity.
Defined.

Lemma unique_ids_Permutation (old_data old_data' : list role) :
  old_data ≡ₚ old_data' → unique_ids old_data → unique_ids old_data'.
Proof.
  intros Hperm (keys & Hkeys & Hnd).
  apply mapM_Some in Hkeys.
  destruct (Permutation_Forall2 (omap_Permutation role_id _ _ Hperm) Hkeys)
    as (keys' & Hperm' & Hkeys').
  exists keys'. split; [by apply mapM_Some|]. by rewrite <- Hperm'.
Qed.

Lemma old_roles_dict_from_sound (old_data : list role) : ∀ d0 d k o,
  old_roles_dict_from old_data d0 = Ok d → d !! k = Some o →
  (o ∈ old_data ∧ ∃ v, role_id o = Some v ∧ dict_key v = Ok k)
  ∨ d0 !! k = Some o.
Proof.
  induction old_data as [|r rest IH]; intros d0 d k o;
    cbn [old_roles_dict_from].
  - intros [= <-] Hk. by right.
  - destruct (role_id r) as [v|] eqn:Hid.
    + destruct (dict_key v) as [k0|] eqn:Hk0; cbn; [|done].
      intros Hrun Hk. destruct (IH _ _ _ _ Hrun Hk) as [[Hin Hkey]|Hins].
      * left. split; [by right|done].
      * rewrite lookup_insert in Hins. case_decide as Heq.
        -- injection Hins as <-. subst k0. left. split; [by left|eauto].
        -- by right.
    + intros Hrun Hk. destruct (IH _ _ _ _ Hrun Hk) as [[Hin Hkey]|Hins].
      * left. split; [by right|done].
      * by right.
Qed.

(** The index of a snapshot with pairwise different identifiers holds
    exactly its records with an identifier, each under its own key. *)
Lemma old_roles_dict_unique (old_data : list role) :
  unique_ids old_data →
  ∃ d, old_roles_dict old_data = Ok d
       ∧ ∀ k o, d !! k = Some o
                ↔ o ∈ old_data ∧ ∃ v, role_id o = Some v ∧ dict_key v = Ok k.
Proof.
  intros (keys & Hkeys & Hnd). unfold old_roles_dict.
  destruct (old_roles_dict_from_lookup old_data ∅ keys Hkeys)
    as (d & Hd & _ & Hin).
  exists d. split; [done|]. intros k o. split.
  - intros Hk. destruct (old_roles_dict_from_sound _ _ _ _ _ Hd Hk) as [H|H];
      [done|by rewrite lookup_empty in H].
  - intros [Ho (v & Hv & Hkey)]. by apply (Hin Hnd o v k).
Qed.

(** X7: the order of the old snapshot does not matter when its identifiers
    are pairwise different: two old snapshots that are permutations of one
    another give the same diff. *)
Theorem diff_ignores_old_order (new_data old_data old_data' : list role)
    (is_second_repo : bool) :
  unique_ids old_data → old_data ≡ₚ old_data' →
  diff_roles new_data old_data is_second_repo
  = diff_roles new_data old_data' is_second_repo.
Proof.
  intros Huniq Hperm.
  destruct (old_roles_dict_unique old_data Huniq) as (d & Hd & Hspec).
  destruct (old_roles_dict_unique old_data'
              (unique_ids_Permutation _ _ Hperm Huniq)) as (d' & Hd' & Hspec').
  unfold diff_roles. rewrite Hd, Hd'. cbn.
  replace d' with d; [done|]. apply map_eq. intros k.
  destruct (d !! k) as [o|] eqn:Hk.
  - symmetry. apply Hspec'. apply Hspec in Hk as [Ho Hkey].
    split; [by rewrite <- Hperm|done].
  - destruct (d' !! k) as [o'|] eqn:Hk'; [|done].
    apply Hspec' in Hk' as [Ho Hkey].
    assert (d !! k = Some o') as Hcontra
      by (apply Hspec; split; [by rewrite Hperm|done]).
    congruence.
Qed.

Lemma diff_ignores_old_order_witness :
  let a : role := {["id" := JNum 1]} in
  let b : role := {["id" := JStr "b"; "active" := JBool false]} in
  diff_roles [b; a] [a; b] true = diff_roles [b; a] [b; a] true.
Proof.
  intros a b. apply diff_ignores_old_order.
  - exists [KInt 1; KStr "b"]. split; [reflexivity|].
    apply NoDup_cons. split; [|apply NoDup_singleton].
    intros H. apply list_elem_of_singleton in H. discriminate H.
  - apply perm_swap.
Defined.

(** Without pairwise different identifiers the order of the old snapshot
    does matter: the later record of a key is the one compared. *)
Example old_order_matters_with_duplicates :
  let a : role := {["id" := JNum 1; "active" := JBool true]} in
  let b : role := {["id" := JNum 1; "active" := JBool false]} in
  diff_roles [b] [a; b] false ≠ diff_roles [b] [b; a] false.
Proof. vm_compute. discriminate. Qed.

(** ** Term resolution, further *)

(** X8: [season] has priority over [terms] as soon as it is truthy, also
    when nothing can be made of it (a blank string, a number, an object):
    the result is then the same as for the record without its [terms]. *)
Theorem truthy_season_hides_terms (r : role) :
  py_bool (default JNull (r !! "season")) = true →
  get_term_emoji_and_string r = get_term_emoji_and_string (delete "terms" r).
Proof.
  intros Hseason. unfold get_term_emoji_and_string.
  rewrite lookup_delete_ne by done. by rewrite Hseason.
Qed.

Lemma truthy_season_hides_terms_witness :
  get_term_emoji_and_string
    {["season" := JStr "   "; "terms" := JStr "Fall 2025"]}
  = get_term_emoji_and_string
      (delete "terms" {["season" := JStr "   "; "terms" := JStr "Fall 2025"]}).
Proof.
  exact (truthy_season_hides_terms
           {["season" := JStr "   "; "terms" := JStr "Fall 2025"]} eq_refl).
Defined.

(** A blank season hides a usable [terms] field: the term is unknown. *)
Example blank_season_hides_terms :
  get_term_emoji_and_string
    {["season" := JStr "   "; "terms" := JStr "Fall 2025"]}
  = Ok (EMOJI_UNKNOWN_TERM, "Unknown").
Proof. vm_compute. reflexivity. Qed.

(** X9: what [get_term_emoji_and_string] returns.  The term string is
    never empty; the emoji string is one of the eight the three markers
    and the unknown-term marker can form, in the order summer, winter,
    fall; and the term ["Unknown"] always comes with the unknown-term
    marker. *)
Theorem term_result_shape (r : role) (term_emoji term_str : string) :
  get_term_emoji_and_string r = Ok (term_emoji, term_str) →
  term_str ≠ EmptyString
  ∧ term_emoji ∈ [ EMOJI_UNKNOWN_TERM; EMOJI_SUMMER; EMOJI_WINTER; EMOJI_FALL;
                   EMOJI_SUMMER +:+ EMOJI_WINTER; EMOJI_SUMMER +:+ EMOJI_FALL;
                   EMOJI_WINTER +:+ EMOJI_FALL;
                   EMOJI_SUMMER +:+ EMOJI_WINTER +:+ EMOJI_FALL ]
  ∧ (term_str = "Unknown" → term_emoji = EMOJI_UNKNOWN_TERM).
Proof.
  unfold get_term_emoji_and_string.
  destruct (if py_bool _ then _ else _) as [season_str|e]; cbn; [|done].
  destruct (String.eqb season_str EmptyString) eqn:Hempty; cbn.
  { intros [= <- <-]. split; [done|]. split; [by left|done]. }
  destruct (String.eqb season_str "Unknown") eqn:Hunknown; cbn.
  { intros [= <- <-]. split; [done|]. split; [by left|done]. }
  apply String.eqb_neq in Hempty, Hunknown.
  destruct (contains "summer" _ || contains "spring" _);
    destruct (contains "winter" _);
    destruct (contains "fall" _ || contains "autumn" _);
    intros [= <- <-]; (split; [done|]); (split; [|done]);
    cbn; rewrite !elem_of_cons; tauto.
Qed.

Lemma term_result_shape_witness :
  "Spring 2026, Fall 2026" ≠ EmptyString
  ∧ EMOJI_SUMMER +:+ EMOJI_FALL
    ∈ [ EMOJI_UNKNOWN_TERM; EMOJI_SUMMER; EMOJI_WINTER; EMOJI_FALL;
        EMOJI_SUMMER +:+ EMOJI_WINTER; EMOJI_SUMMER +:+ EMOJI_FALL;
        EMOJI_WINTER +:+ EMOJI_FALL;
        EMOJI_SUMMER +:+ EMOJI_WINTER +:+ EMOJI_FALL ]
  ∧ ("Spring 2026, Fall 2026" = "Unknown" →
     EMOJI_SUMMER +:+ EMOJI_FALL = EMOJI_UNKNOWN_TERM).
Proof.
  apply (term_result_shape
           {["terms" := JList [JStr "Spring 2026"; JStr "Fall 2026"]]}).
  vm_compute. reflexivity.
Defined.

Lemma term_field_string_raises (raw : json) e :
  term_field_string raw = Raise e →
  e = TypeError ∧ ∃ items, raw = JList items ∧ str_items items = Raise TypeError.
Proof.
  assert (∀ items e, str_items items = Raise e → e = TypeError) as Hstr.
  { induction items as [|x items IH]; intros e0; cbn; [done|].
    destruct x; try (by intros [= <-]).
    destruct (str_items items) as [l|e1]; cbn; [done|].
    intros [= <-]. by apply IH. }
  destruct raw; cbn; try done.
  - by case_match.
  - destruct items as [|x items]; [done|]. cbn [py_bool].
    destruct (str_items (x :: items)) as [l|e0] eqn:Hitems; cbn; [done|].
    intros [= <-]. pose proof (Hstr _ _ Hitems) as ->. eauto.
Qed.

(** X10: the only exception of [get_term_emoji_and_string] is the
    [TypeError] of [', '.join] on a list that holds something else than
    strings, and it is the list of the field that is consulted: [season]
    when it is truthy, else [terms]. *)
Theorem term_raises_only_on_bad_list (r : role) (e : exn) :
  get_term_emoji_and_string r = Raise e →
  e = TypeError
  ∧ ∃ items,
      str_items items = Raise TypeError
      ∧ (r !! "season" = Some (JList items)
         ∨ (py_bool (default JNull (r !! "season")) = false
            ∧ r !! "terms" = Some (JList items))).
Proof.
  unfold get_term_emoji_and_string.
  destruct (py_bool (default JNull (r !! "season"))) eqn:Hseason.
  - destruct (term_field_string _) as [s|e0] eqn:Hfield; cbn.
    + by case_match.
    + intros [= <-].
      destruct (term_field_string_raises _ _ Hfield) as (-> & items & Hraw & Hitems).
      split; [done|]. exists items. split; [done|]. left.
      destruct (r !! "season"); cbn in Hraw; [by subst|done].
  - destruct (py_bool (default JNull (r !! "terms"))) eqn:Hterms; cbn;
      [|done].
    destruct (term_field_string _) as [s|e0] eqn:Hfield; cbn.
    + by case_match.
    + intros [= <-].
      destruct (term_field_string_raises _ _ Hfield) as (-> & items & Hraw & Hitems).
      split; [done|]. exists items. split; [done|]. right. split; [done|].
      destruct (r !! "terms"); cbn in Hraw; [by subst|done].
Qed.

Lemma term_raises_only_on_bad_list_witness :
  TypeError = TypeError
  ∧ ∃ items,
      str_items items = Raise TypeError
      ∧ (({["season" := JList [JStr "Fall"; JNum 2026]]} : role) !! "season"
         = Some (JList items)
         ∨ (py_bool (default JNull
              (({["season" := JList [JStr "Fall"; JNum 2026]]} : role)
                 !! "season")) = false
            ∧ ({["season" := JList [JStr "Fall"; JNum 2026]]} : role) !! "terms"
              = Some (JList items))).
Proof.
  apply (term_raises_only_on_bad_list
           {["season" := JList [JStr "Fall"; JNum 2026]]} TypeError).
  vm_compute. reflexivity.
Defined.

(** ** The formatters, further *)

(** X11: a company name that is present but is not a string (a JSON null,
    a number) breaks the formatters that would mention: for a guild with a
    ping role configured, [format_reactivation_message] raises
    [AttributeError], and so does [format_message] on its full template;
    [format_deactivation_message], which has no mention, still returns
    its text. *)
Theorem non_string_company_breaks_mention (py_repr : json → string)
    (today : string) (r : role) (guild_id ping_role_id : Z)
    (guild_ping_roles : gmap Z Z) (company : json)
    (term_emoji term_str location_str : string) :
  r !! "company_name" = Some company →
  (∀ s, company ≠ JStr s) →
  get_term_emoji_and_string r = Ok (term_emoji, term_str) →
  location_string r = Ok location_str →
  configured_ping_role guild_id guild_ping_roles = Some ping_role_id →
  format_reactivation_message py_repr today r guild_id guild_ping_roles
  = Raise AttributeError
  ∧ (term_str ≠ "Unknown" →
     format_message py_repr today r guild_id guild_ping_roles
     = Raise AttributeError)
  ∧ ∃ message, format_deactivation_message py_repr today r = Ok message.
Proof.
  intros Hc Hnot Hterm Hloc Hping.
  assert (py_lower company = Raise AttributeError) as Hlower
    by (destruct company; try done; by destruct (Hnot s)).
  split; [|split].
  - unfold format_reactivation_message. rewrite Hterm, Hc.
    cbn -[reactivation_ping_str]. unfold reactivation_ping_str.
    by rewrite Hping, Hlower.
  - intros Hknown. unfold format_message. rewrite Hloc, Hterm, Hc.
    cbn -[new_ping_str String.eqb].
    destruct (String.eqb term_str "Unknown") eqn:He;
      [by apply String.eqb_eq in He|].
    cbn -[new_ping_str]. unfold new_ping_str. by rewrite Hping, Hlower.
  - unfold format_deactivation_message. rewrite Hterm. cbn. eauto.
Qed.

Lemma non_string_company_breaks_mention_witness :
  let r : role :=
    {["id" := JNum 3; "company_name" := JNull; "season" := JStr "Fall 2026"]} in
  format_reactivation_message (λ _, "None") "Nov 04" r 1 {[1%Z := 99%Z]}
  = Raise AttributeError.
Proof.
  intros r.
  refine (proj1 (non_string_company_breaks_mention (λ _, "None") "Nov 04" r 1 99
                   {[1%Z := 99%Z]} JNull EMOJI_FALL "Fall 2026" "Not specified"
                   _ _ _ _ _)); [vm_compute; reflexivity | discriminate
                                | vm_compute; reflexivity ..].
Defined.

Lemma configured_ping_role_local guild_id (roles roles' : gmap Z Z) :
  roles !! guild_id = roles' !! guild_id →
  configured_ping_role guild_id roles = configured_ping_role guild_id roles'.
Proof. intros H. unfold configured_ping_role. by rewrite H. Qed.

(** X12: the text a guild gets depends on the ping roles only through the
    entry of that guild: another guild's ping role never shows in it. *)
Theorem message_depends_on_own_ping_role (py_repr : json → string)
    (today : string) (r : role) (guild_id : Z) (roles roles' : gmap Z Z) :
  roles !! guild_id = roles' !! guild_id →
  format_message py_repr today r guild_id roles
  = format_message py_repr today r guild_id roles'
  ∧ format_reactivation_message py_repr today r guild_id roles
    = format_reactivation_message py_repr today r guild_id roles'.
Proof.
  intros H. apply configured_ping_role_local in H.
  assert (∀ c, new_ping_str c guild_id roles = new_ping_str c guild_id roles')
    as Hnew by (intros c; unfold new_ping_str; rewrite H; reflexivity).
  assert (∀ c t, reactivation_ping_str c t guild_id roles
                 = reactivation_ping_str c t guild_id roles')
    as Hreact
    by (intros c t; unfold reactivation_ping_str; rewrite H; reflexivity).
  split.
  - unfold format_message.
    destruct (location_string r) as [l|]; [|reflexivity].
    destruct (get_term_emoji_and_string r) as [[e t]|]; [|reflexivity].
    cbn -[new_ping_str String.eqb].
    destruct (String.eqb t "Unknown" && _); [reflexivity|].
    destruct (String.eqb t "Unknown"); [reflexivity|].
    rewrite Hnew. reflexivity.
  - unfold format_reactivation_message.
    destruct (get_term_emoji_and_string r) as [[e t]|]; [|reflexivity].
    cbn -[reactivation_ping_str]. rewrite Hreact. reflexivity.
Qed.

Lemma message_depends_on_own_ping_role_witness :
  format_message (λ _, EmptyString) "Nov 04" sample_role 1
                 {[1%Z := 5%Z; 2%Z := 6%Z]}
  = format_message (λ _, EmptyString) "Nov 04" sample_role 1
                   {[1%Z := 5%Z; 3%Z := 7%Z]}.
Proof.
  refine (proj1 (message_depends_on_own_ping_role (λ _, EmptyString) "Nov 04"
                   sample_role 1 {[1%Z := 5%Z; 2%Z := 6%Z]}
                   {[1%Z := 5%Z; 3%Z := 7%Z]} _)).
  vm_compute. reflexivity.
Defined.

(** X14: [format_message_unknown_term] at a record of a watch-listed
    company that names no term: the ping role of the guild does not show
    in the text. *)
Lemma format_message_unknown_term_witness :
  format_message (λ _, EmptyString) "Nov 04"
                 {["id" := JNum 1; "company_name" := JStr "Google"]} 1
                 {[1%Z := 99%Z]}
  = format_message (λ _, EmptyString) "Nov 04"
                   {["id" := JNum 1; "company_name" := JStr "Google"]} 1 ∅.
Proof.
  refine (format_message_unknown_term (λ _, EmptyString) "Nov 04"
            {["id" := JNum 1; "company_name" := JStr "Google"]} 1
            {[1%Z := 99%Z]} EMOJI_UNKNOWN_TERM _).
  vm_compute. reflexivity.
Defined.

Lemma prefix_spec (p s : string) :
  String.prefix p s = true ↔ ∃ b, s = p +:+ b.
Proof.
  revert s. induction p as [|c p IH]; intros s.
  - split; [by exists s|by destruct s].
  - destruct s as [|c' s].
    + split; [done|]. by intros [b Hb].
    + change (String.prefix (String c p) (String c' s))
        with (if ascii_dec c c' then String.prefix p s else false).
      destruct (ascii_dec c c') as [->|Hne].
      * rewrite IH. split; intros [b Hb]; exists b.
        -- by rewrite Hb.
        -- change (String c' p +:+ b) with (String c' (p +:+ b)) in Hb. congruence.
      * split; [done|]. intros [b Hb].
        change (String c p +:+ b) with (String c (p +:+ b)) in Hb. congruence.
Qed.

(** The test [pat in s] holds exactly when [s] is some text, then [pat],
    then some text. *)
Lemma contains_spec (pat s : string) :
  contains pat s = true ↔ ∃ a b, s = a +:+ pat +:+ b.
Proof.
  induction s as [|c s IH].
  - change (contains pat EmptyString) with (String.prefix pat EmptyString || false).
    rewrite orb_false_r, prefix_spec. split.
    + intros [b Hb]. by exists EmptyString, b.
    + intros (a & b & Hab). destruct a; [by exists b|done].
  - change (contains pat (String c s))
      with (String.prefix pat (String c s) || contains pat s).
    rewrite orb_true_iff, IH, prefix_spec. split.
    + intros [[b Hb]|(a & b & Hab)].
      * by exists EmptyString, b.
      * exists (String c a), b.
        change (String c a +:+ pat +:+ b) with (String c (a +:+ pat +:+ b)).
        by rewrite Hab.
    + intros (a & b & Hab). destruct a as [|c' a].
      * left. by exists b.
      * right. exists a, b.
        change (String c' a +:+ pat +:+ b) with (String c' (a +:+ pat +:+ b)) in Hab.
        congruence.
Qed.

(** X13: the watch-list loop of the formatters matches a company name
    exactly when its lower-case form starts with ["x"], or has one of the
    other entries of [BIG_TECH_COMPANIES] somewhere inside it. *)
Theorem watchlist_match_is_substring (company_name : string) :
  matches_watchlist BIG_TECH_COMPANIES (lower company_name) = true
  ↔ (∃ b, lower company_name = "x" +:+ b)
    ∨ ∃ entry a b, entry ∈ BIG_TECH_COMPANIES ∧ entry ≠ "x"
                   ∧ lower company_name = a +:+ entry +:+ b.
Proof.
  rewrite matches_watchlist_on_watch_list. unfold on_watch_list.
  assert (forallb (λ entry, String.eqb (lower entry) entry) BIG_TECH_COMPANIES
          = true) as Hlower by (vm_compute; reflexivity).
  rewrite forallb_forall in Hlower.
  rewrite existsb_exists. split.
  - intros (entry & Hin & Hmatch). unfold watch_list_entry_matches in Hmatch.
    pose proof (Hlower entry Hin) as He. apply String.eqb_eq in He.
    rewrite He in Hmatch.
    destruct (String.eqb entry "x") eqn:Hx.
    + apply String.eqb_eq in Hx. subst entry. left. by apply prefix_spec.
    + apply String.eqb_neq in Hx. right.
      apply contains_spec in Hmatch as (a & b & Hab).
      exists entry, a, b. split; [by apply list_elem_of_In|done].
  - intros [Hx|(entry & a & b & Hin & Hne & Hab)].
    + exists "x". split; [|by apply prefix_spec].
      assert (existsb (String.eqb "x") BIG_TECH_COMPANIES = true) as Hin
        by (vm_compute; reflexivity).
      apply existsb_exists in Hin as (entry & Hin & Heq).
      apply String.eqb_eq in Heq. by subst entry.
    + exists entry. split; [by apply list_elem_of_In|].
      unfold watch_list_entry_matches.
      apply list_elem_of_In in Hin.
      pose proof (Hlower entry Hin) as He. apply String.eqb_eq in He.
      rewrite He. apply String.eqb_neq in Hne. rewrite Hne.
      apply contains_spec. eauto.
Qed.

(** ** The failure tracker over a session *)

Lemma pretty_N_go_no_colon x : ∀ s,
  occurs ":" s = false → occurs ":" (pretty_N_go x s) = false.
Proof.
  induction (N.lt_wf_0 x) as [x _ IH]; intros s Hs.
  assert (x = 0 ∨ 0 < x)%N as [->|Hpos] by lia.
  - by rewrite pretty_N_go_0.
  - rewrite pretty_N_go_step by done. apply IH.
    + by apply N.div_lt.
    + cbn [occurs]. rewrite Hs, orb_false_r.
      unfold pretty_N_char. by repeat case_match.
Qed.

Lemma pretty_Z_no_colon (z : Z) : occurs ":" (pretty z) = false.
Proof.
  assert (∀ p : positive, occurs ":" (pretty p) = false) as Hpos.
  { intros p. unfold pretty, pretty_positive, pretty, pretty_N.
    case_decide; [done|]. by apply pretty_N_go_no_colon. }
  destruct z as [|p|p]; [done|apply Hpos|].
  change (pretty (Z.neg p)) with ("-" +:+ pretty p).
  rewrite occurs_append, Hpos. done.
Qed.

Lemma split_at_first c (a a' b b' : string) :
  occurs c a = false → occurs c a' = false →
  a +:+ String c b = a' +:+ String c b' → a = a' ∧ b = b'.
Proof.
  revert a'. induction a as [|x a IH]; intros [|x' a'] Ha Ha' Heq;
    cbn in Ha, Ha', Heq.
  - by injection Heq.
  - injection Heq as <- _. by rewrite Ascii.eqb_refl in Ha'.
  - injection Heq as -> _. by rewrite Ascii.eqb_refl in Ha.
  - injection Heq as -> Heq.
    apply orb_false_iff in Ha as [_ Ha]. apply orb_false_iff in Ha' as [_ Ha'].
    destruct (IH a' Ha Ha' Heq) as [-> ->]. done.
Qed.

(** X15: two channels share a key of the failure tracker only if they are
    the same channel of the same guild. *)
Theorem channel_key_determines_channel (guild_id channel_id guild_id' channel_id' : Z) :
  channel_key guild_id channel_id = channel_key guild_id' channel_id'
  ↔ guild_id = guild_id' ∧ channel_id = channel_id'.
Proof.
  split; [|by intros [-> ->]].
  unfold channel_key. intros Heq.
  apply split_at_first in Heq as [Hg Hc]; try apply pretty_Z_no_colon.
  split; by apply (inj pretty).
Qed.

Lemma send_discord_message_failed_mono resp guild_id channel_id t :
  failed_channels t ⊆ failed_channels (send_discord_message resp guild_id channel_id t).
Proof.
  unfold send_discord_message. case_decide as Hin; [done|].
  intros key Hkey. unfold send_attempt. apply failed_finally. left.
  destruct resp; cbn; set_solver.
Qed.

Lemma send_discord_message_skipped resp guild_id channel_id t :
  channel_key guild_id channel_id ∈ failed_channels t →
  send_discord_message resp guild_id channel_id t = t.
Proof. intros H. unfold send_discord_message. by rewrite decide_True. Qed.

Lemma send_discord_message_frozen resp guild_id channel_id key t :
  key ∈ failed_channels t →
  failure_count key (send_discord_message resp guild_id channel_id t)
  = failure_count key t.
Proof.
  intros Hkey. unfold send_discord_message. case_decide as Hin; [done|].
  apply send_attempt_other. by intros ->.
Qed.

(** X16: over sends that run one after the other, a channel that is
    skipped stays skipped, with its failure counter frozen, whatever is
    sent afterwards and whatever Discord would answer: a call of
    [send_discord_message] that finds the key in [failed_channels] returns
    before the branch that takes a key out of it. *)
Theorem skipped_for_the_session (sends : list (send_response * (Z * Z)))
    (key : string) (t : tracker) :
  key ∈ failed_channels t →
  key ∈ failed_channels (send_all sends t)
  ∧ failure_count key (send_all sends t) = failure_count key t.
Proof.
  revert t. induction sends as [|[resp [g c]] rest IH]; intros t Hkey; [done|].
  cbn [send_all foldl fst snd].
  pose proof (send_discord_message_failed_mono resp g c t key Hkey) as Hkey'.
  destruct (IH _ Hkey') as [Hin Hcount]. split; [done|].
  unfold send_all in Hcount. rewrite Hcount.
  by apply send_discord_message_frozen.
Qed.

Lemma skipped_for_the_session_witness :
  let t := send_all [(Forbidden, (1, 11)%Z)] fresh_tracker in
  let sends := [(Sent, (1, 11)%Z); (Sent, (2, 22)%Z); (Sent, (1, 11)%Z)] in
  channel_key 1 11 ∈ failed_channels (send_all sends t)
  ∧ failure_count (channel_key 1 11) (send_all sends t)
    = failure_count (channel_key 1 11) t.
Proof.
  intros t sends.
  apply (skipped_for_the_session sends (channel_key 1 11) t).
  vm_compute. set_solver.
Defined.

Lemma send_attempt_threshold resp key t :
  (∀ key', MAX_RETRIES ≤ failure_count key' t → key' ∈ failed_channels t) →
  ∀ key', MAX_RETRIES ≤ failure_count key' (send_attempt resp key t) →
    key' ∈ failed_channels (send_attempt resp key t).
Proof.
  intros Hinv key' Hle.
  destruct (decide (key' = key)) as [->|Hne].
  - unfold send_attempt in *. rewrite failure_count_finally in Hle.
    apply failed_finally. right. done.
  - destruct (send_attempt_other resp key' key t Hne) as [Hf Hc].
    rewrite Hc in Hle. apply Hf. by apply Hinv.
Qed.

(** X17: in every tracker that sends run one after the other reach from
    the empty one, a key whose counter has reached [MAX_RETRIES] is in
    [failed_channels], and no counter exceeds [2 * MAX_RETRIES - 1]. *)
Theorem threshold_means_skipped (sends : list (send_response * (Z * Z)))
    (key : string) :
  (MAX_RETRIES ≤ failure_count key (send_all sends fresh_tracker) →
   key ∈ failed_channels (send_all sends fresh_tracker))
  ∧ failure_count key (send_all sends fresh_tracker) ≤ 2 * MAX_RETRIES - 1.
Proof.
  assert (∀ t,
    (∀ key', (MAX_RETRIES ≤ failure_count key' t → key' ∈ failed_channels t)
             ∧ failure_count key' t ≤ 2 * MAX_RETRIES - 1) →
    ∀ key', (MAX_RETRIES ≤ failure_count key' (send_all sends t)
             → key' ∈ failed_channels (send_all sends t))
            ∧ failure_count key' (send_all sends t) ≤ 2 * MAX_RETRIES - 1)
    as Hgen.
  { induction sends as [|[resp [g c]] rest IH]; intros t Hinv; [done|].
    cbn [send_all foldl fst snd]. apply IH. clear IH. intros key'.
    unfold send_discord_message. case_decide as Hin; [apply Hinv|].
    split; [apply send_attempt_threshold; intros; by apply Hinv|].
    destruct (decide (key' = channel_key g c)) as [->|Hne].
    - assert (failure_count (channel_key g c) t < MAX_RETRIES) as Hlt.
      { destruct (Hinv (channel_key g c)) as [Hth _].
        destruct (decide (MAX_RETRIES ≤ failure_count (channel_key g c) t));
          [by destruct Hin; apply Hth|lia]. }
      unfold send_attempt. rewrite failure_count_finally.
      unfold MAX_RETRIES in *.
      destruct resp; unfold failure_count in *; cbn;
        rewrite ?lookup_insert_eq, ?lookup_delete_eq; cbn; lia.
    - destruct (send_attempt_other resp key' (channel_key g c) t Hne) as [_ ->].
      apply Hinv. }
  apply Hgen. intros key'.
  assert (failure_count key' fresh_tracker = 0) as -> by done.
  unfold MAX_RETRIES. split; lia.
Qed.

(** ** The snapshot files over a run *)

Lemma keeps_files_ret {A} (a : A) : keeps_files (mret a : M A).
Proof. done. Qed.

Lemma keeps_files_lift {A} (r : result A) : keeps_files (lift r).
Proof. done. Qed.

Lemma keeps_files_suspend {A} E (f : world → A) :
  keeps_files (λ w, (Ok (f w), suspend E w)).
Proof. intros w. apply suspend_spec. Qed.

Lemma keeps_files_bind {A B} (m : M A) (f : A → M B) :
  keeps_files m → (∀ a, keeps_files (f a)) → keeps_files (m ≫= f).
Proof.
  intros Hm Hf w. unfold mbind, M_bind. specialize (Hm w).
  destruct (m w) as [[a|e] w1]; cbn in *; [|done].
  by rewrite Hf.
Qed.

Lemma keeps_files_for_each {A} (body : A → M unit) (l : list A) :
  (∀ x, keeps_files (body x)) → keeps_files (for_each body l).
Proof.
  intros Hbody. induction l as [|x l IH]; cbn [for_each].
  - apply keeps_files_ret.
  - apply keeps_files_bind; [done|]. by intros _.
Qed.

Lemma keeps_files_create_send_tasks E format guild_ping_roles r :
  keeps_files (create_send_tasks E format guild_ping_roles r).
Proof.
  unfold create_send_tasks.
  apply keeps_files_bind; [apply (keeps_files_suspend E)|].
  intros channel_configs. apply keeps_files_for_each. intros gc.
  apply keeps_files_bind; [done|].
  intros w0. case_decide; [apply keeps_files_ret|].
  apply keeps_files_bind; [apply keeps_files_lift|]. done.
Qed.

Lemma keeps_files_create_fanout_task E r : keeps_files (create_fanout_task E r).
Proof.
  unfold create_fanout_task.
  apply keeps_files_bind; [apply keeps_files_lift|]. done.
Qed.

Lemma keeps_files_create_all_tasks E is_second_repo guild_ping_roles t :
  keeps_files (create_all_tasks E is_second_repo guild_ping_roles t).
Proof.
  unfold create_all_tasks.
  apply keeps_files_bind;
    [apply keeps_files_for_each; intros; apply keeps_files_create_send_tasks|].
  intros _. apply keeps_files_bind;
    [apply keeps_files_for_each; intros; apply keeps_files_create_fanout_task|].
  intros _. destruct is_second_repo; [|apply keeps_files_ret].
  apply keeps_files_for_each. intros. apply keeps_files_create_send_tasks.
Qed.

(** The steps of [process_repo_updates] before the write of the snapshot. *)
Lemma process_repo_updates_split E new_data old_data previous_data_file
    is_second_repo w :
  ∃ before : M unit,
    keeps_files before
    ∧ process_repo_updates E new_data old_data previous_data_file
                           is_second_repo w
      = (before ≫= λ _, write_previous_data E previous_data_file new_data) w.
Proof.
  exists (old_roles_dict ← lift (old_roles_dict old_data);
          guild_ping_roles ← await_ping_roles E;
          t ← lift (classify_loop old_roles_dict is_second_repo new_data
                                  no_transitions);
          create_all_tasks E is_second_repo guild_ping_roles t).
  split.
  - apply keeps_files_bind; [apply keeps_files_lift|]. intros d.
    apply keeps_files_bind; [apply (keeps_files_suspend E)|]. intros roles.
    apply keeps_files_bind; [apply keeps_files_lift|]. intros t.
    apply keeps_files_create_all_tasks.
  - unfold process_repo_updates, mbind, M_bind, lift.
    destruct (old_roles_dict old_data) as [d|e]; [|done].
    destruct (await_ping_roles E w) as [[roles|e] w1]; [|done].
    destruct (classify_loop d is_second_repo new_data no_transitions)
      as [t|e]; [|done].
    done.
Qed.

Lemma process_repo_updates_raises E new_data old_data previous_data_file
    is_second_repo w e w' :
  process_repo_updates E new_data old_data previous_data_file is_second_repo w
  = (Raise e, w') →
  files w' = files w.
Proof.
  destruct (process_repo_updates_split E new_data old_data previous_data_file
              is_second_repo w) as (before & Hkeep & ->).
  unfold mbind, M_bind. specialize (Hkeep w).
  destruct (before w) as [[[]|e1] w1]; cbn [snd] in Hkeep; [done|].
  by intros [= _ <-].
Qed.

(** X19: a run of [process_repo_updates] that returns ends with the write
    of the snapshot: the last event is that write, every other file is as
    it was, and if the write went through the snapshot read back is the
    feed that was processed; a run that raises (a record the formatters
    or the index cannot take) has touched no file. *)
Theorem snapshot_follows_the_run (E : env) (new_data old_data : list role)
    (previous_data_file : string) (is_second_repo : bool) (w : world) :
  match process_repo_updates E new_data old_data previous_data_file
                             is_second_repo w with
  | (Ok _, w') =>
      (∀ path, path ≠ previous_data_file → files w' !! path = files w !! path)
      ∧ ∃ resp,
          last (trace w') = Some (SnapshotWrite previous_data_file resp)
          ∧ (resp = Written →
             load_previous_data previous_data_file w' = new_data)
          ∧ (resp = OpenFails → files w' = files w)
  | (Raise _, w') => files w' = files w
  end.
Proof.
  destruct (process_repo_updates_split E new_data old_data previous_data_file
              is_second_repo w) as (before & Hkeep & ->).
  unfold mbind, M_bind. specialize (Hkeep w).
  destruct (before w) as [[[]|e] w1]; cbn [snd] in Hkeep; [|done].
  unfold write_previous_data. cbn [files log set_files trace].
  split.
  - intros path Hpath. rewrite <- Hkeep.
    destruct (disk E (now w1) previous_data_file); cbn;
      by rewrite ?lookup_insert_ne.
  - exists (disk E (now w1) previous_data_file).
    rewrite last_snoc. split; [done|]. split; intros ->; cbn.
    + unfold load_previous_data. cbn. by rewrite lookup_insert_eq.
    + done.
Qed.

(** X20: an exception while the first feed is processed ends the cycle:
    the second feed is neither fetched nor processed, no file has changed,
    and the flag is clear again. *)
Theorem exception_in_first_feed_ends_cycle (E : env) (w w1 : world) (e : exn) :
  is_task_running w = false →
  check_repo E JSON_URL_1 PREVIOUS_DATA_FILE false (set_running true w)
  = (Raise e, w1) →
  combined_scheduled_task E w = set_running false w1
  ∧ files (combined_scheduled_task E w) = files w.
Proof.
  intros Hflag Hraise.
  assert (combined_scheduled_task E w = set_running false w1) as ->.
  { unfold combined_scheduled_task, cycle_body, mbind, M_bind.
    by rewrite Hflag, Hraise. }
  split; [done|]. cbn [files set_running].
  unfold check_repo, mbind, M_bind, fetch_json_from_url, get_world in Hraise.
  destruct (response_data _) as [|r new_data]; [done|].
  apply process_repo_updates_raises in Hraise. rewrite Hraise.
  by destruct (suspend_spec E (set_running true w)) as [-> _].
Qed.

Lemma exception_in_first_feed_ends_cycle_witness :
  files (combined_scheduled_task
           (sample_env (λ _ _, Fetched [sample_role]) (λ _ _, Written) eager)
           (idle_world {[PREVIOUS_DATA_FILE := Json [{["id" := JList []]}]]}))
  = {[PREVIOUS_DATA_FILE := Json [{["id" := JList []]}]]}.
Proof.
  refine (proj2 (exception_in_first_feed_ends_cycle
                   (sample_env (λ _ _, Fetched [sample_role]) (λ _ _, Written)
                               eager)
                   (idle_world
                      {[PREVIOUS_DATA_FILE := Json [{["id" := JList []]}]]})
                   (World {[PREVIOUS_DATA_FILE := Json [{["id" := JList []]}]]}
                          fresh_tracker true [] [] [Suspended])
                   TypeError _ _)).
  - reflexivity.
  - vm_compute. reflexivity.
Defined.

(** ** The configuration store *)

Lemma elem_of_get_all_channels_from_db (db : Store.table) (guild_id channel : Z) :
  (guild_id, channel) ∈ Store.get_all_channels_from_db db
  ↔ ∃ row, db !! guild_id = Some row ∧ Store.channel_id row = Some channel.
Proof.
  unfold Store.get_all_channels_from_db. rewrite list_elem_of_omap. split.
  - intros ([g row] & Hin & Hsome). apply elem_of_map_to_list in Hin.
    cbn in Hsome. destruct (Store.channel_id row) as [c|] eqn:Hc; [|done].
    cbn in Hsome. injection Hsome as -> ->. eauto.
  - intros (row & Hrow & Hc). exists (guild_id, row).
    split; [by apply elem_of_map_to_list|]. cbn. by rewrite Hc.
Qed.

Lemma lookup_set_guild_channel (db : Store.table) guild_id channel g :
  Store.set_guild_channel guild_id channel db !! g
  = if decide (g = guild_id)
    then Some (Store.Row channel (db !! guild_id ≫= Store.ping_role_id))
    else db !! g.
Proof.
  unfold Store.set_guild_channel.
  destruct (db !! guild_id) as [row|] eqn:Hrow; case_decide as Hg;
    subst; by rewrite ?lookup_insert_eq, ?lookup_insert_ne.
Qed.

Lemma lookup_set_guild_ping_role (db : Store.table) guild_id role_id g :
  Store.set_guild_ping_role guild_id role_id db !! g
  = if decide (g = guild_id)
    then Some (Store.Row (db !! guild_id ≫= Store.channel_id) role_id)
    else db !! g.
Proof.
  unfold Store.set_guild_ping_role.
  destruct (db !! guild_id) as [row|] eqn:Hrow; case_decide as Hg;
    subst; by rewrite ?lookup_insert_eq, ?lookup_insert_ne.
Qed.

(** X21: [get_all_channels_from_db] lists exactly the pairs of a guild and
    its stored channel, and no guild twice: a guild has at most one
    notification channel. *)
Theorem one_channel_per_guild (db : Store.table) :
  (∀ guild_id channel,
     (guild_id, channel) ∈ Store.get_all_channels_from_db db
     ↔ ∃ row, db !! guild_id = Some row ∧ Store.channel_id row = Some channel)
  ∧ NoDup (Store.get_all_channels_from_db db).*1.
Proof.
  split; [apply elem_of_get_all_channels_from_db|].
  unfold Store.get_all_channels_from_db.
  apply (sublist_NoDup _ (map_to_list db).*1); [apply NoDup_fst_map_to_list|].
  induction (map_to_list db) as [|[g row] l IH]; [done|].
  cbn. destruct (Store.channel_id row); cbn.
  - by apply sublist_skip.
  - by apply sublist_cons.
Qed.

Lemma get_guild_channel_listed (db : Store.table) (guild_id channel : Z) :
  Store.get_guild_channel guild_id db = Some channel
  ↔ (guild_id, channel) ∈ Store.get_all_channels_from_db db ∧ channel ≠ 0%Z.
Proof.
  rewrite elem_of_get_all_channels_from_db.
  unfold Store.get_guild_channel, Store.truthy_column.
  destruct (db !! guild_id) as [row|]; [|naive_solver].
  destruct (Store.channel_id row) as [c|] eqn:Hc.
  2: { split; [done|]. intros [(? & [= <-] & ?) _]. congruence. }
  destruct (Z.eqb_spec c 0) as [->|Hne]; split.
  - done.
  - intros [(? & [= <-] & ?) ?]. congruence.
  - intros [= <-]. eauto.
  - intros [(? & [= <-] & ?) _]. congruence.
Qed.

(** X22: the reads of one guild agree with the reads of all guilds, but
    for the identifier 0, which the reads of one guild take for no value:
    [get_guild_channel] reports the channel [get_all_channels_from_db]
    lists unless it is 0, and the ping role the formatters find in the
    result of [get_all_guild_ping_roles] is the one [get_guild_ping_role]
    reports. *)
Theorem single_reads_agree_with_bulk_reads (db : Store.table) (guild_id : Z) :
  (∀ channel,
     Store.get_guild_channel guild_id db = Some channel
     ↔ (guild_id, channel) ∈ Store.get_all_channels_from_db db ∧ channel ≠ 0%Z)
  ∧ configured_ping_role guild_id (Store.get_all_guild_ping_roles db)
    = Store.get_guild_ping_role guild_id db.
Proof.
  split.
  - intros channel. apply get_guild_channel_listed.
  - unfold configured_ping_role, Store.get_all_guild_ping_roles,
      Store.get_guild_ping_role, Store.truthy_column.
    rewrite lookup_omap. destruct (db !! guild_id) as [row|]; [|done].
    cbn. by destruct (Store.ping_role_id row).
Qed.

Lemma get_all_guild_ping_roles_set_guild_channel db guild_id channel :
  Store.get_all_guild_ping_roles (Store.set_guild_channel guild_id channel db)
  = Store.get_all_guild_ping_roles db.
Proof.
  apply map_eq. intros g. unfold Store.get_all_guild_ping_roles.
  rewrite !lookup_omap, lookup_set_guild_channel.
  case_decide as Hg; [subst g|done]. by destruct (db !! guild_id).
Qed.

Lemma elem_of_channels_set_guild_channel db guild_id channel g c :
  (g, c) ∈ Store.get_all_channels_from_db
             (Store.set_guild_channel guild_id channel db)
  ↔ if decide (g = guild_id) then channel = Some c
    else (g, c) ∈ Store.get_all_channels_from_db db.
Proof.
  rewrite elem_of_get_all_channels_from_db, lookup_set_guild_channel.
  case_decide; [|by rewrite elem_of_get_all_channels_from_db]. split.
  - by intros (row & [= <-] & Hc).
  - intros ->. eauto.
Qed.

(** X23: the two columns are independent: storing or removing a channel
    changes no guild's ping role, and storing or clearing a ping role
    changes no guild's channel. *)
Theorem store_columns_independent (db : Store.table) (guild_id : Z)
    (value : option Z) :
  Store.get_all_guild_ping_roles (Store.set_guild_channel guild_id value db)
  = Store.get_all_guild_ping_roles db
  ∧ (∀ g, Store.get_guild_ping_role g (Store.set_guild_channel guild_id value db)
          = Store.get_guild_ping_role g db)
  ∧ (∀ g c, (g, c) ∈ Store.get_all_channels_from_db
                       (Store.set_guild_ping_role guild_id value db)
            ↔ (g, c) ∈ Store.get_all_channels_from_db db)
  ∧ (∀ g, Store.get_guild_channel g (Store.set_guild_ping_role guild_id value db)
          = Store.get_guild_channel g db).
Proof.
  split; [apply get_all_guild_ping_roles_set_guild_channel|].
  split; [|split].
  - intros g. unfold Store.get_guild_ping_role.
    rewrite lookup_set_guild_channel. case_decide as Hg; [subst g|done].
    by destruct (db !! guild_id).
  - intros g c. rewrite !elem_of_get_all_channels_from_db,
      lookup_set_guild_ping_role.
    case_decide as Hg; [subst g|done].
    destruct (db !! guild_id) as [row|]; cbn; split.
    + intros (? & [= <-] & ?). eauto.
    + intros (? & [= <-] & ?). eauto.
    + by intros (? & [= <-] & ?).
    + by intros (? & ? & ?).
  - intros g. unfold Store.get_guild_channel.
    rewrite lookup_set_guild_ping_role. case_decide as Hg; [subst g|done].
    by destruct (db !! guild_id).
Qed.

(** X24: what [/set_channel] does to the channels the bot posts to.  With
    a channel, the guild is listed with that channel and every other
    guild as before.  Without one, the guild's channel is removed, unless
    the stored channel is 0: then the command answers that none is
    configured and the pair stays listed.  Either way no ping role
    changes. *)
Theorem set_channel_cmd_effect (db : Store.table) (guild_id : Z) :
  (∀ channel g c,
     (g, c) ∈ Store.get_all_channels_from_db
                (Store.set_channel_cmd guild_id (Some channel) db).1
     ↔ if decide (g = guild_id) then c = channel
       else (g, c) ∈ Store.get_all_channels_from_db db)
  ∧ (∀ g c,
       (g, c) ∈ Store.get_all_channels_from_db
                  (Store.set_channel_cmd guild_id None db).1
       ↔ (g, c) ∈ Store.get_all_channels_from_db db
         ∧ (g = guild_id → c = 0%Z))
  ∧ (∀ channel,
       Store.get_all_guild_ping_roles
         (Store.set_channel_cmd guild_id channel db).1
       = Store.get_all_guild_ping_roles db).
Proof.
  split; [|split].
  - intros channel g c. cbn [Store.set_channel_cmd fst].
    rewrite elem_of_channels_set_guild_channel.
    case_decide; [|done]. split; congruence.
  - intros g c. unfold Store.set_channel_cmd.
    destruct (Store.get_guild_channel guild_id db) as [n|] eqn:Hget; cbn [fst].
    + apply get_guild_channel_listed in Hget as [Hin Hn].
      rewrite elem_of_channels_set_guild_channel.
      case_decide as Hg; [subst g|naive_solver].
      split; [done|]. intros [Hc H0]. specialize (H0 eq_refl). subst c.
      apply elem_of_get_all_channels_from_db in Hin as (row & Hrow & Hn').
      apply elem_of_get_all_channels_from_db in Hc as (row' & Hrow' & H0).
      congruence.
    + split; [|by intros [? _]]. intros Hin. split; [done|]. intros ->.
      destruct (decide (c = 0%Z)) as [|Hc]; [done|].
      assert (Store.get_guild_channel guild_id db = Some c) as Hsome
        by (by apply get_guild_channel_listed).
      congruence.
  - intros [channel|]; unfold Store.set_channel_cmd; cbn [fst].
    + apply get_all_guild_ping_roles_set_guild_channel.
    + destruct (Store.get_guild_channel guild_id db); cbn [fst]; [|done].
      apply get_all_guild_ping_roles_set_guild_channel.
Qed.

(** X25: what [/set_ping_role] does to the mentions: afterwards the
    formatters find for the guild the role that was given (none if it was
    cleared, or is 0), and for every other guild the role they found
    before; no channel changes. *)
Theorem set_ping_role_cmd_effect (db : Store.table) (guild_id : Z)
    (role : option Z) (g : Z) :
  configured_ping_role g
    (Store.get_all_guild_ping_roles (Store.set_ping_role_cmd guild_id role db).1)
  = (if decide (g = guild_id) then Store.truthy_column role
     else configured_ping_role g (Store.get_all_guild_ping_roles db))
  ∧ ∀ c, (g, c) ∈ Store.get_all_channels_from_db
                     (Store.set_ping_role_cmd guild_id role db).1
         ↔ (g, c) ∈ Store.get_all_channels_from_db db.
Proof.
  assert ((Store.set_ping_role_cmd guild_id role db).1
          = Store.set_guild_ping_role guild_id role db) as ->
    by (by destruct role).
  split.
  - unfold configured_ping_role, Store.get_all_guild_ping_roles.
    rewrite !lookup_omap, lookup_set_guild_ping_role.
    case_decide; [|done]. by destruct role.
  - intros c. rewrite !elem_of_get_all_channels_from_db,
      lookup_set_guild_ping_role.
    case_decide as Hg; [subst g|done].
    destruct (db !! guild_id) as [row|]; cbn; split.
    + intros (? & [= <-] & ?). eauto.
    + intros (? & [= <-] & ?). eauto.
    + by intros (? & [= <-] & ?).
    + by intros (? & ? & ?).
Qed.

(** ** The fetch script *)

(** X26: [save_json_data_restores] at a write that fails after the file
    was opened: the snapshot that was there is back in place. *)
Lemma save_json_data_restores_witness :
  (save_json_data DumpFails [] PREVIOUS_DATA_FILE
     {[PREVIOUS_DATA_FILE := Json [sample_role]]}).2 !! PREVIOUS_DATA_FILE
  = Some (Json [sample_role]).
Proof.
  refine (proj2 (proj2 (save_json_data_restores DumpFails [] PREVIOUS_DATA_FILE
                          {[PREVIOUS_DATA_FILE := Json [sample_role]]}
                          (Json [sample_role]) _) _)).
  - vm_compute. reflexivity.
  - discriminate.
Defined.

(** The files of [save_json_data] at a path, from the two entries it reads. *)
Lemma save_json_data_lookup resp data file_path fs path :
  (save_json_data resp data file_path fs).2 !! path
  = if decide (path = file_path) then
      match resp with
      | Written => Some (Json data)
      | OpenFails | DumpFails =>
          match fs !! file_path with
          | Some old => Some old
          | None =>
              match fs !! (file_path +:+ ".backup") with
              | Some stale => Some stale
              | None =>
                  match resp with DumpFails => Some Undecodable | _ => None end
              end
          end
      end
    else if decide (path = file_path +:+ ".backup") then
      match resp with
      | Written =>
          match fs !! file_path with
          | Some old => Some old
          | None => fs !! (file_path +:+ ".backup")
          end
      | OpenFails | DumpFails => None
      end
    else fs !! path.
Proof.
  pose proof (backup_path_differs file_path) as Hne.
  unfold save_json_data, rename, write_file.
  destruct resp, (fs !! file_path) as [old|] eqn:Hold,
    (fs !! (file_path +:+ ".backup")) as [stale|] eqn:Hstale;
    repeat (case_decide || case_match); simplify_map_eq; try done;
    try (by exfalso; eauto using is_Some_None).
Qed.

Lemma save_json_data_result resp data file_path fs :
  (save_json_data resp data file_path fs).1
  = match resp with Written => true | _ => false end.
Proof. unfold save_json_data. by destruct resp. Qed.

(** X27: [save_json_data] touches the file it is given and its backup
    path, and nothing else; and when the file did not exist and the write
    fails, what it leaves at the path is a backup left by an earlier save,
    if there is one, and otherwise nothing, or the truncated file. *)
Theorem save_json_data_footprint (resp : write_response) (data : list role)
    (file_path : string) (fs : gmap string file_content) :
  (∀ path, path ≠ file_path → path ≠ file_path +:+ ".backup" →
     (save_json_data resp data file_path fs).2 !! path = fs !! path)
  ∧ (fs !! file_path = None → resp ≠ Written →
     (save_json_data resp data file_path fs).2 !! file_path
     = match fs !! (file_path +:+ ".backup") with
       | Some stale => Some stale
       | None => match resp with DumpFails => Some Undecodable | _ => None end
       end).
Proof.
  split.
  - intros path H1 H2. rewrite save_json_data_lookup.
    by rewrite !decide_False.
  - intros Hnone Hresp. rewrite save_json_data_lookup, decide_True, Hnone by done.
    by destruct resp.
Qed.

Lemma save_json_data_footprint_witness :
  (save_json_data DumpFails [sample_role] PREVIOUS_DATA_FILE
     {[PREVIOUS_DATA_FILE +:+ ".backup" := Json []]}).2 !! PREVIOUS_DATA_FILE
  = Some (Json []).
Proof.
  refine (proj2 (save_json_data_footprint DumpFails [sample_role]
                   PREVIOUS_DATA_FILE
                   {[PREVIOUS_DATA_FILE +:+ ".backup" := Json []]}) _ _).
  - vm_compute. reflexivity.
  - discriminate.
Defined.

Lemma update_source_lookup feed disk url file_path fs path :
  path ≠ file_path → path ≠ file_path +:+ ".backup" →
  (update_source feed disk url file_path fs).2 !! path = fs !! path.
Proof.
  intros H1 H2. unfold update_source.
  destruct (response_data (feed url)); [done|].
  rewrite save_json_data_lookup. by rewrite !decide_False.
Qed.

(** What one source does to its file and to the result depends on the
    entries of the file and of its backup only. *)
Lemma update_source_local feed disk url file_path fs fs' :
  fs !! file_path = fs' !! file_path →
  fs !! (file_path +:+ ".backup") = fs' !! (file_path +:+ ".backup") →
  (update_source feed disk url file_path fs).1
  = (update_source feed disk url file_path fs').1
  ∧ ∀ path, path = file_path ∨ path = file_path +:+ ".backup" →
      (update_source feed disk url file_path fs).2 !! path
      = (update_source feed disk url file_path fs').2 !! path.
Proof.
  intros Hfile Hbackup. unfold update_source.
  destruct (response_data (feed url)) as [|r data].
  - split; [done|]. by intros path [->| ->].
  - split; [by rewrite !save_json_data_result|].
    intros path Hpath. rewrite !save_json_data_lookup, Hfile, Hbackup.
    repeat case_decide; try done. by destruct Hpath.
Qed.

(** The data files and their backup paths are pairwise different. *)
Ltac distinct_paths := apply (bool_decide_unpack _); vm_compute; exact I.

Lemma update_source_success feed disk url file_path fs :
  (update_source feed disk url file_path fs).1 = true →
  response_data (feed url) ≠ []
  ∧ (update_source feed disk url file_path fs).2 !! file_path
    = Some (Json (response_data (feed url))).
Proof.
  unfold update_source. destruct (response_data (feed url)) as [|r data]; [done|].
  rewrite save_json_data_result, save_json_data_lookup, decide_True by done.
  by destruct (disk file_path).
Qed.

(** X28: the three sources of [update_data_files] are independent: the
    result is [True] exactly when each source alone would have succeeded,
    and each data file, and each backup, ends as if its source had been
    updated alone, whatever happened to the two others; so when the result
    is [True], every feed returned something and every data file holds
    what its feed returned. *)
Theorem update_data_files_independent (feed : string → fetch_response)
    (disk : string → write_response) (fs : gmap string file_content) :
  (update_data_files feed disk fs).1
  = (update_source feed disk JSON_URL_1 PREVIOUS_DATA_FILE fs).1
    && (update_source feed disk JSON_URL_2 PREVIOUS_DATA_FILE_2 fs).1
    && (update_source feed disk JSON_URL_3 PREVIOUS_DATA_FILE_3 fs).1
  ∧ (∀ url file_path path,
       (url, file_path) ∈ [(JSON_URL_1, PREVIOUS_DATA_FILE);
                           (JSON_URL_2, PREVIOUS_DATA_FILE_2);
                           (JSON_URL_3, PREVIOUS_DATA_FILE_3)] →
       path = file_path ∨ path = file_path +:+ ".backup" →
       (update_data_files feed disk fs).2 !! path
       = (update_source feed disk url file_path fs).2 !! path)
  ∧ ((update_data_files feed disk fs).1 = true →
     ∀ url file_path,
       (url, file_path) ∈ [(JSON_URL_1, PREVIOUS_DATA_FILE);
                           (JSON_URL_2, PREVIOUS_DATA_FILE_2);
                           (JSON_URL_3, PREVIOUS_DATA_FILE_3)] →
       response_data (feed url) ≠ []
       ∧ (update_data_files feed disk fs).2 !! file_path
         = Some (Json (response_data (feed url)))).
Proof.
  cut ((update_data_files feed disk fs).1
       = (update_source feed disk JSON_URL_1 PREVIOUS_DATA_FILE fs).1
         && (update_source feed disk JSON_URL_2 PREVIOUS_DATA_FILE_2 fs).1
         && (update_source feed disk JSON_URL_3 PREVIOUS_DATA_FILE_3 fs).1
       ∧ (∀ url file_path path,
            (url, file_path) ∈ [(JSON_URL_1, PREVIOUS_DATA_FILE);
                                (JSON_URL_2, PREVIOUS_DATA_FILE_2);
                                (JSON_URL_3, PREVIOUS_DATA_FILE_3)] →
            path = file_path ∨ path = file_path +:+ ".backup" →
            (update_data_files feed disk fs).2 !! path
            = (update_source feed disk url file_path fs).2 !! path)).
  { intros [Hres Hfiles]. split; [done|]. split; [done|].
    intros Htrue url file_path Hin. rewrite Hres in Htrue.
    apply andb_true_iff in Htrue as [[Ht1 Ht2]%andb_true_iff Ht3].
    rewrite (Hfiles url file_path file_path Hin) by (by left).
    apply update_source_success.
    apply elem_of_cons in Hin as [[= -> ->]|Hin]; [done|].
    apply elem_of_cons in Hin as [[= -> ->]|Hin]; [done|].
    by apply list_elem_of_singleton in Hin as [= -> ->]. }
  cbv beta zeta. unfold update_data_files.
  destruct (update_source feed disk JSON_URL_1 PREVIOUS_DATA_FILE fs)
    as [success1 fs1] eqn:Hu1.
  destruct (update_source feed disk JSON_URL_2 PREVIOUS_DATA_FILE_2 fs1)
    as [success2 fs2] eqn:Hu2.
  destruct (update_source feed disk JSON_URL_3 PREVIOUS_DATA_FILE_3 fs2)
    as [success3 fs3] eqn:Hu3.
  assert (∀ path, path ≠ PREVIOUS_DATA_FILE →
            path ≠ PREVIOUS_DATA_FILE +:+ ".backup" → fs1 !! path = fs !! path)
    as Hf1.
  { intros path ? ?. change fs1 with (success1, fs1).2. rewrite <- Hu1.
    by apply update_source_lookup. }
  assert (∀ path, path ≠ PREVIOUS_DATA_FILE_2 →
            path ≠ PREVIOUS_DATA_FILE_2 +:+ ".backup" → fs2 !! path = fs1 !! path)
    as Hf2.
  { intros path ? ?. change fs2 with (success2, fs2).2. rewrite <- Hu2.
    by apply update_source_lookup. }
  assert (∀ path, path ≠ PREVIOUS_DATA_FILE_3 →
            path ≠ PREVIOUS_DATA_FILE_3 +:+ ".backup" → fs3 !! path = fs2 !! path)
    as Hf3.
  { intros path ? ?. change fs3 with (success3, fs3).2. rewrite <- Hu3.
    by apply update_source_lookup. }
  destruct (update_source_local feed disk JSON_URL_2 PREVIOUS_DATA_FILE_2 fs1 fs)
    as [Hs2 Hl2]; [apply Hf1; distinct_paths..|].
  destruct (update_source_local feed disk JSON_URL_3 PREVIOUS_DATA_FILE_3 fs2 fs)
    as [Hs3 Hl3]; [rewrite Hf2, Hf1 by distinct_paths; reflexivity..|].
  rewrite Hu2 in Hs2, Hl2. rewrite Hu3 in Hs3, Hl3. cbn [fst snd] in *.
  split; [by rewrite Hs2, Hs3|].
  intros url file_path path Hin Hpath.
  apply elem_of_cons in Hin as [[= -> ->]|Hin];
    [|apply elem_of_cons in Hin as [[= -> ->]|Hin];
      [|apply list_elem_of_singleton in Hin as [= -> ->]]].
  - rewrite Hu1. cbn [snd]. destruct Hpath as [-> | ->];
      rewrite Hf3, Hf2 by distinct_paths; reflexivity.
  - rewrite <- Hl2 by done. destruct Hpath as [-> | ->];
      rewrite Hf3 by distinct_paths; reflexivity.
  - by rewrite <- Hl3.
Qed.
